(** * MediaPoster: fan-out publishing engine and scheduling subsystem

    A shallow embedding of the publishing core of the repository:
    - [src/utils/mediaHelper.js]            (module [MediaHelper])
    - [src/services/facebook.js]            (module [Facebook])
    - [src/services/telegram.js]            (module [Telegram])
    - [src/services/tiktok.js]              (module [TikTok])
    - [src/services/instagram.js]           (module [Instagram])
    - [src/services/uploader.js]            (module [Uploader])
    - [src/database/database.js]            (module [ScheduledPostModel])
    - [src/services/scheduler.js]           (module [Scheduler])
    - [src/routes/scheduled.js]             (module [ScheduledRoute])

    Everything the program reads from outside itself (upstream HTTP
    services, the file system calls of the adapters, the settings store,
    the order in which concurrent promises settle, the string case
    mapping of the host) is a field of the record [World]; the theorems
    quantify over every world. *)

From stdpp Require Import base decidable option list gmap strings sorting pretty.
From Stdlib Require Import ZArith Ascii Permutation Sorted.

Local Open Scope string_scope.
Local Open Scope Z_scope.
Set Warnings "-clear-no-such-hyp".

(** ** JavaScript values that travel through the adapters *)

(** Upstream responses are arbitrary JSON; [JUndefined] is the value of a
    missing property. *)
#[warnings="-register-all"] Inductive Json : Type :=
| JUndefined
| JNull
| JBool (b : bool)
| JNum (n : Z)
| JStr (s : string)
| JArr (items : list Json)
| JObj (props : list (string * Json)).

(** A thrown [Error]: its [message], and the [response] an HTTP client
    attaches to it ([JUndefined] when there is none). *)
Record JsError : Type := mkError { message : string; response : Json }.

Definition Error (msg : string) : JsError := mkError msg JUndefined.

(** Completion of a synchronous computation: a value or a thrown error. *)
Inductive Exc (A : Type) : Type :=
| Ok (a : A)
| Throw (e : JsError).
Arguments Ok {A} a.
Arguments Throw {A} e.

(** How an [async] function ends for the caller that awaits it: the
    promise resolves, rejects, or never settles. *)
Inductive Completion (A : Type) : Type :=
| Returns (a : A)
| Throws (e : JsError)
| Pending.
Arguments Returns {A} a.
Arguments Throws {A} e.
Arguments Pending {A}.

(** Truthiness, as used by [!x], [x || y] and [x ? a : b]. *)
Definition truthy (v : Json) : bool :=
  match v with
  | JUndefined | JNull => false
  | JBool b => b
  | JNum n => negb (n =? 0)
  | JStr s => negb (String.eqb s "")
  | JArr _ | JObj _ => true
  end.

Fixpoint assoc (k : string) (ps : list (string * Json)) : Json :=
  match ps with
  | [] => JUndefined
  | (k', v) :: rest => if String.eqb k k' then v else assoc k rest
  end.

(** [v.k] for a value that is neither [null] nor [undefined]: only objects
    carry the properties the adapters read. *)
Definition prop (v : Json) (k : string) : Json :=
  match v with
  | JObj ps => assoc k ps
  | _ => JUndefined
  end.

Definition nullish (v : Json) : bool :=
  match v with
  | JUndefined | JNull => true
  | _ => false
  end.

Definition TypeError_read (v : Json) (k : string) : JsError :=
  Error ("Cannot read properties of "
         +:+ (match v with JNull => "null" | _ => "undefined" end)
         +:+ " (reading '" +:+ k +:+ "')").

(** [v.k]: a [TypeError] on [null] and [undefined]. *)
Definition get (v : Json) (k : string) : Exc Json :=
  if nullish v then Throw (TypeError_read v k) else Ok (prop v k).

(** [v?.k]: [undefined] on [null] and [undefined]. *)
Definition get_opt (v : Json) (k : string) : Json :=
  if nullish v then JUndefined else prop v k.

(** [a || b] *)
Definition or_else (a b : Json) : Json := if truthy a then a else b.

(** [String(v)], the conversion a template literal applies. *)
Fixpoint js_String (v : Json) : string :=
  match v with
  | JUndefined => "undefined"
  | JNull => "null"
  | JBool true => "true"
  | JBool false => "false"
  | JNum n => pretty n
  | JStr s => s
  | JArr items =>
      (fix join (xs : list Json) : string :=
         match xs with
         | [] => ""
         | [x] => if nullish x then "" else js_String x
         | x :: rest => (if nullish x then "" else js_String x) +:+ "," +:+ join rest
         end) items
  | JObj _ => "[object Object]"
  end.

(** [s.split(sep).pop()]: the text after the last occurrence of [sep], or
    the whole text. *)
Fixpoint after_last (sep : Ascii.ascii) (s : string) : string :=
  match s with
  | EmptyString => EmptyString
  | String c rest =>
      if existsb (Ascii.eqb sep) (String.list_ascii_of_string rest)
      then after_last sep rest
      else if Ascii.eqb sep c then rest else s
  end.

(** [s.replace(/\/$/, '')]: [s] without one final slash. *)
Fixpoint strip_final_slash (s : string) : string :=
  match s with
  | EmptyString => EmptyString
  | String c EmptyString => if Ascii.eqb c "/" then EmptyString else s
  | String c rest => String c (strip_final_slash rest)
  end.

(** A credential read from the settings object: [undefined] when the key
    is absent.  Falsy values are [undefined] and the empty string. *)
Definition falsy (o : option string) : bool :=
  match o with
  | None => true
  | Some s => String.eqb s ""
  end.

(** ** Uploaded media and publish results *)

Record File : Type := mkFile {
  path : string;
  mimetype : string;
  originalname : string;
  size : option Z
}.

Inductive MediaType : Type := video | photo.

(** The object every adapter resolves to.  Optional keys are [None] when
    the object literal does not have them. *)
Record PlatformResult : Type := mkResult {
  success : bool;
  platform : string;
  postId : option Json;
  messageId : option Json;
  publishId : option Json;
  message_ : option string;
  error : option Json
}.

Definition failure (name : string) (err : Json) : PlatformResult :=
  mkResult false name None None None None (Some err).

(** ** External calls *)

Record FacebookConfig : Type := mkFacebookConfig {
  pageId : option string;
  fb_accessToken : option string
}.

Record TelegramConfig : Type := mkTelegramConfig {
  botToken : option string;
  chatId : option string
}.

Record TikTokConfig : Type := mkTikTokConfig {
  tk_accessToken : option string;
  openId : option string
}.

Record InstagramConfig : Type := mkInstagramConfig {
  accountId : option string;
  ig_accessToken : option string
}.

(** One constructor per request the adapters send, with the arguments
    that identify it. *)
Inductive Call : Type :=
(* facebook.js *)
| FbPostPhoto (config : FacebookConfig) (filePath : string) (caption : string)
| FbUploadUnpublished (config : FacebookConfig) (filePath : string)
| FbPostFeed (config : FacebookConfig) (caption : string) (mediaIds : list Json)
| FbPostVideo (config : FacebookConfig) (filePath : string) (caption : string)
(* telegram.js *)
| TgSendPhoto (config : TelegramConfig) (filePath : string) (caption : string)
| TgSendMediaGroup (config : TelegramConfig) (filePaths : list string) (caption : string)
| TgSendVideo (config : TelegramConfig) (filePath : string) (caption : string)
(* tiktok.js *)
| FsStat (filePath : string)
| FsReadFile (filePath : string)
| TkInitUpload (config : TikTokConfig) (fileSize : Json)
| TkUploadChunk (uploadUrl : Json) (filePath : string) (fileSize : Json)
(* instagram.js *)
| IgCreateContainer (config : InstagramConfig) (fields : list (string * Json))
| IgGetStatus (containerId : Json) (accessToken : option string)
| IgPublish (config : InstagramConfig) (containerId : Json)
| Sleep (milliseconds : Z).

Record LocalFields : Type := mkLocalFields {
  getFullYear : Z;
  getMonth : Z;
  getDate : Z;
  getHours : Z;
  getMinutes : Z;
  getSeconds : Z
}.

(** Rows of the settings collaborator: platform, then its fields. *)
Definition AllSettings : Type := list (string * list (string * string)).

Record World : Type := mkWorld {
  (** outcome of an external call, given the calls its task made before:
      the payload ([response.data], the bot's message, the [fs] result)
      or the error the call throws *)
  respond : list Call -> Call -> Exc Json;
  (** the order in which [n] promises launched together settle *)
  settle_order : nat -> list nat;
  (** [String.prototype.toLowerCase] *)
  toLowerCase : string -> string;
  (** [SettingsModel.getAllForUser] *)
  getAllForUser : string -> Exc AllSettings;
  (** [path.extname] and [path.basename] *)
  extname : string -> string;
  basename : string -> string;
  (** [process.env.PUBLIC_URL] *)
  PUBLIC_URL : option string;
  (** [new Date(text).getTime()]: [None] for an invalid date, else the
      milliseconds since the epoch *)
  Date_parse : string -> option Z;
  (** the local calendar fields of an instant: [getFullYear()],
      [getMonth()], [getDate()], [getHours()], [getMinutes()],
      [getSeconds()] *)
  local_fields : Z -> LocalFields;
  (** [JSON.parse] of the [platforms] form field *)
  JSON_parse : string -> Exc (list string)
}.

(** ** Asynchronous tasks

    A task runs against the log of the external calls it has made so far
    and ends with a value or a thrown error. *)
Definition IO (A : Type) : Type := list Call -> Exc A * list Call.

Definition ret {A} (a : A) : IO A := fun log => (Ok a, log).

Definition throw {A} (e : JsError) : IO A := fun log => (Throw e, log).

Definition lift {A} (x : Exc A) : IO A := fun log => (x, log).

Definition bind {A B} (m : IO A) (k : A -> IO B) : IO B :=
  fun log =>
    match m log with
    | (Ok a, log') => k a log'
    | (Throw e, log') => (Throw e, log')
    end.

Notation "'let*' x ':=' m 'in' k" := (bind m (fun x => k))
  (at level 10, x name, m at level 100, k at level 200).

(** [try { body } catch (error) { handler }] *)
Definition try_catch {A} (body : IO A) (handler : JsError -> IO A) : IO A :=
  fun log =>
    match body log with
    | (Ok a, log') => (Ok a, log')
    | (Throw e, log') => handler e log'
    end.

(** [await new Promise(resolve => setTimeout(resolve, ms))] *)
Definition sleep (ms : Z) : IO unit :=
  fun log => (Ok tt, (log ++ [Sleep ms])%list).

(** [await] of one external call *)
Definition perform (w : World) (c : Call) : IO Json :=
  fun log => (respond w log c, (log ++ [c])%list).

(** [files[0]] followed by a property read *)
Definition first_file (files : list File) (k : string) : Exc File :=
  match files with
  | f :: _ => Ok f
  | [] => Throw (TypeError_read JUndefined k)
  end.

(** [error.response?.data?.error?.message || error.message] *)
Definition errorMessage (e : JsError) : Json :=
  or_else (get_opt (get_opt (get_opt (response e) "data") "error") "message")
          (JStr (message e)).

Module MediaHelper.

Definition isImage (mimetype : string) : bool := String.prefix "image/" mimetype.

Definition isVideo (mimetype : string) : bool := String.prefix "video/" mimetype.

End MediaHelper.

(** ** facebook.js *)
Module Facebook.

(** [postSinglePhoto]: one multipart POST to [/{page}/photos]; the
    [message] field is sent only for a non-empty caption. *)
Definition postSinglePhoto (w : World) (filePath caption : string)
    (config : FacebookConfig) : IO Json :=
  let* data := perform w (FbPostPhoto config filePath caption) in
  ret data.

(** [uploadUnpublishedPhoto]: returns [response.data.id]. *)
Definition uploadUnpublishedPhoto (w : World) (filePath : string)
    (config : FacebookConfig) : IO Json :=
  let* data := perform w (FbUploadUnpublished config filePath) in
  lift (get data "id").

(** [Promise.all(files.map(...))]: every upload is started; the result
    is the list of values in input order, or the rejection of one of the
    tasks that failed.  When several fail, the runtime rejects with the
    one that failed first in time; the model takes the first one in
    input order, and nothing proved below depends on which one it is. *)
Fixpoint Promise_all {A} (tasks : list (IO A)) : IO (list A) :=
  match tasks with
  | [] => ret []
  | t :: rest =>
      fun log =>
        match t log with
        | (Ok a, log1) =>
            match Promise_all rest log1 with
            | (Ok vs, log2) => (Ok (a :: vs), log2)
            | (Throw e, log2) => (Throw e, log2)
            end
        | (Throw e, log1) => (Throw e, snd (Promise_all rest log1))
        end
  end.

Definition postMultiplePhotos (w : World) (files : list File) (caption : string)
    (config : FacebookConfig) : IO Json :=
  let* mediaIds :=
    Promise_all (map (fun file => uploadUnpublishedPhoto w (path file) config) files) in
  let* data := perform w (FbPostFeed config caption mediaIds) in
  ret data.

Definition postVideo (w : World) (filePath caption : string)
    (config : FacebookConfig) : IO Json :=
  let* data := perform w (FbPostVideo config filePath caption) in
  ret data.

Definition postToFacebook (w : World) (files : list File) (caption : string)
    (mediaType : MediaType) (userSettings : gmap string string) : IO PlatformResult :=
  try_catch
    (let config := mkFacebookConfig (userSettings !! "facebook_page_id")
                                    (userSettings !! "facebook_access_token") in
     if falsy (pageId config) || falsy (fb_accessToken config)
     then throw (Error "Facebook credentials not configured")
     else
       let* result :=
         match mediaType with
         | video =>
             let* f := lift (first_file files "path") in
             postVideo w (path f) caption config
         | photo =>
             if (length files =? 1)%nat
             then let* f := lift (first_file files "path") in
                  postSinglePhoto w (path f) caption config
             else postMultiplePhotos w files caption config
         end in
       let* id := lift (get result "id") in
       let* id_or_post_id :=
         if truthy id then ret id else lift (get result "post_id") in
       ret (mkResult true "facebook" (Some id_or_post_id) None None
                     (Some "Successfully posted to Facebook") None))
    (fun error => ret (failure "facebook" (errorMessage error))).

End Facebook.

(** ** telegram.js

    [getBot] memoises one client object per token; the cache holds no
    state that a result depends on and is left out. *)
Module Telegram.

Definition postSinglePhoto (w : World) (filePath caption : string)
    (config : TelegramConfig) : IO Json :=
  perform w (TgSendPhoto config filePath caption).

Definition postMultiplePhotos (w : World) (files : list File) (caption : string)
    (config : TelegramConfig) : IO Json :=
  perform w (TgSendMediaGroup config (map path files) caption).

Definition postVideo (w : World) (filePath caption : string)
    (config : TelegramConfig) : IO Json :=
  perform w (TgSendVideo config filePath caption).

(** [Array.isArray(result) ? result[0].message_id : result.message_id] *)
Definition message_id_of (result : Json) : Exc Json :=
  match result with
  | JArr items => get (hd JUndefined items) "message_id"
  | _ => get result "message_id"
  end.

Definition postToTelegram (w : World) (files : list File) (caption : string)
    (mediaType : MediaType) (userSettings : gmap string string) : IO PlatformResult :=
  try_catch
    (let config := mkTelegramConfig (userSettings !! "telegram_bot_token")
                                    (userSettings !! "telegram_chat_id") in
     if falsy (botToken config) || falsy (chatId config)
     then throw (Error "Telegram credentials not configured")
     else
       let* result :=
         match mediaType with
         | video =>
             let* f := lift (first_file files "path") in
             postVideo w (path f) caption config
         | photo =>
             if (length files =? 1)%nat
             then let* f := lift (first_file files "path") in
                  postSinglePhoto w (path f) caption config
             else postMultiplePhotos w files caption config
         end in
       let* messageId := lift (message_id_of result) in
       ret (mkResult true "telegram" None (Some messageId) None
                     (Some "Successfully posted to Telegram") None))
    (fun error => ret (failure "telegram" (JStr (message error)))).

End Telegram.

(** ** tiktok.js *)
Module TikTok.

Definition initializeUpload (w : World) (fileSize : Json) (config : TikTokConfig) : IO Json :=
  perform w (TkInitUpload config fileSize).

Definition uploadVideoChunk (w : World) (uploadUrl : Json) (filePath : string)
    (fileSize : Json) : IO Json :=
  let* fileBuffer := perform w (FsReadFile filePath) in
  perform w (TkUploadChunk uploadUrl filePath fileSize).

Definition postVideo (w : World) (filePath caption : string)
    (config : TikTokConfig) : IO Json :=
  if falsy (tk_accessToken config) || falsy (openId config)
  then throw (Error "TikTok credentials not configured")
  else
    let* stats := perform w (FsStat filePath) in
    let* fileSize := lift (get stats "size") in
    let* initResponse := initializeUpload w fileSize config in
    let* err := lift (get initResponse "error") in
    if truthy (get_opt err "code")
    then
      let* msg := lift (get err "message") in
      throw (Error (js_String (or_else msg (JStr "Failed to initialize TikTok upload"))))
    else
      let* data := lift (get initResponse "data") in
      let* uploadUrl := lift (get data "upload_url") in
      let* publishId := lift (get data "publish_id") in
      let* _ := uploadVideoChunk w uploadUrl filePath fileSize in
      ret (JObj [("publish_id", publishId)]).

Definition postToTikTok (w : World) (files : list File) (caption : string)
    (mediaType : MediaType) (userSettings : gmap string string) : IO PlatformResult :=
  try_catch
    (match mediaType with
     | photo => ret (failure "tiktok" (JStr "TikTok only supports video uploads"))
     | video =>
         let config := mkTikTokConfig (userSettings !! "tiktok_access_token")
                                      (userSettings !! "tiktok_open_id") in
         let* f := lift (first_file files "path") in
         let* result := postVideo w (path f) caption config in
         let* publish_id := lift (get result "publish_id") in
         ret (mkResult true "tiktok" None None (Some publish_id)
                       (Some "Video uploaded to TikTok (check your drafts)") None)
     end)
    (fun error => ret (failure "tiktok" (errorMessage error))).

End TikTok.

(** ** uploader.js *)
Module Uploader.

(** How a promise ends. *)
Inductive Settled (A : Type) : Type :=
| fulfilled (value : A)
| rejected (reason : JsError).
Arguments fulfilled {A} value.
Arguments rejected {A} reason.

(** A launched task runs from an empty call log to its end. *)
Definition settle {A} (task : IO A) : Settled A :=
  match fst (task []) with
  | Ok a => fulfilled a
  | Throw e => rejected e
  end.

(** The external calls the task makes on the way. *)
Definition calls_of {A} (task : IO A) : list Call := snd (task []).

(** [Promise.allSettled]: each promise, when it settles, stores its
    outcome in the slot of its own input index; the combined promise
    resolves with the slots once all of them are filled ([None]: some
    promise never settles, and neither does the combined one).
    [order] lists the indices in the order the promises settle. *)
Definition fill {A} (promises : list (IO A))
    (values : list (option (Settled A))) (order : list nat) : list (option (Settled A)) :=
  foldl (fun values i =>
           match promises !! i with
           | Some p => <[i := Some (settle p)]> values
           | None => values
           end) values order.

Definition allSettled {A} (order : list nat) (promises : list (IO A))
    : option (list (Settled A)) :=
  mapM (fun slot => slot) (fill promises (replicate (length promises) None) order).

Definition Adapter : Type :=
  World -> list File -> string -> MediaType -> gmap string string -> IO PlatformResult.

(** The three imported adapters. *)
Record Adapters : Type := mkAdapters {
  postToFacebook : Adapter;
  postToTelegram : Adapter;
  postToTikTok : Adapter
}.

Definition imported : Adapters :=
  mkAdapters Facebook.postToFacebook Telegram.postToTelegram TikTok.postToTikTok.

(** The [async (platform) => { switch (platform.toLowerCase()) ... }]
    callback of [platforms.map]. *)
Definition postingPromise (adapters : Adapters) (w : World) (files : list File)
    (caption : string) (mediaType : MediaType) (userSettings : gmap string string)
    (platform : string) : IO PlatformResult :=
  let name := toLowerCase w platform in
  if String.eqb name "facebook" then
    postToFacebook adapters w files caption mediaType userSettings
  else if String.eqb name "telegram" then
    postToTelegram adapters w files caption mediaType userSettings
  else if String.eqb name "tiktok" then
    postToTikTok adapters w files caption mediaType userSettings
  else if String.eqb name "instagram" then
    ret (failure "instagram" (JStr "Instagram integration coming soon"))
  else if String.eqb name "youtube" then
    ret (failure "youtube" (JStr "YouTube integration coming soon"))
  else
    ret (failure platform (JStr ("Unknown platform: " +:+ platform))).

(** [isVideo(files[0].mimetype) ? 'video' : 'photo'] *)
Definition mediaTypeOf (f : File) : MediaType :=
  if MediaHelper.isVideo (mimetype f) then video else photo.

(** The body of [postResults.forEach((result, index) => ...)].
    [platforms[index]] is in range: [postResults] has one entry per
    platform. *)
Definition collect (platforms : list string) (index : nat)
    (result : Settled PlatformResult) : PlatformResult :=
  match result with
  | fulfilled value => value
  | rejected reason =>
      failure (default "undefined" (platforms !! index))
              (or_else (JStr (message reason)) (JStr "Unknown error"))
  end.

(** [postToAllPlatforms] over a table of adapters. *)
Definition postToAllPlatformsWith (adapters : Adapters) (w : World)
    (platforms : list string) (files : list File) (caption : string)
    (userSettings : gmap string string) : Completion (list PlatformResult) :=
  match files with
  | [] => Throws (TypeError_read JUndefined "mimetype")
  | f :: _ =>
      let mediaType := mediaTypeOf f in
      let postingPromises :=
        map (postingPromise adapters w files caption mediaType userSettings) platforms in
      match allSettled (settle_order w (length postingPromises)) postingPromises with
      | None => Pending
      | Some postResults => Returns (imap (collect platforms) postResults)
      end
  end.

Definition postToAllPlatforms : World -> list string -> list File -> string ->
    gmap string string -> Completion (list PlatformResult) :=
  postToAllPlatformsWith imported.

End Uploader.

(** ** instagram.js *)
Module Instagram.

(** The default of the [maxAttempts] parameter; every caller uses it. *)
Definition default_maxAttempts : nat := 60.

Definition is_string (v : Json) (s : string) : bool :=
  match v with
  | JStr t => String.eqb t s
  | _ => false
  end.

(** [waitForMediaReady]: the [for (let i = 0; i < maxAttempts; i++)]
    loop, by recursion on the attempts that remain. *)
Fixpoint waitForMediaReady (w : World) (containerId : Json)
    (accessToken : option string) (maxAttempts : nat) : IO bool :=
  match maxAttempts with
  | O => throw (Error "Media processing timed out")
  | S remaining =>
      let* data := perform w (IgGetStatus containerId accessToken) in
      let* statusCode := lift (get data "status_code") in
      if is_string statusCode "FINISHED" then ret true
      else if is_string statusCode "ERROR" then
        let* status := lift (get data "status") in
        throw (Error ("Media processing failed: "
                      +:+ js_String (or_else status (JStr "Unknown error"))))
      else
        let* _ := sleep 5000 in
        waitForMediaReady w containerId accessToken remaining
  end.

Definition publishMedia (w : World) (containerId : Json)
    (config : InstagramConfig) : IO Json :=
  perform w (IgPublish config containerId).

Definition postSinglePhoto (w : World) (publicUrl caption : string)
    (config : InstagramConfig) : IO Json :=
  let* container :=
    perform w (IgCreateContainer config
                 [("image_url", JStr publicUrl); ("caption", JStr caption)]) in
  let* containerId := lift (get container "id") in
  publishMedia w containerId config.

Definition postVideo (w : World) (publicUrl caption : string)
    (config : InstagramConfig) : IO Json :=
  let* container :=
    perform w (IgCreateContainer config
                 [("video_url", JStr publicUrl); ("caption", JStr caption);
                  ("media_type", JStr "REELS")]) in
  let* containerId := lift (get container "id") in
  let* _ := waitForMediaReady w containerId (ig_accessToken config) default_maxAttempts in
  publishMedia w containerId config.

(** The [for (const url of publicUrls)] loop: one container per item,
    created one after the other. *)
Fixpoint createItems (w : World) (config : InstagramConfig)
    (publicUrls : list string) : IO (list Json) :=
  match publicUrls with
  | [] => ret []
  | url :: rest =>
      let* item :=
        perform w (IgCreateContainer config
                     [("image_url", JStr url); ("is_carousel_item", JBool true)]) in
      let* itemId := lift (get item "id") in
      let* itemIds := createItems w config rest in
      ret (itemId :: itemIds)
  end.

Definition postCarousel (w : World) (publicUrls : list string) (caption : string)
    (config : InstagramConfig) : IO Json :=
  let* itemIds := createItems w config publicUrls in
  let* carousel :=
    perform w (IgCreateContainer config
                 [("media_type", JStr "CAROUSEL");
                  ("children", JStr (js_String (JArr itemIds)));
                  ("caption", JStr caption)]) in
  let* carouselId := lift (get carousel "id") in
  let* _ := waitForMediaReady w carouselId (ig_accessToken config) default_maxAttempts in
  publishMedia w carouselId config.

(** [getPublicUrl]: needs [PUBLIC_URL]; the file name is what follows the
    last slash and the last backslash of the path. *)
Definition getPublicUrl (w : World) (filePath : string) : Exc string :=
  if falsy (PUBLIC_URL w)
  then Throw (Error ("Instagram requires PUBLIC_URL environment variable to be set. "
                     +:+ "Set it to your server's public URL "
                     +:+ "(e.g., https://your-app.railway.app) "
                     +:+ "or use ngrok for local testing."))
  else
    let filename := after_last "\" (after_last "/" filePath) in
    Ok (strip_final_slash (default "" (PUBLIC_URL w)) +:+ "/uploads/" +:+ filename).

(** [files.map(f => getPublicUrl(f.path))] *)
Fixpoint getPublicUrls (w : World) (files : list File) : Exc (list string) :=
  match files with
  | [] => Ok []
  | f :: rest =>
      match getPublicUrl w (path f) with
      | Throw e => Throw e
      | Ok url =>
          match getPublicUrls w rest with
          | Throw e => Throw e
          | Ok urls => Ok (url :: urls)
          end
      end
  end.

Definition postToInstagram (w : World) (files : list File) (caption : string)
    (mediaType : MediaType) (userSettings : gmap string string) : IO PlatformResult :=
  try_catch
    (let config := mkInstagramConfig (userSettings !! "instagram_account_id")
                                     (userSettings !! "instagram_access_token") in
     if falsy (accountId config) || falsy (ig_accessToken config)
     then throw (Error "Instagram credentials not configured")
     else
       let* result :=
         match mediaType with
         | video =>
             let* f := lift (first_file files "path") in
             let* publicUrl := lift (getPublicUrl w (path f)) in
             postVideo w publicUrl caption config
         | photo =>
             if (length files =? 1)%nat
             then let* f := lift (first_file files "path") in
                  let* publicUrl := lift (getPublicUrl w (path f)) in
                  postSinglePhoto w publicUrl caption config
             else let* publicUrls := lift (getPublicUrls w files) in
                  postCarousel w publicUrls caption config
         end in
       let* id := lift (get result "id") in
       ret (mkResult true "instagram" (Some id) None None
                     (Some "Successfully posted to Instagram") None))
    (fun error => ret (failure "instagram" (errorMessage error))).

End Instagram.

(** ** database.js: the [scheduled_posts] table

    The table is the list of its rows in insertion order; statements on
    it are total functions (a failing database is not modelled). *)

Inductive Status : Type := pending | processing | completed | partial | failed.

(** The [result] column: the array of platform results, or
    [{ error: message }]. *)
Inductive ResultPayload : Type :=
| Results (results : list PlatformResult)
| ErrorDescription (error : string).

(** A row.  [scheduled_at] is the text [YYYY-MM-DD HH:MM:SS].  The
    bookkeeping columns [created_at] and [updated_at] are left out. *)
Record ScheduledPost : Type := mkPost {
  id : string;
  user_id : string;
  platforms : list string;
  caption : string;
  media_paths : list string;
  scheduled_at : string;
  status : Status;
  result : option ResultPayload
}.

Module ScheduledPostModel.

Definition is_pending (s : Status) : bool :=
  match s with
  | pending => true
  | _ => false
  end.

(** Comparison of two text values in SQLite: byte by byte, a proper
    prefix first. *)
Definition text_le (a b : string) : Prop := String.leb a b = true.

(** [INSERT INTO scheduled_posts ...]: the row starts with the column
    defaults [status = 'pending'] and [result = NULL]; a second row with
    the same primary key is refused.  (The [users] table, and with it the
    foreign key on [user_id], is not part of the model.) *)
Definition create (id' userId : string) (platforms : list string) (caption : string)
    (mediaPaths : list string) (scheduledAt : string) (db : list ScheduledPost)
    : Exc (list ScheduledPost) :=
  if existsb (fun row => String.eqb (id row) id') db
  then Throw (Error "UNIQUE constraint failed: scheduled_posts.id")
  else Ok (db ++ [mkPost id' userId platforms caption mediaPaths scheduledAt pending None])%list.

(** [WHERE status = 'pending' AND scheduled_at <= datetime('now',
    'localtime') ORDER BY scheduled_at ASC]; [now] is the value of
    [datetime('now', 'localtime')]. *)
Definition due (now : string) (row : ScheduledPost) : bool :=
  is_pending (status row) && String.leb (scheduled_at row) now.

Definition by_scheduled_at (a b : ScheduledPost) : Prop :=
  text_le (scheduled_at a) (scheduled_at b).

#[global] Instance by_scheduled_at_dec : RelDecision by_scheduled_at :=
  fun a b => decide (String.leb (scheduled_at a) (scheduled_at b) = true).

Definition getPending (now : string) (db : list ScheduledPost) : list ScheduledPost :=
  merge_sort by_scheduled_at (List.filter (due now) db).

Definition findById (id' : string) (db : list ScheduledPost) : option ScheduledPost :=
  List.find (fun row => String.eqb (id row) id') db.

(** [UPDATE scheduled_posts SET status = ?, result = ? WHERE id = ?] *)
Definition updateStatus (id' : string) (status : Status) (result : option ResultPayload)
    (db : list ScheduledPost) : list ScheduledPost :=
  map (fun row =>
         if String.eqb (id row) id'
         then mkPost (id row) (user_id row) (platforms row) (caption row)
                     (media_paths row) (scheduled_at row) status result
         else row) db.

(** [DELETE FROM scheduled_posts WHERE id = ?] *)
Definition delete (id' : string) (db : list ScheduledPost) : list ScheduledPost :=
  List.filter (fun row => negb (String.eqb (id row) id')) db.

End ScheduledPostModel.

(** ** scheduler.js *)
Module Scheduler.

(** The extension table of [getMimeType]. *)
Definition mimeTypes : list (string * string) :=
  [ (".jpg", "image/jpeg"); (".jpeg", "image/jpeg"); (".png", "image/png");
    (".gif", "image/gif"); (".webp", "image/webp"); (".mp4", "video/mp4");
    (".mov", "video/quicktime"); (".avi", "video/x-msvideo"); (".webm", "video/webm") ].

Fixpoint table_lookup (ext : string) (table : list (string * string)) : option string :=
  match table with
  | [] => None
  | (k, v) :: rest => if String.eqb ext k then Some v else table_lookup ext rest
  end.

Definition getMimeType (w : World) (filePath : string) : string :=
  let ext := toLowerCase w (extname w filePath) in
  default "application/octet-stream" (table_lookup ext mimeTypes).

(** The two nested [Object.keys(...).forEach] loops that build
    [userSettings[`${platform}_${key}`]]. *)
Definition flatten (allSettings : AllSettings) : gmap string string :=
  foldl (fun userSettings entry =>
           foldl (fun userSettings field =>
                    <[fst entry +:+ "_" +:+ fst field := snd field]> userSettings)
                 userSettings (snd entry))
        ∅ allSettings.

(** What [processScheduledPost] returns: [{ success: true, results }] or
    [{ success: false, error }]. *)
Inductive Processed : Type :=
| Posted (results : list PlatformResult)
| NotPosted (error : string).

(** The statements of the [try] block after the first [updateStatus], up
    to the [await postToAllPlatforms(...)]. *)
Definition attempt (w : World) (post : ScheduledPost) : Completion (list PlatformResult) :=
  match getAllForUser w (user_id post) with
  | Throw e => Throws e
  | Ok allSettings =>
      let userSettings := flatten allSettings in
      let files :=
        map (fun filePath =>
               mkFile filePath (getMimeType w filePath) (basename w filePath) None)
            (media_paths post) in
      Uploader.postToAllPlatforms w (platforms post) files (caption post) userSettings
  end.

(** [processScheduledPost]: the table after the call, and how the call
    ends.  When the dispatch never settles, the row stays as the first
    [updateStatus] left it. *)
Definition processScheduledPost (w : World) (post : ScheduledPost)
    (db : list ScheduledPost) : Completion Processed * list ScheduledPost :=
  let db := ScheduledPostModel.updateStatus (id post) processing None db in
  match attempt w post with
  | Returns results =>
      let allSuccess := forallb success results in
      let status := if allSuccess then completed else partial in
      (Returns (Posted results),
       ScheduledPostModel.updateStatus (id post) status (Some (Results results)) db)
  | Throws error =>
      (Returns (NotPosted (message error)),
       ScheduledPostModel.updateStatus (id post) failed
         (Some (ErrorDescription (message error))) db)
  | Pending => (Pending, db)
  end.

(** The [for (const post of pendingPosts) await processScheduledPost(post)]
    loop. *)
Fixpoint processEach (w : World) (pendingPosts : list ScheduledPost)
    (db : list ScheduledPost) : Completion unit * list ScheduledPost :=
  match pendingPosts with
  | [] => (Returns tt, db)
  | post :: rest =>
      match processScheduledPost w post db with
      | (Returns _, db') => processEach w rest db'
      | (Throws e, db') => (Throws e, db')
      | (Pending, db') => (Pending, db')
      end
  end.

(** [runSchedulerTick]; [now] is the local time the query reads. *)
Definition runSchedulerTick (w : World) (now : string) (db : list ScheduledPost)
    : Completion unit * list ScheduledPost :=
  let pendingPosts := ScheduledPostModel.getPending now db in
  match processEach w pendingPosts db with
  | (Throws _, db') => (Returns tt, db')
  | outcome => outcome
  end.

(** Ticks that run one after the other, each at its own time. *)
Fixpoint runTicks (w : World) (times : list string) (db : list ScheduledPost)
    : Completion unit * list ScheduledPost :=
  match times with
  | [] => (Returns tt, db)
  | now :: later =>
      match runSchedulerTick w now db with
      | (Returns _, db') => runTicks w later db'
      | outcome => outcome
      end
  end.

End Scheduler.

(** ** scheduler.js: the ticks on their timer

    [startScheduler] calls [runSchedulerTick()] once and hands it to
    [setInterval]; neither call is awaited.  A tick runs until it awaits
    a dispatch that waits for an answer from outside, and the timer may
    start the next tick before that dispatch has settled.  A dispatch
    that waits for nothing settles before any timer can fire. *)
Module Timer.

(** [fs.statSync] and [fs.readFileSync] return at once; every other
    call is awaited. *)
Definition awaited (c : Call) : bool :=
  match c with
  | FsStat _ | FsReadFile _ => false
  | _ => true
  end.

(** The calls of the adapters that [processScheduledPost] starts for
    [post]. *)
Definition dispatch_calls (w : World) (post : ScheduledPost) : list Call :=
  match getAllForUser w (user_id post) with
  | Throw _ => []
  | Ok allSettings =>
      let userSettings := Scheduler.flatten allSettings in
      let files :=
        map (fun filePath =>
               mkFile filePath (Scheduler.getMimeType w filePath) (basename w filePath) None)
            (media_paths post) in
      match files with
      | [] => []
      | f :: _ =>
          concat
            (map (fun platform =>
                    Uploader.calls_of
                      (Uploader.postingPromise Uploader.imported w files (caption post)
                         (Uploader.mediaTypeOf f) userSettings platform))
                 (platforms post))
      end
  end.

Definition waits (w : World) (post : ScheduledPost) : bool :=
  existsb awaited (dispatch_calls w post).

(** A tick suspended at [await postToAllPlatforms(...)] for [current];
    [remaining] is the rest of the [pendingPosts] it read when it
    started. *)
Record Tick : Type := mkTick {
  current : ScheduledPost;
  remaining : list ScheduledPost
}.

(** The table, the suspended ticks (oldest first), and the ids of the
    posts [processScheduledPost] was called for, in the order of the
    calls. *)
Record Loop : Type := mkLoop {
  table : list ScheduledPost;
  running : list Tick;
  started : list string
}.

(** The statements of [processScheduledPost] after the dispatch has
    settled, on the table as it is then ([None]: it never settles). *)
Definition conclude (w : World) (post : ScheduledPost) (db : list ScheduledPost)
    : option (list ScheduledPost) :=
  match Scheduler.attempt w post with
  | Returns results =>
      let allSuccess := forallb success results in
      let status := if allSuccess then completed else partial in
      Some (ScheduledPostModel.updateStatus (id post) status (Some (Results results)) db)
  | Throws error =>
      Some (ScheduledPostModel.updateStatus (id post) failed
              (Some (ErrorDescription (message error))) db)
  | Pending => None
  end.

(** The [for] loop of a tick from [pendingPosts] on, up to the first
    dispatch that waits. *)
Fixpoint advance (w : World) (pendingPosts : list ScheduledPost)
    (db : list ScheduledPost) (started : list string)
    : option Tick * list ScheduledPost * list string :=
  match pendingPosts with
  | [] => (None, db, started)
  | post :: rest =>
      let db := ScheduledPostModel.updateStatus (id post) processing None db in
      let started := (started ++ [id post])%list in
      if waits w post
      then (Some (mkTick post rest), db, started)
      else match conclude w post db with
           | Some db' => advance w rest db' started
           | None => (Some (mkTick post rest), db, started)
           end
  end.

(** What happens between two turns of the event loop: the timer fires
    (at local time [now]), or the dispatch that the [k]-th suspended tick
    awaits settles. *)
Inductive Event : Type :=
| Fires (now : string)
| Settles (k : nat).

Definition step (w : World) (s : Loop) (e : Event) : Loop :=
  match e with
  | Fires now =>
      let '(tick, db, started) :=
        advance w (ScheduledPostModel.getPending now (table s)) (table s) (started s) in
      mkLoop db (running s ++ option_list tick) started
  | Settles k =>
      match running s !! k with
      | None => s
      | Some tick =>
          match conclude w (current tick) (table s) with
          | None => s
          | Some db =>
              let '(tick', db', started') := advance w (remaining tick) db (started s) in
              mkLoop db' (take k (running s) ++ option_list tick' ++ drop (S k) (running s))
                     started'
          end
      end
  end.

Definition run (w : World) (events : list Event) (s : Loop) : Loop :=
  foldl (step w) s events.

(** The scheduler before its first tick. *)
Definition idle (db : list ScheduledPost) : Loop := mkLoop db [] [].

End Timer.

(** ** routes/scheduled.js *)

(** The part of the disk the routes touch: the paths that exist, and the
    paths whose removal the system refuses. *)
Record Disk : Type := mkDisk {
  present : gset string;
  undeletable : gset string
}.

Record Response : Type := mkResponse {
  http_status : nat;
  body_success : bool;
  body_error : option string;
  body_message : option string;
  body_post : option ScheduledPost
}.

(** A request after the session middleware: the session's user, the route
    parameter, the form fields, and the files of the multipart body. *)
Record Request : Type := mkRequest {
  session_userId : option string;
  params_id : string;
  body_platforms : option (string + list string);
  body_caption : option string;
  body_scheduledAt : option string;
  req_files : list File
}.

Module ScheduledRoute.

Definition existsSync (filePath : string) (disk : Disk) : bool :=
  bool_decide (filePath ∈ present disk).

Definition unlinkSync (filePath : string) (disk : Disk) : Exc Disk :=
  if bool_decide (filePath ∈ undeletable disk)
  then Throw (Error ("EPERM: operation not permitted, unlink '" +:+ filePath +:+ "'"))
  else if bool_decide (filePath ∈ present disk)
  then Ok (mkDisk (present disk ∖ {[filePath]}) (undeletable disk))
  else Throw (Error ("ENOENT: no such file or directory, unlink '" +:+ filePath +:+ "'")).

(** [upload.array('media', 10)] with disk storage: the files of the body
    are on disk at their [path] when the handler starts.  (The folder
    that the storage of this route creates for the user is left out
    here; [ScheduledStorage] below has it.) *)
Definition upload_array (files : list File) (disk : Disk) : Disk :=
  mkDisk (present disk ∪ list_to_set (map path files)) (undeletable disk).

Definition reject (code : nat) (err : string) : Response :=
  mkResponse code false (Some err) None None.

Definition status_text (s : Status) : string :=
  match s with
  | pending => "pending"
  | processing => "processing"
  | completed => "completed"
  | partial => "partial"
  | failed => "failed"
  end.

(** [String(n).padStart(2, '0')] *)
Definition padStart2 (s : string) : string :=
  match String.length s with
  | O => "00"
  | S O => "0" +:+ s
  | _ => s
  end.

(** The [localDateStr] of the handler: [YYYY-MM-DD HH:MM:SS] from the
    local calendar fields. *)
Definition localDateStr (d : LocalFields) : string :=
  pretty (getFullYear d) +:+ "-" +:+
  padStart2 (pretty (getMonth d + 1)) +:+ "-" +:+
  padStart2 (pretty (getDate d)) +:+ " " +:+
  padStart2 (pretty (getHours d)) +:+ ":" +:+
  padStart2 (pretty (getMinutes d)) +:+ ":" +:+
  padStart2 (pretty (getSeconds d)).

(** [!platforms] for the form field: absent, or the empty text. *)
Definition no_platforms (p : option (string + list string)) : bool :=
  match p with
  | None => true
  | Some (inl text) => String.eqb text ""
  | Some (inr _) => false
  end.

(** The handler of [POST /api/scheduled], after [upload.array]: [now] is
    [new Date()], [postId] the fresh [uuidv4()]. *)
Definition post_handler (w : World) (now : Z) (postId : string) (req : Request)
    (userId : string) (db : list ScheduledPost) : Response * list ScheduledPost :=
  let files := req_files req in
  if (length files =? 0)%nat
  then (reject 400 "At least one media file is required", db)
  else if no_platforms (body_platforms req)
  then (reject 400 "At least one platform must be selected", db)
  else if falsy (body_scheduledAt req)
  then (reject 400 "Scheduled time is required", db)
  else
    match Date_parse w (default "" (body_scheduledAt req)) with
    | None => (reject 400 "Invalid scheduled time format", db)
    | Some scheduledDate =>
        if scheduledDate <=? now
        then (reject 400 "Scheduled time must be in the future", db)
        else
          let platformList :=
            match body_platforms req with
            | Some (inl text) => JSON_parse w text
            | Some (inr list) => Ok list
            | None => Ok []
            end in
          match platformList with
          | Throw _ => (reject 500 "Failed to schedule post", db)
          | Ok platformList =>
              let mediaPaths := map path files in
              match ScheduledPostModel.create postId userId platformList
                      (default "" (body_caption req)) mediaPaths
                      (localDateStr (local_fields w scheduledDate)) db with
              | Throw _ => (reject 500 "Failed to schedule post", db)
              | Ok db' =>
                  (mkResponse 201 true None (Some "Post scheduled successfully")
                              (ScheduledPostModel.findById postId db'), db')
              end
          end
    end.

(** [router.post('/', requireAuth, upload.array('media', 10), handler)] *)
Definition router_post (w : World) (now : Z) (postId : string) (req : Request)
    (disk : Disk) (db : list ScheduledPost) : Response * Disk * list ScheduledPost :=
  match session_userId req with
  | None => (reject 401 "Authentication required", disk, db)
  | Some userId =>
      if String.eqb userId ""
      then (reject 401 "Authentication required", disk, db)
      else
        let disk := upload_array (req_files req) disk in
        let '(res, db') := post_handler w now postId req userId db in
        (res, disk, db')
  end.

(** The [forEach] over [media_paths] of the cancel handler: each file is
    removed when it exists; a failed removal is logged and skipped. *)
Definition removeFile (disk : Disk) (filePath : string) : Disk :=
  if existsSync filePath disk
  then match unlinkSync filePath disk with
       | Ok disk' => disk'
       | Throw _ => disk
       end
  else disk.

(** The handler of [DELETE /api/scheduled/:id]. *)
Definition delete_handler (userId postId : string) (disk : Disk)
    (db : list ScheduledPost) : Response * Disk * list ScheduledPost :=
  match ScheduledPostModel.findById postId db with
  | None => (reject 404 "Scheduled post not found", disk, db)
  | Some post =>
      if negb (String.eqb (user_id post) userId)
      then (reject 403 "Not authorized to delete this post", disk, db)
      else if negb (ScheduledPostModel.is_pending (status post))
      then (reject 400 ("Cannot cancel post with status: " +:+ status_text (status post)),
            disk, db)
      else
        let disk' := foldl removeFile disk (media_paths post) in
        let db' := ScheduledPostModel.delete postId db in
        (mkResponse 200 true None (Some "Scheduled post cancelled") None, disk', db')
  end.

(** [router.delete('/:id', requireAuth, handler)] *)
Definition router_delete (req : Request) (disk : Disk) (db : list ScheduledPost)
    : Response * Disk * list ScheduledPost :=
  match session_userId req with
  | None => (reject 401 "Authentication required", disk, db)
  | Some userId =>
      if String.eqb userId ""
      then (reject 401 "Authentication required", disk, db)
      else delete_handler userId (params_id req) disk db
  end.

End ScheduledRoute.

(** ** routes/scheduled.js: the disk storage of the uploads

    [multer.diskStorage] asks [destination] for the folder of each file
    before it writes the file, and [destination] creates the folder of
    the user when it is not there.  [userDir userId] stands for
    [path.join(scheduledUploadsDir, userId)]. *)
Module ScheduledStorage.

(** [fs.mkdirSync(userDir, { recursive: true })] below the uploads
    folder, which exists from the start. *)
Definition mkdirSync (dir : string) (disk : Disk) : Disk :=
  mkDisk (present disk ∪ {[dir]}) (undeletable disk).

Definition destination (userDir : string) (disk : Disk) : Disk :=
  if ScheduledRoute.existsSync userDir disk then disk else mkdirSync userDir disk.

(** One file of the body: its folder, then the file at its [path]. *)
Definition store (userDir : string) (disk : Disk) (file : File) : Disk :=
  let disk := destination userDir disk in
  mkDisk (present disk ∪ {[path file]}) (undeletable disk).

(** [upload.array('media', 10)] with this storage. *)
Definition upload_array (userDir : string) (files : list File) (disk : Disk) : Disk :=
  foldl (store userDir) disk files.

(** [router.post('/', requireAuth, upload.array('media', 10), handler)],
    with the folders the storage creates. *)
Definition router_post (w : World) (userDir : string -> string) (now : Z)
    (postId : string) (req : Request) (disk : Disk) (db : list ScheduledPost)
    : Response * Disk * list ScheduledPost :=
  match session_userId req with
  | None => (ScheduledRoute.reject 401 "Authentication required", disk, db)
  | Some userId =>
      if String.eqb userId ""
      then (ScheduledRoute.reject 401 "Authentication required", disk, db)
      else
        let disk := upload_array (userDir userId) (req_files req) disk in
        let '(res, db') := ScheduledRoute.post_handler w now postId req userId db in
        (res, disk, db')
  end.

End ScheduledStorage.

(** ** Notions used by the statements *)

(** Every promise launched in a batch settles, each exactly once. *)
Definition every_promise_settles (w : World) : Prop :=
  forall n, Permutation (settle_order w n) (seq 0 n).

(** The same world with another order of completion. *)
Definition with_settle_order (order : nat -> list nat) (w : World) : World :=
  mkWorld (respond w) order (toLowerCase w) (getAllForUser w) (extname w) (basename w)
          (PUBLIC_URL w) (Date_parse w) (local_fields w) (JSON_parse w).

(** The adapter names the dispatcher knows, as the [switch] spells them. *)
Definition knownPlatforms : list string :=
  ["facebook"; "telegram"; "tiktok"; "instagram"; "youtube"].

Definition isKnown (w : World) (platform : string) : bool :=
  existsb (String.eqb (toLowerCase w platform)) knownPlatforms.

(** The settings keys a platform requires, as the [GET /api/post/status]
    route tests them: a platform is configured when each is non-empty. *)
Definition requiredKeys (name : string) : list string :=
  if String.eqb name "facebook" then ["facebook_page_id"; "facebook_access_token"]
  else if String.eqb name "telegram" then ["telegram_bot_token"; "telegram_chat_id"]
  else if String.eqb name "tiktok" then ["tiktok_access_token"; "tiktok_open_id"]
  else if String.eqb name "instagram" then ["instagram_account_id"; "instagram_access_token"]
  else if String.eqb name "youtube" then
    ["youtube_client_id"; "youtube_client_secret"; "youtube_refresh_token"]
  else [].

Definition configured (name : string) (userSettings : gmap string string) : bool :=
  forallb (fun key => negb (falsy (userSettings !! key))) (requiredKeys name).

(** The error an adapter name answers with when its credentials are
    incomplete, for media of the given kind. *)
Definition unconfiguredError (name : string) (mediaType : MediaType) : string :=
  if String.eqb name "facebook" then "Facebook credentials not configured"
  else if String.eqb name "telegram" then "Telegram credentials not configured"
  else if String.eqb name "tiktok" then
    match mediaType with
    | video => "TikTok credentials not configured"
    | photo => "TikTok only supports video uploads"
    end
  else if String.eqb name "instagram" then "Instagram integration coming soon"
  else "YouTube integration coming soon".

(** How the promise of one requested platform ends, taken on its own. *)
Definition outcome (adapters : Uploader.Adapters) (w : World) (files : list File)
    (caption : string) (userSettings : gmap string string) (platform : string)
    : Uploader.Settled PlatformResult :=
  match files with
  | [] => Uploader.rejected (TypeError_read JUndefined "mimetype")
  | f :: _ =>
      Uploader.settle
        (Uploader.postingPromise adapters w files caption (Uploader.mediaTypeOf f)
                                 userSettings platform)
  end.

(** The entry of the result list for one requested platform: the value
    its promise resolves to, or the failure built from its rejection. *)
Definition entry (adapters : Uploader.Adapters) (w : World) (files : list File)
    (caption : string) (userSettings : gmap string string) (platform : string)
    : PlatformResult :=
  match outcome adapters w files caption userSettings platform with
  | Uploader.fulfilled value => value
  | Uploader.rejected reason =>
      failure platform (or_else (JStr (message reason)) (JStr "Unknown error"))
  end.

(** The status request of a container, and the calls of [k] polls that
    each found the container still in progress. *)
Definition poll (containerId : Json) (accessToken : option string) : Call :=
  IgGetStatus containerId accessToken.

Definition waiting_rounds (k : nat) (containerId : Json) (accessToken : option string)
    : list Call :=
  concat (replicate k [poll containerId accessToken; Sleep 5000]).

Definition is_publish (c : Call) : bool :=
  match c with
  | IgPublish _ _ => true
  | _ => false
  end.

(** A status response that reports ["FINISHED"]. *)
Definition reports_finished (r : Exc Json) : Prop :=
  exists data, r = Ok data /\ get data "status_code" = Ok (JStr "FINISHED").

(** A status response that reports neither ["FINISHED"] nor ["ERROR"]. *)
Definition reports_in_progress (r : Exc Json) : Prop :=
  exists data statusCode,
    r = Ok data /\ get data "status_code" = Ok statusCode
    /\ Instagram.is_string statusCode "FINISHED" = false
    /\ Instagram.is_string statusCode "ERROR" = false.

(** The lifecycle of an intent. *)
Inductive transition : Status -> Status -> Prop :=
| claim : transition pending processing
| finish_completed : transition processing completed
| finish_partial : transition processing partial
| finish_failed : transition processing failed.

Definition terminal (s : Status) : Prop := s = completed \/ s = partial \/ s = failed.

(** Two rows that differ at most in [status] and [result]. *)
Definition same_intent (a b : ScheduledPost) : Prop :=
  id a = id b /\ user_id a = user_id b /\ platforms a = platforms b
  /\ caption a = caption b /\ media_paths a = media_paths b
  /\ scheduled_at a = scheduled_at b.

(** The row [row'] carries the outcome of processing [post]. *)
Definition settled_by (w : World) (post row' : ScheduledPost) : Prop :=
  match Scheduler.attempt w post with
  | Returns results =>
      status row' = (if forallb success results then completed else partial)
      /\ result row' = Some (Results results)
  | Throws e =>
      status row' = failed /\ result row' = Some (ErrorDescription (message e))
  | Pending => False
  end.

(** The table [db'] holds the rows of [db] at the same places, each with
    the same intent, and none of them has been put back to 'pending'. *)
Definition never_back_to_pending (db db' : list ScheduledPost) : Prop :=
  forall i row, db !! i = Some row ->
    exists row', db' !! i = Some row' /\ same_intent row row'
                 /\ (status row' = pending -> row' = row).

(** Calendar fields in the ranges the text format is fixed-width for. *)
Definition well_formed (d : LocalFields) : Prop :=
  1000 <= getFullYear d <= 9999 /\ 0 <= getMonth d <= 11 /\ 1 <= getDate d <= 31
  /\ 0 <= getHours d <= 23 /\ 0 <= getMinutes d <= 59 /\ 0 <= getSeconds d <= 59.

Definition lex (c1 c2 : comparison) : comparison :=
  match c1 with
  | Eq => c2
  | _ => c1
  end.

(** Which of two local instants comes first. *)
Definition chronological (a b : LocalFields) : comparison :=
  lex (getFullYear a ?= getFullYear b)
 (lex (getMonth a ?= getMonth b)
 (lex (getDate a ?= getDate b)
 (lex (getHours a ?= getHours b)
 (lex (getMinutes a ?= getMinutes b)
      (getSeconds a ?= getSeconds b))))).

Definition pad2z (n : Z) : string := ScheduledRoute.padStart2 (pretty n).

Definition same_comparison (c1 c2 : comparison) : bool :=
  match c1, c2 with
  | Eq, Eq | Lt, Lt | Gt, Gt => true
  | _, _ => false
  end.

(** ** Sample inputs *)

(** Lower case of the ASCII letters, other characters unchanged. *)
Definition lower_ascii (c : Ascii.ascii) : Ascii.ascii :=
  let n := Ascii.nat_of_ascii c in
  if ((65 <=? n) && (n <=? 90))%nat then Ascii.ascii_of_nat (n + 32) else c.

Fixpoint lower (s : string) : string :=
  match s with
  | EmptyString => EmptyString
  | String c rest => String (lower_ascii c) (lower rest)
  end.

Definition sample_extname (filePath : string) : string :=
  let name := after_last "/"%char filePath in
  if existsb (Ascii.eqb "."%char) (String.list_ascii_of_string name)
  then "." +:+ after_last "."%char name
  else "".

(** A world where every upstream call succeeds with the same payload,
    promises settle last-launched first, and the settings store holds
    Facebook credentials for every user. *)
Definition sample_world : World :=
  mkWorld (fun _ _ => Ok (JObj [("id", JStr "17"); ("message_id", JNum 5)]))
          (fun n => rev (seq 0 n))
          lower
          (fun _ => Ok [("facebook", [("page_id", "p1"); ("access_token", "t1")])])
          sample_extname
          (after_last "/"%char)
          None
          (fun _ => None)
          (fun _ => mkLocalFields 2030 0 1 0 0 0)
          (fun _ => Ok ["facebook"]).

(** A world whose container status is always ["IN_PROGRESS"]. *)
Definition stalled_world : World :=
  mkWorld (fun _ _ => Ok (JObj [("id", JStr "17"); ("status_code", JStr "IN_PROGRESS")]))
          (fun n => seq 0 n) lower (fun _ => Ok []) sample_extname (after_last "/"%char)
          None (fun _ => None) (fun _ => mkLocalFields 2030 0 1 0 0 0) (fun _ => Ok []).

Definition sample_photo : File := mkFile "/uploads/a.jpg" "image/jpeg" "a.jpg" (Some 1000).

Definition sample_video : File := mkFile "/uploads/v.mp4" "video/mp4" "v.mp4" (Some 5000).

(** A table with one intent that is due at noon of 2025-06-01 and one
    that is due a second later. *)
Definition sample_table : list ScheduledPost :=
  [ mkPost "a" "u1" ["facebook"; "telegram"] "hello" ["/uploads/scheduled/u1/a.jpg"]
           "2025-06-01 12:00:00" pending None;
    mkPost "b" "u1" ["facebook"] "later" ["/uploads/scheduled/u1/b.jpg"]
           "2025-06-01 12:00:01" pending None ].

Definition sample_first : ScheduledPost :=
  mkPost "a" "u1" ["facebook"; "telegram"] "hello" ["/uploads/scheduled/u1/a.jpg"]
         "2025-06-01 12:00:00" pending None.

Definition sample_later : ScheduledPost :=
  mkPost "b" "u1" ["facebook"] "later" ["/uploads/scheduled/u1/b.jpg"]
         "2025-06-01 12:00:01" pending None.

(** The timer fires at 12:00:30 and again at 12:01:30, before the first
    tick's dispatch has settled; then the dispatch of the second tick
    settles. *)
Definition sample_overlap : list Timer.Event :=
  [Timer.Fires "2025-06-01 12:00:30"; Timer.Fires "2025-06-01 12:01:30"; Timer.Settles 1].

(** A disk with the media of the sample table, and requests on it. *)
Definition sample_disk : Disk :=
  mkDisk {[ "/uploads/scheduled/u1/a.jpg"; "/uploads/scheduled/u1/b.jpg" ]} ∅.

Definition cancel_a : Request := mkRequest (Some "u1") "a" None None None [].

(** A submission whose time is already past when it arrives. *)
Definition late_world : World :=
  mkWorld (fun _ _ => Ok JNull) (fun n => seq 0 n) lower (fun _ => Ok [])
          sample_extname (after_last "/"%char) None
          (fun _ => Some 1000) (fun _ => mkLocalFields 2020 0 1 0 0 0)
          (fun _ => Ok ["facebook"]).

Definition late_submission : Request :=
  mkRequest (Some "u1") "" (Some (inr ["facebook"])) (Some "hello")
            (Some "2020-01-01T00:00:00")
            [mkFile "/uploads/scheduled/u1/1-x.jpg" "image/jpeg" "x.jpg" (Some 10)].

(** The folder of a user below the uploads folder of the samples. *)
Definition sample_userDir (userId : string) : string := "/uploads/scheduled/" +:+ userId.

(** An adapter table whose Facebook adapter rejects. *)
Definition faulty : Uploader.Adapters :=
  Uploader.mkAdapters (fun _ _ _ _ _ => throw (Error "socket hang up"))
                      Telegram.postToTelegram TikTok.postToTikTok.

Definition facebook_settings : gmap string string :=
  <["facebook_page_id" := "p1"]> (<["facebook_access_token" := "t1"]> ∅).

(** ** mediaHelper.js: validation and clean-up *)

(** The [upload] part of the configuration. *)
Record UploadConfig : Type := mkUploadConfig {
  maxPhotos : nat;
  maxPhotoSize : Z;
  maxVideoSize : Z;
  allowedImageTypes : list string;
  allowedVideoTypes : list string
}.

(** The [uploadConfig] of routes/post.js. *)
Definition uploadConfig : UploadConfig :=
  mkUploadConfig 10 (10 * 1024 * 1024) (100 * 1024 * 1024)
    ["image/jpeg"; "image/png"; "image/gif"; "image/webp"]
    ["video/mp4"; "video/quicktime"; "video/x-msvideo"].

Module MediaFiles.

(** [list.includes(x)] *)
Definition includes (xs : list string) (x : string) : bool := existsb (String.eqb x) xs.

(** [file.size > limit]; the comparison is false for a missing size. *)
Definition exceeds (size : option Z) (limit : Z) : bool :=
  match size with
  | Some n => limit <? n
  | None => false
  end.

(** The body of the [files.forEach] of [validateMedia]. *)
Definition fileErrors (config : UploadConfig) (file : File) : list string :=
  if MediaHelper.isImage (mimetype file) then
    ((if includes (allowedImageTypes config) (mimetype file) then []
      else ["Unsupported image type: " +:+ mimetype file])
     ++ (if exceeds (size file) (maxPhotoSize config)
         then ["Image " +:+ originalname file +:+ " exceeds maximum size of 10MB"]
         else []))%list
  else if MediaHelper.isVideo (mimetype file) then
    ((if includes (allowedVideoTypes config) (mimetype file) then []
      else ["Unsupported video type: " +:+ mimetype file])
     ++ (if exceeds (size file) (maxVideoSize config)
         then ["Video " +:+ originalname file +:+ " exceeds maximum size of 100MB"]
         else []))%list
  else ["Unsupported file type: " +:+ mimetype file].

Definition validateMedia (files : list File) (config : UploadConfig) : list string :=
  if (length files =? 0)%nat then ["No media files provided"]
  else
    let hasImages := existsb (fun f => MediaHelper.isImage (mimetype f)) files in
    let hasVideos := existsb (fun f => MediaHelper.isVideo (mimetype f)) files in
    if hasImages && hasVideos then ["Cannot mix photos and videos in a single post"]
    else
      ((if hasImages && (maxPhotos config <? length files)%nat
        then ["Maximum " +:+ pretty (maxPhotos config) +:+ " photos allowed"]
        else [])
       ++ (if hasVideos && (1 <? length files)%nat
           then ["Only one video per post is allowed"]
           else [])
       ++ concat (map (fileErrors config) files))%list.

(** [cleanupFiles]: each file is removed when it exists; a removal that
    fails is logged and skipped. *)
Definition cleanupFiles (files : list File) (disk : Disk) : Disk :=
  if (length files =? 0)%nat then disk
  else foldl (fun disk file =>
                if ScheduledRoute.existsSync (path file) disk
                then match ScheduledRoute.unlinkSync (path file) disk with
                     | Ok disk' => disk'
                     | Throw _ => disk
                     end
                else disk) disk files.

End MediaFiles.

(** ** routes/settings.js *)

(** A row of [user_settings]; [settings_json] is kept as the object it
    encodes (field name, value). *)
Record SettingsRow : Type := mkSettingsRow {
  row_id : string;
  row_user : string;
  row_platform : string;
  settings_json : list (string * string)
}.

(** [o[k]] for an object given as the list of its assignments: the last
    assignment to [k] counts. *)
Fixpoint object_get {V} (k : string) (o : list (string * V)) : option V :=
  match o with
  | [] => None
  | (k', v) :: rest =>
      match object_get k rest with
      | Some v' => Some v'
      | None => if String.eqb k k' then Some v else None
      end
  end.

Module SettingsModel.

Definition matches (userId platform : string) (row : SettingsRow) : bool :=
  String.eqb (row_user row) userId && String.eqb (row_platform row) platform.

(** [SELECT platform, settings_json ... WHERE user_id = ?], folded into
    the object [settings[row.platform] = ...]. *)
Definition getAllForUser (userId : string) (table : list SettingsRow) : AllSettings :=
  map (fun row => (row_platform row, settings_json row))
      (List.filter (fun row => String.eqb (row_user row) userId) table).

(** [stmt.get(userId, platform)]: the first matching row, or [null]. *)
Definition getForPlatform (userId platform : string) (table : list SettingsRow)
    : option (list (string * string)) :=
  settings_json <$> List.find (matches userId platform) table.

(** The [DO UPDATE] of [upsert] on one row: the row of the pair gets
    the new object, its id stays. *)
Definition overwrite (userId platform : string) (settingsObj : list (string * string))
    (row : SettingsRow) : SettingsRow :=
  if matches userId platform row
  then mkSettingsRow (row_id row) (row_user row) (row_platform row) settingsObj
  else row.

(** [INSERT ... ON CONFLICT(user_id, platform) DO UPDATE SET settings_json
    = excluded.settings_json]; [users] are the ids of the [users] table.
    A pair that has a row is updated; the id offered is a fresh
    [uuidv4()], and what the engine does when it is also the id of
    another row is not looked at.  Otherwise the insert is refused under
    an id that is taken, and, with [foreign_keys = ON], for a user that
    does not exist. *)
Definition upsert (users : list string) (id' userId platform : string)
    (settingsObj : list (string * string)) (table : list SettingsRow)
    : Exc (list SettingsRow) :=
  if existsb (matches userId platform) table
  then Ok (map (overwrite userId platform settingsObj) table)
  else if existsb (fun row => String.eqb (row_id row) id') table
  then Throw (Error "UNIQUE constraint failed: user_settings.id")
  else if negb (existsb (String.eqb userId) users)
  then Throw (Error "FOREIGN KEY constraint failed")
  else Ok (table ++ [mkSettingsRow id' userId platform settingsObj])%list.

(** [DELETE FROM user_settings WHERE user_id = ? AND platform = ?] *)
Definition delete (userId platform : string) (table : list SettingsRow)
    : list SettingsRow :=
  List.filter (fun row => negb (matches userId platform row)) table.

End SettingsModel.

Module Settings.

Definition platformFields : list (string * list string) :=
  [ ("facebook", ["page_id"; "access_token"]);
    ("telegram", ["bot_token"; "chat_id"]);
    ("tiktok", ["access_token"; "open_id"]);
    ("instagram", ["account_id"; "access_token"]);
    ("youtube", ["client_id"; "client_secret"; "refresh_token"]) ].

(** The two nested [forEach] loops that build [flatSettings]:
    [flatSettings[`${platform}_${field}`] = platformSettings[field] || '']
    with [platformSettings = settings[platform] || {}]. *)
Definition flatSettings (settings : AllSettings) : gmap string string :=
  foldl (fun flat entry =>
           let platformSettings := default [] (object_get (fst entry) settings) in
           foldl (fun flat field =>
                    <[fst entry +:+ "_" +:+ field
                      := default "" (object_get field platformSettings)]> flat)
                 flat (snd entry))
        ∅ platformFields.

(** [getSettings(userId)] *)
Definition getSettings (w : World) (userId : option string) : Exc (gmap string string) :=
  if falsy userId then Ok ∅
  else
    match getAllForUser w (default "" userId) with
    | Throw e => Throw e
    | Ok settings => Ok (flatSettings settings)
    end.



(** The first loop of [POST /api/settings]: the fields of one platform
    that the body defines. *)
Definition supplied (newSettings : gmap string string) (platform : string)
    (fields : list string) : list (string * string) :=
  omap (fun field =>
          match newSettings !! (platform +:+ "_" +:+ field) with
          | Some v => Some (field, v)
          | None => None
          end) fields.

(** [Object.values(settings).some(v => v && v.length > 0)] *)
Definition hasValue (settings : list (string * string)) : bool :=
  existsb (fun field => negb (String.eqb (snd field) "")) settings.

(** The second loop of [POST /api/settings]: one [upsert] per platform
    that has a value, under the fresh id [uuid platform].  A failing
    statement ends the loop; what was saved before it stays saved. *)
Fixpoint saveEach (users : list string) (uuid : string -> string) (userId : string)
    (newSettings : gmap string string) (entries : list (string * list string))
    (table : list SettingsRow) : Exc unit * list SettingsRow :=
  match entries with
  | [] => (Ok tt, table)
  | (platform, fields) :: rest =>
      let settings := supplied newSettings platform fields in
      if hasValue settings
      then match SettingsModel.upsert users (uuid platform) userId platform settings table with
           | Ok table' => saveEach users uuid userId newSettings rest table'
           | Throw e => (Throw e, table)
           end
      else saveEach users uuid userId newSettings rest table
  end.

(** The handler of [POST /api/settings]. *)
Definition save_handler (users : list string) (uuid : string -> string) (userId : string)
    (newSettings : gmap string string) (table : list SettingsRow)
    : Response * list SettingsRow :=
  match saveEach users uuid userId newSettings platformFields table with
  | (Ok _, table') =>
      (mkResponse 200 true None (Some "Settings saved successfully") None, table')
  | (Throw _, table') =>
      (mkResponse 500 false (Some "Failed to save settings") None None, table')
  end.

End Settings.

(** ** routes/post.js *)

Record PostResponse : Type := mkPostResponse {
  post_status : nat;
  post_success : bool;
  post_partialSuccess : option bool;
  post_errors : list string;
  post_error : option string;
  post_results : option (list PlatformResult)
}.

Module PostRoute.

(** [s.split(',')] *)
Fixpoint split_commas (s : string) : list string :=
  match s with
  | EmptyString => [EmptyString]
  | String c rest =>
      if Ascii.eqb c "," then EmptyString :: split_commas rest
      else match split_commas rest with
           | [] => [String c EmptyString]
           | first :: others => String c first :: others
           end
  end.

(** [Array.isArray(platformsRaw) ? platformsRaw :
    platformsRaw?.split(',').map(p => p.trim()) || []]; [trim] is
    [String.prototype.trim]. *)
Definition parsePlatforms (trim : string -> string)
    (platformsRaw : option (string + list string)) : list string :=
  match platformsRaw with
  | Some (inr platforms) => platforms
  | Some (inl text) => map trim (split_commas text)
  | None => []
  end.

Definition refuse (code : nat) (errors : list string) : PostResponse :=
  mkPostResponse code false None errors None None.

(** The handler of [POST /api/post], after [upload.array]. *)
Definition handler (w : World) (trim : string -> string) (req : Request)
    (userId : option string) (disk : Disk) : Completion PostResponse * Disk :=
  let files := req_files req in
  let validationErrors := MediaFiles.validateMedia files uploadConfig in
  if (0 <? length validationErrors)%nat
  then (Returns (refuse 400 validationErrors), MediaFiles.cleanupFiles files disk)
  else
    let platforms := parsePlatforms trim (body_platforms req) in
    if (length platforms =? 0)%nat
    then (Returns (refuse 400 ["At least one platform must be selected"]),
          MediaFiles.cleanupFiles files disk)
    else
      let caption := default "" (body_caption req) in
      match Settings.getSettings w userId with
      | Throw error =>
          (Returns (mkPostResponse 500 false None [] (Some (message error)) None),
           MediaFiles.cleanupFiles files disk)
      | Ok userSettings =>
          match Uploader.postToAllPlatforms w platforms files caption userSettings with
          | Pending => (Pending, disk)
          | Throws error =>
              (Returns (mkPostResponse 500 false None [] (Some (message error)) None),
               MediaFiles.cleanupFiles files disk)
          | Returns results =>
              let allSuccess := forallb success results in
              let anySuccess := existsb success results in
              (Returns (mkPostResponse (if anySuccess then 200 else 500) allSuccess
                          (Some (anySuccess && negb allSuccess)) [] None (Some results)),
               MediaFiles.cleanupFiles files disk)
          end
      end.

(** [router.post('/', requireAuth, upload.array('media', maxPhotos), handler)] *)
Definition router_post (w : World) (trim : string -> string) (req : Request)
    (disk : Disk) : Completion PostResponse * Disk :=
  if falsy (session_userId req)
  then (Returns (mkPostResponse 401 false None [] (Some "Authentication required") None),
        disk)
  else handler w trim req (session_userId req)
               (ScheduledRoute.upload_array (req_files req) disk).

End PostRoute.

(** ** routes/auth.js and the [users] table

    Strings are taken over one-byte characters, so that [length] is the
    [length] of the text. *)

(** A row of [users]; the bookkeeping columns are left out. *)
Record UserRow : Type := mkUser {
  usr_id : string;
  usr_email : string;
  password_hash : string
}.

Module UserModel.

(** [INSERT INTO users (id, email, password_hash)]: refused under an id
    or an email that is taken ([PRIMARY KEY], [UNIQUE]). *)
Definition create (id' email passwordHash : string) (users : list UserRow)
    : Exc (list UserRow) :=
  if existsb (fun u => String.eqb (usr_id u) id') users
  then Throw (Error "UNIQUE constraint failed: users.id")
  else if existsb (fun u => String.eqb (usr_email u) email) users
  then Throw (Error "UNIQUE constraint failed: users.email")
  else Ok (users ++ [mkUser id' email passwordHash])%list.

Definition findByEmail (email : string) (users : list UserRow) : option UserRow :=
  List.find (fun u => String.eqb (usr_email u) email) users.

Definition findById (id' : string) (users : list UserRow) : option UserRow :=
  List.find (fun u => String.eqb (usr_id u) id') users.

End UserModel.

(** [req.session]: the two fields the routes set. *)
Record Session : Type := mkSession {
  sess_userId : option string;
  sess_email : option string
}.

(** [req.body] of the two forms. *)
Record Credentials : Type := mkCredentials {
  cred_email : option string;
  cred_password : option string
}.

Record AuthResponse : Type := mkAuthResponse {
  auth_status : nat;
  auth_success : bool;
  auth_error : option string;
  auth_message : option string;
  auth_user : option (string * string)
}.

Module AuthRoute.

Definition refuse (code : nat) (err : string) : AuthResponse :=
  mkAuthResponse code false (Some err) None None.

(** The handler of [POST /api/auth/register]: [emailRegex_test] is
    [emailRegex.test], [passwordHash] the hash [bcrypt.hash] gives in
    this call, [userId] the fresh [uuidv4()]. *)
Definition register (w : World) (emailRegex_test : string -> bool)
    (passwordHash userId : string) (body : Credentials) (session : Session)
    (users : list UserRow) : AuthResponse * Session * list UserRow :=
  if falsy (cred_email body) || falsy (cred_password body)
  then (refuse 400 "Email and password are required", session, users)
  else
    let email := default "" (cred_email body) in
    let password := default "" (cred_password body) in
    if negb (emailRegex_test email)
    then (refuse 400 "Invalid email format", session, users)
    else if (String.length password <? 6)%nat
    then (refuse 400 "Password must be at least 6 characters", session, users)
    else
      match UserModel.findByEmail (toLowerCase w email) users with
      | Some _ =>
          (refuse 409 "An account with this email already exists", session, users)
      | None =>
          match UserModel.create userId (toLowerCase w email) passwordHash users with
          | Throw _ => (refuse 500 "Failed to create account", session, users)
          | Ok users' =>
              (mkAuthResponse 201 true None (Some "Account created successfully")
                 (Some (userId, toLowerCase w email)),
               mkSession (Some userId) (Some (toLowerCase w email)), users')
          end
      end.

(** The handler of [POST /api/auth/login]: [compare] is [bcrypt.compare]. *)
Definition login (w : World) (compare : string -> string -> bool)
    (body : Credentials) (session : Session) (users : list UserRow)
    : AuthResponse * Session :=
  if falsy (cred_email body) || falsy (cred_password body)
  then (refuse 400 "Email and password are required", session)
  else
    let email := default "" (cred_email body) in
    let password := default "" (cred_password body) in
    match UserModel.findByEmail (toLowerCase w email) users with
    | None => (refuse 401 "Invalid email or password", session)
    | Some user =>
        if negb (compare password (password_hash user))
        then (refuse 401 "Invalid email or password", session)
        else (mkAuthResponse 200 true None (Some "Logged in successfully")
                (Some (usr_id user, usr_email user)),
              mkSession (Some (usr_id user)) (Some (usr_email user)))
    end.

(** The handler of [GET /api/auth/me]. *)
Definition me (session : Session) (users : list UserRow) : AuthResponse :=
  if falsy (sess_userId session) then refuse 401 "Not authenticated"
  else
    match UserModel.findById (default "" (sess_userId session)) users with
    | None => refuse 401 "User not found"
    | Some user =>
        mkAuthResponse 200 true None None (Some (usr_id user, usr_email user))
    end.

(** [requireAuth] and [getCurrentUserId] of the middleware. *)
Definition requireAuth (session : Session) : bool := negb (falsy (sess_userId session)).

Definition getCurrentUserId (session : Session) : option string :=
  if falsy (sess_userId session) then None else sess_userId session.

End AuthRoute.

(** ** Notions used by the further statements *)

(** A photo, respectively a video, that [validateMedia] has nothing to
    say against. *)
Definition image_ok (config : UploadConfig) (f : File) : Prop :=
  MediaHelper.isImage (mimetype f) = true
  /\ mimetype f ∈ allowedImageTypes config
  /\ forall n, size f = Some n -> n <= maxPhotoSize config.

Definition video_ok (config : UploadConfig) (f : File) : Prop :=
  MediaHelper.isVideo (mimetype f) = true
  /\ mimetype f ∈ allowedVideoTypes config
  /\ forall n, size f = Some n -> n <= maxVideoSize config.

(** The keys of the flat settings object. *)
Definition flatKeys : list string :=
  concat (map (fun entry => map (fun field => fst entry +:+ "_" +:+ field) (snd entry))
              Settings.platformFields).

(** The constraint [UNIQUE(user_id, platform)] of [user_settings]. *)
Definition settings_key (row : SettingsRow) : string * string :=
  (row_user row, row_platform row).

Definition unique_settings (table : list SettingsRow) : Prop :=
  NoDup (map settings_key table).

(** The other two constraints of the table: the primary key, and the
    foreign key into [users]. *)
Definition unique_ids_settings (table : list SettingsRow) : Prop :=
  NoDup (map row_id table).

Definition users_exist (users : list string) (table : list SettingsRow) : Prop :=
  Forall (fun row => row_user row ∈ users) table.

(** Ids for the samples. *)
Definition sample_uuid (platform : string) : string := "id-" +:+ platform.

(** A settings form that changes the Facebook page and blanks Telegram. *)
Definition sample_form : gmap string string :=
  <["facebook_page_id" := "p9"]>
    (<["telegram_bot_token" := EmptyString]> (<["telegram_chat_id" := EmptyString]> ∅)).

(** Two settings objects that no adapter can tell apart: each key of the
    flat format is either blank or missing in both, or has the same value
    in both. *)
Definition same_credentials (s1 s2 : gmap string string) : Prop :=
  forall key, key ∈ flatKeys -> default "" (s1 !! key) = default "" (s2 !! key).

(** The assignments [userSettings[`${platform}_${key}`] = value] of the
    scheduler's flattening, in the order it makes them. *)
Definition flat_assignments (allSettings : AllSettings) : list (string * string) :=
  concat (map (fun entry =>
                 map (fun field => (fst entry +:+ "_" +:+ fst field, snd field))
                     (snd entry))
              allSettings).

(** The platform names the settings route stores rows under. *)
Definition stored_platforms_known (allSettings : AllSettings) : Prop :=
  Forall (fun entry => fst entry ∈ map fst Settings.platformFields) allSettings.

(** How the upload of one photo of an album ends, [before] being the
    photos of the album ahead of it. *)
Definition upload_outcome (w : World) (config : FacebookConfig) (log : list Call)
    (before : list File) (f : File) : Exc Json :=
  fst (Facebook.uploadUnpublishedPhoto w (path f) config
         (log ++ map (fun f' => FbUploadUnpublished config (path f')) before)%list).

(** The calls that hand the media over to a platform: the last call of
    each way an adapter can post. *)
Definition delivers (c : Call) : bool :=
  match c with
  | FbPostPhoto _ _ _ | FbPostFeed _ _ _ | FbPostVideo _ _ _
  | TgSendPhoto _ _ _ | TgSendMediaGroup _ _ _ | TgSendVideo _ _ _
  | TkUploadChunk _ _ _ => true
  | _ => false
  end.

(** The three things the run of an adapter is described by: its result
    is the failure record of the adapter; its calls ended with a
    delivering call that the platform answered with [payload]; one of
    its calls was answered with a thrown error.  [log] holds the calls
    made before the run, [calls] the calls of the run. *)
Definition caught (name : string) (r : PlatformResult) : Prop :=
  exists err, r = failure name err.

Definition delivered (w : World) (log calls : list Call) (payload : Json) : Prop :=
  exists before c,
    calls = (before ++ [c])%list /\ delivers c = true
    /\ respond w (log ++ before)%list c = Ok payload.

Definition thrown_at (w : World) (log calls : list Call) : Prop :=
  exists i c e,
    calls !! i = Some c /\ respond w (log ++ take i calls)%list c = Throw e.

(** What [upload.array] with its [limits] lets through to a handler: at
    most [maxCount] files, none above [fileSize] bytes.  A body beyond
    that is answered by the upload middleware and the error handler of
    the application, and no route handler is reached. *)
Definition multer_accepts (maxCount : nat) (fileSize : Z) (files : list File) : Prop :=
  (length files <= maxCount)%nat
  /\ Forall (fun f => forall n, size f = Some n -> n <= fileSize) files.

(** The constraints of [users]: [PRIMARY KEY] and [UNIQUE] email. *)
Definition users_well_formed (users : list UserRow) : Prop :=
  NoDup (map usr_id users) /\ NoDup (map usr_email users).

(** A users table, a hash and a comparison for the samples. *)
Definition sample_users : list UserRow := [mkUser "u1" "ann@example.org" "#secret1"].

Definition sample_compare (password passwordHash : string) : bool :=
  String.eqb ("#" +:+ password) passwordHash.

(** Removal of the blanks at both ends, for the samples. *)
Fixpoint trim_start (s : string) : string :=
  match s with
  | String " " rest => trim_start rest
  | _ => s
  end.

Definition sample_trim (s : string) : string :=
  String.rev (trim_start (String.rev (trim_start s))).

Definition sample_settings_table : list SettingsRow :=
  [ mkSettingsRow "s1" "u1" "facebook" [("page_id", "p1"); ("access_token", "t1")];
    mkSettingsRow "s2" "u2" "telegram" [("bot_token", "b2"); ("chat_id", "")] ].

(** * Properties *)

Local Open Scope list_scope.

(** ** Tasks *)

Lemma bind_Ok {A B} (m : IO A) (k : A -> IO B) log b log' :
  bind m k log = (Ok b, log') ->
  exists a log1, m log = (Ok a, log1) /\ k a log1 = (Ok b, log').
Proof.
  unfold bind. destruct (m log) as [[a|e] log1]; intros H; [eauto | discriminate].
Qed.

(** A [try] whose [catch] returns a value always ends with a value. *)
Lemma try_catch_returns {A} (body : IO A) (h : JsError -> A) log :
  exists a log', try_catch body (fun e => ret (h e)) log = (Ok a, log').
Proof.
  unfold try_catch, ret. destruct (body log) as [[a|e] log']; eauto.
Qed.

Lemma try_catch_cases {A} (body : IO A) (h : JsError -> A) log a log' :
  try_catch body (fun e => ret (h e)) log = (Ok a, log') ->
  body log = (Ok a, log') \/ exists e, body log = (Throw e, log') /\ a = h e.
Proof.
  unfold try_catch, ret. destruct (body log) as [[a0|e] log0]; intros H.
  - left. congruence.
  - right. exists e. split; congruence.
Qed.

(** ** [Promise.allSettled] *)

Section AllSettled.
Context {A : Type} (promises : list (IO A)).

Lemma length_fill order (values : list (option (Uploader.Settled A))) :
  length (Uploader.fill promises values order) = length values.
Proof.
  revert values. induction order as [|i order IH]; intros values; simpl; [done|].
  rewrite IH. destruct (promises !! i); [apply length_insert | done].
Qed.

(** Slot [i] holds the outcome of promise [i] as soon as [i] has settled,
    whatever settled before or after it. *)
Lemma fill_lookup order (values : list (option (Uploader.Settled A))) i :
  length values = length promises ->
  i ∈ order ->
  Uploader.fill promises values order !! i
  = (fun p => Some (Uploader.settle p)) <$> promises !! i.
Proof.
  revert values. induction order as [|j order IH]; intros values Hlen Hin.
  - by apply elem_of_nil in Hin.
  - simpl. destruct (decide (i ∈ order)) as [Hi|Hi].
    + apply IH; [|done]. destruct (promises !! j); [by rewrite length_insert | done].
    + apply elem_of_cons in Hin as [->|]; [|done].
      assert (Hkeep : forall vs : list (option (Uploader.Settled A)),
                 Uploader.fill promises vs order !! j = vs !! j).
      { clear -Hi. induction order as [|k order IH]; intros vs; simpl; [done|].
        apply not_elem_of_cons in Hi as [Hne Hi]. rewrite IH by done.
        destruct (promises !! k); [by apply list_lookup_insert_ne | done]. }
      rewrite Hkeep. destruct (promises !! j) as [p|] eqn:Hp; simpl.
      * apply list_lookup_insert_eq. rewrite Hlen. by eapply lookup_lt_Some.
      * apply lookup_ge_None. rewrite Hlen. by apply lookup_ge_None.
Qed.

(** Whatever the order of completion, the combined promise resolves with
    the outcomes in input order. *)
Lemma allSettled_input_order order :
  Permutation order (seq 0 (length promises)) ->
  Uploader.allSettled order promises = Some (map Uploader.settle promises).
Proof.
  intros Hperm. unfold Uploader.allSettled.
  assert (Hslots : Uploader.fill promises (replicate (length promises) None) order
                   = map (fun p => Some (Uploader.settle p)) promises).
  { apply list_eq. intros i. rewrite list_lookup_fmap.
    destruct (decide (i < length promises)%nat) as [Hlt|Hge].
    - apply fill_lookup; [apply length_replicate|].
      rewrite Hperm. apply elem_of_seq. lia.
    - rewrite (proj2 (lookup_ge_None _ _)).
      + by rewrite (proj2 (lookup_ge_None promises i)) by lia.
      + rewrite length_fill, length_replicate. lia. }
  rewrite Hslots. clear. induction promises as [|p ps IH]; [done|].
  simpl. rewrite IH. done.
Qed.

End AllSettled.

(** ** The adapters settle with a result *)

Ltac io_inv :=
  repeat match goal with
    | H : bind _ _ _ = (Ok _, _) |- _ =>
        let a := fresh "a" in let l := fresh "log" in let Ha := fresh "Hrun" in
        apply bind_Ok in H as (a & l & Ha & H)
    | H : ret _ _ = (Ok _, _) |- _ => unfold ret in H; simplify_eq
    | H : throw _ _ = (Ok _, _) |- _ => discriminate H
    | H : (if ?c then _ else _) _ = (Ok _, _) |- _ => destruct c
    | H : (match ?x with video => _ | photo => _ end) _ = (Ok _, _) |- _ => destruct x
    end.

Ltac run_try :=
  unfold try_catch;
  match goal with
  | |- context [match ?body ?log with _ => _ end] =>
      let r := fresh "r" in let e := fresh "e" in
      let log' := fresh "log'" in let Hbody := fresh "Hbody" in
      destruct (body log) as [[r|e] log'] eqn:Hbody;
      [ exists r, log' | eexists _, _ ]
  end.

Lemma postToFacebook_resolves w files caption mediaType userSettings log :
  exists r log',
    Facebook.postToFacebook w files caption mediaType userSettings log = (Ok r, log')
    /\ platform r = "facebook".
Proof.
  unfold Facebook.postToFacebook. run_try.
  - split; [done|]. cbv zeta in Hbody. io_inv; done.
  - split; [reflexivity | done].
Qed.

Lemma postToTelegram_resolves w files caption mediaType userSettings log :
  exists r log',
    Telegram.postToTelegram w files caption mediaType userSettings log = (Ok r, log')
    /\ platform r = "telegram".
Proof.
  unfold Telegram.postToTelegram. run_try.
  - split; [done|]. cbv zeta in Hbody. io_inv; done.
  - split; [reflexivity | done].
Qed.

Lemma postToInstagram_resolves w files caption mediaType userSettings log :
  exists r log',
    Instagram.postToInstagram w files caption mediaType userSettings log = (Ok r, log')
    /\ platform r = "instagram".
Proof.
  unfold Instagram.postToInstagram. run_try.
  - split; [done|]. cbv zeta in Hbody. io_inv; done.
  - split; [reflexivity | done].
Qed.

Lemma postToTikTok_resolves w files caption mediaType userSettings log :
  exists r log',
    TikTok.postToTikTok w files caption mediaType userSettings log = (Ok r, log')
    /\ platform r = "tiktok".
Proof.
  unfold TikTok.postToTikTok. run_try.
  - split; [done|]. cbv zeta in Hbody. io_inv; done.
  - split; [reflexivity | done].
Qed.

(** ** What an adapter resolves with

    The calls of an album, and then for each adapter the result of a
    run in terms of its calls: a failure record, or the success record
    built from the answer to the delivering call. *)

Lemma credentials_falsy a b :
  negb (falsy a) && (negb (falsy b) && true) = false -> falsy a || falsy b = true.
Proof. destruct (falsy a), (falsy b); simpl; congruence. Qed.

Lemma uploadUnpublishedPhoto_log w filePath config log :
  snd (Facebook.uploadUnpublishedPhoto w filePath config log)
  = log ++ [FbUploadUnpublished config filePath].
Proof.
  unfold Facebook.uploadUnpublishedPhoto, bind, perform, lift.
  by destruct (respond w log _).
Qed.

Lemma Promise_all_uploads w config files : forall log,
  snd (Facebook.Promise_all
         (map (fun file => Facebook.uploadUnpublishedPhoto w (path file) config) files)
         log)
  = log ++ map (fun f => FbUploadUnpublished config (path f)) files
  /\ match fst (Facebook.Promise_all
                  (map (fun file => Facebook.uploadUnpublishedPhoto w (path file) config)
                       files) log) with
     | Ok mediaIds =>
         length mediaIds = length files
         /\ forall i f, files !! i = Some f ->
              exists id', mediaIds !! i = Some id'
                          /\ upload_outcome w config log (take i files) f = Ok id'
     | Throw e =>
         exists i f,
           files !! i = Some f
           /\ upload_outcome w config log (take i files) f = Throw e
           /\ forall j f', (j < i)%nat -> files !! j = Some f' ->
                exists id', upload_outcome w config log (take j files) f' = Ok id'
     end.
Proof.
  induction files as [|f files IH]; intros log.
  { simpl. unfold ret. simpl. rewrite app_nil_r. split; [done|]. split; [done|].
    intros i f Hf. by rewrite lookup_nil in Hf. }
  assert (forall before f',
            upload_outcome w config (log ++ [FbUploadUnpublished config (path f)])
              before f'
            = upload_outcome w config log (f :: before) f') as Hshift.
  { intros before f'. unfold upload_outcome. by rewrite <- app_assoc. }
  cbn [map Facebook.Promise_all].
  pose proof (uploadUnpublishedPhoto_log w (path f) config log) as Hlog.
  assert (fst (Facebook.uploadUnpublishedPhoto w (path f) config log)
          = upload_outcome w config log [] f) as Hfirst.
  { unfold upload_outcome. simpl. by rewrite app_nil_r. }
  destruct (Facebook.uploadUnpublishedPhoto w (path f) config log) as [[a|e] log1].
  - simpl in Hlog, Hfirst. subst log1.
    destruct (IH (log ++ [FbUploadUnpublished config (path f)])) as [Hcalls Hvalues].
    destruct (Facebook.Promise_all _ (log ++ [FbUploadUnpublished config (path f)]))
      as [[vs|e] log2]; simpl in Hcalls, Hvalues |- *.
    + split; [by rewrite Hcalls, <- app_assoc|].
      destruct Hvalues as [Hlen Hids]. split; [by rewrite Hlen|].
      intros [|i] f' Hf'; simpl in Hf'.
      * injection Hf' as <-. exists a. split; [done|]. exact (eq_sym Hfirst).
      * destruct (Hids i f' Hf') as (id' & Hid & Hout).
        exists id'. split; [done|]. cbn [take]. by rewrite <- Hshift.
    + split; [by rewrite Hcalls, <- app_assoc|].
      destruct Hvalues as (i & f' & Hf' & Hout & Hbefore).
      exists (S i), f'. split; [done|]. split; [cbn [take]; by rewrite <- Hshift|].
      intros [|j] f'' Hj Hf''; simpl in Hf''.
      * injection Hf'' as <-. exists a. exact (eq_sym Hfirst).
      * destruct (Hbefore j f'') as [id' Hid]; [lia | done |].
        exists id'. cbn [take]. by rewrite <- Hshift.
  - simpl in Hlog, Hfirst. subst log1.
    destruct (IH (log ++ [FbUploadUnpublished config (path f)])) as [Hcalls _].
    simpl. split; [by rewrite Hcalls, <- app_assoc|].
    exists 0%nat, f. split; [done|]. split; [exact (eq_sym Hfirst)|].
    intros j f' Hj. lia.
Qed.

Lemma postMultiplePhotos_run w files caption config log :
  Facebook.postMultiplePhotos w files caption config log
  = match Facebook.Promise_all
            (map (fun file => Facebook.uploadUnpublishedPhoto w (path file) config)
                 files) log with
    | (Ok mediaIds, log1) =>
        (respond w log1 (FbPostFeed config caption mediaIds),
         log1 ++ [FbPostFeed config caption mediaIds])
    | (Throw e, log1) => (Throw e, log1)
    end.
Proof.
  unfold Facebook.postMultiplePhotos, bind, perform, ret.
  destruct (Facebook.Promise_all _ log) as [[mediaIds|e] log1]; [|done].
  by destruct (respond w log1 _).
Qed.

Ltac calls_since log L :=
  lazymatch L with
  | log => constr:(@nil Call)
  | (?L' ++ [?c])%list => let cs := calls_since log L' in constr:((cs ++ [c])%list)
  end.

Ltac subst_but log :=
  repeat match goal with
    | H : (_, _) = (_, _) |- _ => injection H as ? ?
    | H : Ok _ = Ok _ |- _ => injection H as ?
    | H : Throw _ = Throw _ |- _ => injection H as ?
    | H : Ok _ = Throw _ |- _ => discriminate H
    | H : Throw _ = Ok _ |- _ => discriminate H
    | H : ?x = _ |- _ => is_var x; tryif constr_eq x log then fail else subst x
    | H : _ = ?x |- _ => is_var x; tryif constr_eq x log then fail else subst x
    end.


Lemma thrown_at_nil w log : ~ thrown_at w log [].
Proof. intros (i & c & e & Hc & _). by rewrite lookup_nil in Hc. Qed.

Lemma thrown_at_snoc w log calls c :
  thrown_at w log (calls ++ [c]) ->
  thrown_at w log calls \/ exists e, respond w (log ++ calls) c = Throw e.
Proof.
  intros (i & c' & e & Hc & Hthrow).
  destruct (decide (i < length calls)%nat) as [Hlt|Hge].
  - left. exists i, c', e. rewrite lookup_app_l in Hc by done. split; [done|].
    by rewrite take_app_le in Hthrow by lia.
  - right. exists e. rewrite lookup_app_r in Hc by lia.
    apply list_lookup_singleton_Some in Hc as [Hi <-].
    rewrite take_app_ge in Hthrow by lia.
    replace (i - length calls)%nat with 0%nat in Hthrow by lia.
    by rewrite take_0, app_nil_r in Hthrow.
Qed.


Ltac same_log :=
  repeat match goal with
    | H : context [(_ ++ [])%list] |- _ => rewrite app_nil_r in H
    | H : context [((_ ++ _) ++ _)%list] |- _ => rewrite <- app_assoc in H
    | H : context [([] ++ _)%list] |- _ => rewrite app_nil_l in H
    end;
  rewrite ?app_nil_r, <- ?app_assoc, ?app_nil_l.

(** A run all of whose calls were answered has no thrown call. *)
Ltac all_answered H :=
  exfalso;
  repeat (apply thrown_at_snoc in H as [H|[? H]]);
  first [ by apply thrown_at_nil in H | same_log; simpl in *; congruence ].

(** The last call of the run is the delivering one. *)
Ltac final_call :=
  lazymatch goal with
  | |- delivered _ _ (?cs ++ [?c])%list _ =>
      exists cs, c; split; [reflexivity|]; split; [reflexivity|];
      same_log; simpl in *; first [ eassumption | congruence ]
  end.

Lemma postToTelegram_outcome w files caption mediaType userSettings log r log' :
  Telegram.postToTelegram w files caption mediaType userSettings log = (Ok r, log') ->
  exists calls,
    log' = log ++ calls
    /\ (caught "telegram" r
        \/ exists payload messageId,
             delivered w log calls payload
             /\ Telegram.message_id_of payload = Ok messageId
             /\ r = mkResult true "telegram" None (Some messageId) None
                      (Some "Successfully posted to Telegram") None)
    /\ (thrown_at w log calls -> caught "telegram" r)
    /\ (configured "telegram" userSettings = false ->
        calls = [] /\ r = failure "telegram" (JStr (unconfiguredError "telegram" mediaType))).
Proof.
  unfold Telegram.postToTelegram, Telegram.postVideo, Telegram.postSinglePhoto,
    Telegram.postMultiplePhotos, try_catch, bind, lift, first_file, perform, ret, throw.
  intros Hrun. revert Hrun.
  repeat case_match; subst_but log; intros Hrun; subst_but log.
  all: match goal with
       | |- exists calls, ?L = _ /\ _ => let cs := calls_since log L in exists cs
       end.
  all: (split; [rewrite <- ?app_assoc; simpl; by rewrite ?app_nil_r|]).
  all: (split; [|split]).
  all: try (left; eexists; reflexivity).
  all: try (intros _; eexists; reflexivity).
  all: try (right; eexists _, _; split; [final_call|split; [eassumption|reflexivity]]).
  all: try (intros Hthrown; all_answered Hthrown).
  all: intros Hconf; unfold configured, requiredKeys in Hconf; simpl in Hconf;
    apply credentials_falsy in Hconf; simpl in *; try congruence.
  all: try done.
Qed.

Lemma postToTikTok_outcome w files caption mediaType userSettings log r log' :
  files <> [] ->
  TikTok.postToTikTok w files caption mediaType userSettings log = (Ok r, log') ->
  exists calls,
    log' = log ++ calls
    /\ (caught "tiktok" r
        \/ exists payload publishId,
             delivered w log calls payload
             /\ r = mkResult true "tiktok" None None (Some publishId)
                      (Some "Video uploaded to TikTok (check your drafts)") None)
    /\ (thrown_at w log calls -> caught "tiktok" r)
    /\ (configured "tiktok" userSettings = false ->
        calls = [] /\ r = failure "tiktok" (JStr (unconfiguredError "tiktok" mediaType))).
Proof.
  intros Hfiles.
  unfold TikTok.postToTikTok, TikTok.postVideo, TikTok.initializeUpload,
    TikTok.uploadVideoChunk, try_catch, bind, lift, first_file, perform, ret, throw.
  intros Hrun. revert Hrun.
  repeat case_match; subst_but log; intros Hrun; subst_but log; try done.
  all: match goal with
       | |- exists calls, ?L = _ /\ _ => let cs := calls_since log L in exists cs
       end.
  all: (split; [rewrite <- ?app_assoc; simpl; by rewrite ?app_nil_r|]).
  all: (split; [|split]).
  all: try (left; eexists; reflexivity).
  all: try (intros _; eexists; reflexivity).
  all: try (right; eexists _, _; split; [final_call|reflexivity]).
  all: try (intros Hthrown; all_answered Hthrown).
  all: intros Hconf; unfold configured, requiredKeys in Hconf; simpl in Hconf;
    apply credentials_falsy in Hconf; simpl in *; try congruence.
  all: try done.
Qed.

(** An album all of whose uploads gave an identifier has no thrown upload. *)
Lemma uploads_answered w config files (mediaIds : list Json) log :
  (forall i f, files !! i = Some f ->
     exists id', mediaIds !! i = Some id'
                 /\ upload_outcome w config log (take i files) f = Ok id') ->
  ~ thrown_at w log (map (fun f => FbUploadUnpublished config (path f)) files).
Proof.
  intros Hids (i & c & e & Hc & Hthrow).
  apply list_lookup_fmap_Some in Hc as (f & -> & Hf).
  destruct (Hids i f Hf) as (id' & _ & Hid).
  unfold upload_outcome, Facebook.uploadUnpublishedPhoto, bind, perform in Hid.
  rewrite <- fmap_take in Hthrow.
  change (fmap ?g ?l) with (map g l) in Hthrow.
  by rewrite Hthrow in Hid.
Qed.

Lemma postToFacebook_outcome w files caption mediaType userSettings log r log' :
  Facebook.postToFacebook w files caption mediaType userSettings log = (Ok r, log') ->
  exists calls,
    log' = log ++ calls
    /\ (caught "facebook" r
        \/ exists payload id postId,
             delivered w log calls payload
             /\ get payload "id" = Ok id
             /\ (if truthy id then Ok id else get payload "post_id") = Ok postId
             /\ r = mkResult true "facebook" (Some postId) None None
                      (Some "Successfully posted to Facebook") None)
    /\ (thrown_at w log calls -> caught "facebook" r)
    /\ (configured "facebook" userSettings = false ->
        calls = [] /\ r = failure "facebook" (JStr (unconfiguredError "facebook" mediaType))).
Proof.
  unfold Facebook.postToFacebook, Facebook.postVideo, Facebook.postSinglePhoto,
    try_catch, bind, lift, first_file, perform, ret, throw.
  intros Hrun. revert Hrun.
  repeat case_match; subst_but log; intros Hrun; subst_but log.
  all: try match goal with
       | Hpost : Facebook.postMultiplePhotos _ _ _ ?config ?log0 = (_, ?log1) |- _ =>
           rewrite postMultiplePhotos_run in Hpost;
           destruct (Promise_all_uploads w config files log0) as [Hcalls Hvalues];
           destruct (Facebook.Promise_all _ log0) as [[mediaIds|e'] log2];
           simpl in Hcalls, Hvalues; subst log2;
           [ destruct Hvalues as [_ Hids]; apply uploads_answered in Hids |];
           injection Hpost as Hanswer Hlog; try discriminate Hanswer;
           rewrite <- Hlog, <- ?app_assoc; clear Hlog
       end.
  all: try match goal with
       | |- exists calls, ?L = _ /\ _ => let cs := calls_since log L in exists cs
       | |- exists calls, (?L ++ ?cs)%list = _ /\ _ => exists cs
       end.
  all: (split; [rewrite <- ?app_assoc; simpl; by rewrite ?app_nil_r|]).
  all: (split; [|split]).
  all: try (left; eexists; reflexivity).
  all: try (intros _; eexists; reflexivity).
  all: try (right; eexists _, _, _; split; [final_call|]; split; [eassumption|];
            split; [|reflexivity];
            match goal with H : truthy _ = _ |- _ => rewrite H end;
            first [reflexivity | eassumption]).
  all: try (intros Hthrown; apply thrown_at_snoc in Hthrown as [Hthrown|[? Hthrown]];
            [by apply Hids in Hthrown | congruence]).
  all: try (intros Hthrown; all_answered Hthrown).
  all: intros Hconf; unfold configured, requiredKeys in Hconf; simpl in Hconf;
    apply credentials_falsy in Hconf; simpl in *; try congruence.
  all: try done.
Qed.

(** ** The dispatcher *)

Lemma sample_world_settles : every_promise_settles sample_world.
Proof. intros n. simpl. symmetry. apply Permutation_rev. Qed.

Lemma postingPromise_imported_resolves w files caption mediaType userSettings p log :
  exists r log',
    Uploader.postingPromise Uploader.imported w files caption mediaType userSettings p log
    = (Ok r, log')
    /\ platform r = (if isKnown w p then toLowerCase w p else p).
Proof.
  unfold Uploader.postingPromise, isKnown, knownPlatforms. simpl existsb.
  destruct (String.eqb_spec (toLowerCase w p) "facebook") as [->|_].
  { apply postToFacebook_resolves. }
  destruct (String.eqb_spec (toLowerCase w p) "telegram") as [->|_].
  { apply postToTelegram_resolves. }
  destruct (String.eqb_spec (toLowerCase w p) "tiktok") as [->|_].
  { apply postToTikTok_resolves. }
  destruct (String.eqb_spec (toLowerCase w p) "instagram") as [->|_].
  { eexists _, _. split; reflexivity. }
  destruct (String.eqb_spec (toLowerCase w p) "youtube") as [->|_].
  { eexists _, _. split; reflexivity. }
  eexists _, _. split; reflexivity.
Qed.

Lemma outcome_imported_fulfilled w files caption userSettings p :
  files <> [] ->
  exists r,
    outcome Uploader.imported w files caption userSettings p = Uploader.fulfilled r
    /\ platform r = (if isKnown w p then toLowerCase w p else p).
Proof.
  intros Hfiles. destruct files as [|f files']; [done|]. unfold outcome, Uploader.settle.
  destruct (postingPromise_imported_resolves w (f :: files') caption
              (Uploader.mediaTypeOf f) userSettings p []) as (r & log' & Hrun & Htag).
  exists r. by rewrite Hrun.
Qed.

(** The result list of the dispatcher over any adapter table, whatever
    the order in which the promises settle: one entry per requested
    platform, in request order. *)
Lemma postToAllPlatformsWith_entries adapters w platforms files caption userSettings :
  every_promise_settles w -> files <> [] ->
  Uploader.postToAllPlatformsWith adapters w platforms files caption userSettings
  = Returns (map (entry adapters w files caption userSettings) platforms).
Proof.
  intros Hsettle Hfiles. destruct files as [|f files']; [done|].
  unfold Uploader.postToAllPlatformsWith.
  rewrite allSettled_input_order by apply Hsettle.
  f_equal. apply list_eq. intros i.
  rewrite list_lookup_imap, !list_lookup_fmap.
  destruct (platforms !! i) as [p|] eqn:Hp; simpl; [|done].
  unfold entry, outcome, Uploader.collect. rewrite Hp. done.
Qed.

(** C1. For every non-empty media list (in particular every one that
    satisfies the homogeneity invariant) and every platform list, empty
    or not, [postToAllPlatforms] resolves with exactly one result per
    requested platform; whatever the order in which the adapter promises
    settle, entry [i] is the result the promise of the [i]-th requested
    platform resolves to, tagged with the adapter name that platform
    selects (the requested name itself when no adapter matches), and the
    list is the same list under every other order of completion. *)
Theorem postToAllPlatforms_results_in_request_order
    w platforms files caption userSettings :
  every_promise_settles w -> files <> [] ->
  exists results,
    Uploader.postToAllPlatforms w platforms files caption userSettings = Returns results
    /\ length results = length platforms
    /\ (forall i p, platforms !! i = Some p ->
          exists r, results !! i = Some r
            /\ outcome Uploader.imported w files caption userSettings p
               = Uploader.fulfilled r
            /\ platform r = (if isKnown w p then toLowerCase w p else p))
    /\ (forall order,
          every_promise_settles (with_settle_order order w) ->
          Uploader.postToAllPlatforms (with_settle_order order w) platforms files
            caption userSettings = Returns results).
Proof.
  intros Hsettle Hfiles. eexists. split; [|split; [|split]].
  - by apply postToAllPlatformsWith_entries.
  - apply length_map.
  - intros i p Hp. rewrite list_lookup_fmap, Hp. simpl.
    destruct (outcome_imported_fulfilled w files caption userSettings p Hfiles)
      as (r & Hr & Htag).
    exists r. unfold entry. rewrite Hr. done.
  - intros order Horder. unfold Uploader.postToAllPlatforms.
    by rewrite postToAllPlatformsWith_entries.
Qed.

Lemma postToAllPlatforms_results_in_request_order_witness :
  exists results,
    Uploader.postToAllPlatforms sample_world ["Telegram"; "nowhere"; "facebook"]
      [sample_photo] "hello" facebook_settings = Returns results
    /\ length results = length ["Telegram"; "nowhere"; "facebook"]
    /\ (forall i p, ["Telegram"; "nowhere"; "facebook"] !! i = Some p ->
          exists r, results !! i = Some r
            /\ outcome Uploader.imported sample_world [sample_photo] "hello"
                 facebook_settings p = Uploader.fulfilled r
            /\ platform r
               = (if isKnown sample_world p then toLowerCase sample_world p else p))
    /\ (forall order,
          every_promise_settles (with_settle_order order sample_world) ->
          Uploader.postToAllPlatforms (with_settle_order order sample_world)
            ["Telegram"; "nowhere"; "facebook"] [sample_photo] "hello" facebook_settings
          = Returns results).
Proof.
  apply (postToAllPlatforms_results_in_request_order sample_world
           ["Telegram"; "nowhere"; "facebook"] [sample_photo] "hello" facebook_settings).
  - exact sample_world_settles.
  - discriminate.
Defined.

(** C2. Each adapter the dispatcher calls catches every failure inside
    it and resolves with one result that carries its own name, whatever
    the upstream does.  The result is the failure record of the adapter
    ([success] false, the error text in [error]) unless the run ended
    with a delivering call that the platform answered, in which case it
    is the success record built from that answer; it is the failure
    record whenever one of the calls of the run was answered with a
    thrown error, and without credentials it is the failure record with
    the text of the missing credentials and no call is made.  Over any
    table of adapters, also ones that reject, the dispatcher resolves
    with one entry per requested platform: the value of a fulfilled
    promise, and for a rejected promise a failure tagged with the
    requested platform that carries the message of the rejection.  No
    rejection reaches the caller and no entry depends on another
    platform's outcome. *)
Theorem adapter_faults_never_reach_the_caller
    adapters w platforms files caption userSettings :
  every_promise_settles w -> files <> [] ->
  (forall mediaType log, exists r calls,
      Facebook.postToFacebook w files caption mediaType userSettings log
      = (Ok r, log ++ calls)
      /\ platform r = "facebook"
      /\ (caught "facebook" r
          \/ exists payload id postId,
               delivered w log calls payload
               /\ get payload "id" = Ok id
               /\ (if truthy id then Ok id else get payload "post_id") = Ok postId
               /\ r = mkResult true "facebook" (Some postId) None None
                        (Some "Successfully posted to Facebook") None)
      /\ (thrown_at w log calls -> caught "facebook" r)
      /\ (configured "facebook" userSettings = false ->
          calls = []
          /\ r = failure "facebook" (JStr (unconfiguredError "facebook" mediaType))))
  /\ (forall mediaType log, exists r calls,
        Telegram.postToTelegram w files caption mediaType userSettings log
        = (Ok r, log ++ calls)
        /\ platform r = "telegram"
        /\ (caught "telegram" r
            \/ exists payload messageId,
                 delivered w log calls payload
                 /\ Telegram.message_id_of payload = Ok messageId
                 /\ r = mkResult true "telegram" None (Some messageId) None
                          (Some "Successfully posted to Telegram") None)
        /\ (thrown_at w log calls -> caught "telegram" r)
        /\ (configured "telegram" userSettings = false ->
            calls = []
            /\ r = failure "telegram" (JStr (unconfiguredError "telegram" mediaType))))
  /\ (forall mediaType log, exists r calls,
        TikTok.postToTikTok w files caption mediaType userSettings log
        = (Ok r, log ++ calls)
        /\ platform r = "tiktok"
        /\ (caught "tiktok" r
            \/ exists payload publishId,
                 delivered w log calls payload
                 /\ r = mkResult true "tiktok" None None (Some publishId)
                          (Some "Video uploaded to TikTok (check your drafts)") None)
        /\ (thrown_at w log calls -> caught "tiktok" r)
        /\ (configured "tiktok" userSettings = false ->
            calls = []
            /\ r = failure "tiktok" (JStr (unconfiguredError "tiktok" mediaType))))
  /\ exists results,
       Uploader.postToAllPlatformsWith adapters w platforms files caption userSettings
       = Returns results
       /\ length results = length platforms
       /\ forall i p, platforms !! i = Some p ->
            match outcome adapters w files caption userSettings p with
            | Uploader.fulfilled value => results !! i = Some value
            | Uploader.rejected reason =>
                results !! i
                = Some (mkResult false p None None None None
                          (Some (or_else (JStr (message reason)) (JStr "Unknown error"))))
            end.
Proof.
  intros Hsettle Hfiles. repeat apply conj.
  - intros mt log.
    destruct (postToFacebook_resolves w files caption mt userSettings log)
      as (r & log' & Hrun & Hname).
    destruct (postToFacebook_outcome _ _ _ _ _ _ _ _ Hrun)
      as (calls & -> & Hresult & Hthrown & Hconf).
    by exists r, calls.
  - intros mt log.
    destruct (postToTelegram_resolves w files caption mt userSettings log)
      as (r & log' & Hrun & Hname).
    destruct (postToTelegram_outcome _ _ _ _ _ _ _ _ Hrun)
      as (calls & -> & Hresult & Hthrown & Hconf).
    by exists r, calls.
  - intros mt log.
    destruct (postToTikTok_resolves w files caption mt userSettings log)
      as (r & log' & Hrun & Hname).
    destruct (postToTikTok_outcome _ _ _ _ _ _ _ _ Hfiles Hrun)
      as (calls & -> & Hresult & Hthrown & Hconf).
    by exists r, calls.
  - eexists. split; [|split].
    + by apply postToAllPlatformsWith_entries.
    + apply length_map.
    + intros i p Hp. rewrite list_lookup_fmap, Hp. simpl. unfold entry.
      by destruct (outcome adapters w files caption userSettings p).
Qed.

Lemma adapter_faults_never_reach_the_caller_witness :
  (forall mediaType log, exists r calls,
      Facebook.postToFacebook sample_world [sample_photo] "hi" mediaType ∅ log
      = (Ok r, log ++ calls)
      /\ platform r = "facebook"
      /\ (caught "facebook" r
          \/ exists payload id postId,
               delivered sample_world log calls payload
               /\ get payload "id" = Ok id
               /\ (if truthy id then Ok id else get payload "post_id") = Ok postId
               /\ r = mkResult true "facebook" (Some postId) None None
                        (Some "Successfully posted to Facebook") None)
      /\ (thrown_at sample_world log calls -> caught "facebook" r)
      /\ (configured "facebook" ∅ = false ->
          calls = []
          /\ r = failure "facebook" (JStr (unconfiguredError "facebook" mediaType))))
  /\ (forall mediaType log, exists r calls,
        Telegram.postToTelegram sample_world [sample_photo] "hi" mediaType ∅ log
        = (Ok r, log ++ calls)
        /\ platform r = "telegram"
        /\ (caught "telegram" r
            \/ exists payload messageId,
                 delivered sample_world log calls payload
                 /\ Telegram.message_id_of payload = Ok messageId
                 /\ r = mkResult true "telegram" None (Some messageId) None
                          (Some "Successfully posted to Telegram") None)
        /\ (thrown_at sample_world log calls -> caught "telegram" r)
        /\ (configured "telegram" ∅ = false ->
            calls = []
            /\ r = failure "telegram" (JStr (unconfiguredError "telegram" mediaType))))
  /\ (forall mediaType log, exists r calls,
        TikTok.postToTikTok sample_world [sample_photo] "hi" mediaType ∅ log
        = (Ok r, log ++ calls)
        /\ platform r = "tiktok"
        /\ (caught "tiktok" r
            \/ exists payload publishId,
                 delivered sample_world log calls payload
                 /\ r = mkResult true "tiktok" None None (Some publishId)
                          (Some "Video uploaded to TikTok (check your drafts)") None)
        /\ (thrown_at sample_world log calls -> caught "tiktok" r)
        /\ (configured "tiktok" ∅ = false ->
            calls = []
            /\ r = failure "tiktok" (JStr (unconfiguredError "tiktok" mediaType))))
  /\ exists results,
       Uploader.postToAllPlatformsWith faulty sample_world ["facebook"; "telegram"] [sample_photo] "hi" ∅
       = Returns results
       /\ length results = length ["facebook"; "telegram"]
       /\ forall i p, ["facebook"; "telegram"] !! i = Some p ->
            match outcome faulty sample_world [sample_photo] "hi" ∅ p with
            | Uploader.fulfilled value => results !! i = Some value
            | Uploader.rejected reason =>
                results !! i
                = Some (mkResult false p None None None None
                          (Some (or_else (JStr (message reason)) (JStr "Unknown error"))))
            end.
Proof.
  apply (adapter_faults_never_reach_the_caller faulty sample_world
           ["facebook"; "telegram"] [sample_photo] "hi" ∅).
  - exact sample_world_settles.
  - discriminate.
Defined.

(** What an unknown name, and a known one without credentials, resolve to. *)

Lemma entry_unknown w files caption userSettings p :
  files <> [] -> isKnown w p = false ->
  entry Uploader.imported w files caption userSettings p
  = failure p (JStr ("Unknown platform: " +:+ p)).
Proof.
  intros Hfiles Hknown. destruct files as [|f files']; [done|].
  unfold isKnown, knownPlatforms in Hknown. simpl in Hknown.
  repeat (apply orb_false_elim in Hknown as [? Hknown]).
  unfold entry, outcome, Uploader.settle, Uploader.postingPromise.
  repeat match goal with H : String.eqb _ _ = false |- _ => rewrite H; clear H end.
  reflexivity.
Qed.

Lemma postingPromise_unconfigured w f rest caption userSettings X :
  isKnown w X = true ->
  configured (toLowerCase w X) userSettings = false ->
  Uploader.postingPromise Uploader.imported w (f :: rest) caption (Uploader.mediaTypeOf f)
    userSettings X []
  = (Ok (failure (toLowerCase w X)
           (JStr (unconfiguredError (toLowerCase w X) (Uploader.mediaTypeOf f)))), []).
Proof.
  intros Hknown Hconf.
  unfold isKnown, knownPlatforms in Hknown. simpl in Hknown.
  unfold Uploader.postingPromise, unconfiguredError.
  unfold configured, requiredKeys in Hconf.
  destruct (String.eqb_spec (toLowerCase w X) "facebook") as [->|_].
  { simpl in Hconf. apply credentials_falsy in Hconf.
    simpl. unfold Facebook.postToFacebook, try_catch. simpl.
    rewrite Hconf. reflexivity. }
  destruct (String.eqb_spec (toLowerCase w X) "telegram") as [->|_].
  { simpl in Hconf. apply credentials_falsy in Hconf.
    simpl. unfold Telegram.postToTelegram, try_catch. simpl.
    rewrite Hconf. reflexivity. }
  destruct (String.eqb_spec (toLowerCase w X) "tiktok") as [->|_].
  { simpl in Hconf. apply credentials_falsy in Hconf.
    simpl. unfold TikTok.postToTikTok, try_catch.
    destruct (Uploader.mediaTypeOf f); [|reflexivity].
    unfold bind, lift, first_file, TikTok.postVideo. simpl.
    rewrite Hconf. reflexivity. }
  destruct (String.eqb_spec (toLowerCase w X) "instagram") as [->|_].
  { reflexivity. }
  destruct (String.eqb_spec (toLowerCase w X) "youtube") as [->|_].
  { reflexivity. }
  simpl in Hknown. discriminate.
Qed.

(** C3. A requested name that matches no adapter, the match being made
    on the lower-cased name, gets in its slot the failure whose error is
    "Unknown platform: " followed by the name as requested; the call
    resolves (it does not throw, the media list being non-empty as the
    dispatcher requires), and the other slots hold exactly what the
    request without that name yields. *)
Theorem unknown_platform_fails_its_slot_only
    w before p after files caption userSettings :
  every_promise_settles w -> files <> [] -> isKnown w p = false ->
  exists r1 r2,
    Uploader.postToAllPlatforms w (before ++ p :: after) files caption userSettings
    = Returns (r1 ++ mkResult false p None None None None
                       (Some (JStr ("Unknown platform: " +:+ p))) :: r2)
    /\ length r1 = length before
    /\ Uploader.postToAllPlatforms w (before ++ after) files caption userSettings
       = Returns (r1 ++ r2).
Proof.
  intros Hsettle Hfiles Hknown.
  exists (map (entry Uploader.imported w files caption userSettings) before),
         (map (entry Uploader.imported w files caption userSettings) after).
  unfold Uploader.postToAllPlatforms.
  rewrite !postToAllPlatformsWith_entries by done.
  rewrite !map_app, length_map. simpl.
  rewrite entry_unknown by done. done.
Qed.

Lemma unknown_platform_fails_its_slot_only_witness :
  exists r1 r2,
    Uploader.postToAllPlatforms sample_world (["facebook"] ++ "unknownplat" :: ["Telegram"])
      [sample_photo] "hello" facebook_settings
    = Returns (r1 ++ mkResult false "unknownplat" None None None None
                       (Some (JStr ("Unknown platform: " +:+ "unknownplat"))) :: r2)
    /\ length r1 = length ["facebook"]
    /\ Uploader.postToAllPlatforms sample_world (["facebook"] ++ ["Telegram"])
         [sample_photo] "hello" facebook_settings
       = Returns (r1 ++ r2).
Proof.
  apply (unknown_platform_fails_its_slot_only sample_world ["facebook"] "unknownplat"
           ["Telegram"] [sample_photo] "hello" facebook_settings).
  - exact sample_world_settles.
  - discriminate.
  - reflexivity.
Defined.

(** C4, as the code has it. A known platform whose required credentials
    are not all non-empty gets a failure in its slot without a single
    external call being made for it, and the other slots hold exactly
    what the request without it yields.  The failure says
    "... credentials not configured" for Facebook and Telegram, and for
    TikTok when the media is a video; TikTok answers photo media with
    "TikTok only supports video uploads" before it looks at credentials,
    and the Instagram and YouTube stubs answer "... coming soon". *)
Theorem incomplete_credentials_fail_without_a_call
    w before X after f rest caption userSettings :
  every_promise_settles w ->
  isKnown w X = true ->
  configured (toLowerCase w X) userSettings = false ->
  Uploader.calls_of
    (Uploader.postingPromise Uploader.imported w (f :: rest) caption
       (Uploader.mediaTypeOf f) userSettings X) = []
  /\ exists r1 r2,
      Uploader.postToAllPlatforms w (before ++ X :: after) (f :: rest) caption userSettings
      = Returns (r1 ++ mkResult false (toLowerCase w X) None None None None
                         (Some (JStr (unconfiguredError (toLowerCase w X)
                                        (Uploader.mediaTypeOf f)))) :: r2)
      /\ length r1 = length before
      /\ Uploader.postToAllPlatforms w (before ++ after) (f :: rest) caption userSettings
         = Returns (r1 ++ r2).
Proof.
  intros Hsettle Hknown Hconf.
  pose proof (postingPromise_unconfigured w f rest caption userSettings X Hknown Hconf)
    as Hrun.
  split.
  { unfold Uploader.calls_of. by rewrite Hrun. }
  exists (map (entry Uploader.imported w (f :: rest) caption userSettings) before),
         (map (entry Uploader.imported w (f :: rest) caption userSettings) after).
  unfold Uploader.postToAllPlatforms.
  rewrite !postToAllPlatformsWith_entries by done.
  rewrite !map_app, length_map. simpl. repeat split.
  do 3 f_equal. unfold entry, outcome, Uploader.settle. by rewrite Hrun.
Qed.

Lemma incomplete_credentials_fail_without_a_call_witness :
  Uploader.calls_of
    (Uploader.postingPromise Uploader.imported sample_world [sample_photo] "hello"
       (Uploader.mediaTypeOf sample_photo) facebook_settings "Telegram") = []
  /\ exists r1 r2,
      Uploader.postToAllPlatforms sample_world (["facebook"] ++ "Telegram" :: [])
        [sample_photo] "hello" facebook_settings
      = Returns (r1 ++ mkResult false (toLowerCase sample_world "Telegram")
                         None None None None
                         (Some (JStr (unconfiguredError (toLowerCase sample_world "Telegram")
                                        (Uploader.mediaTypeOf sample_photo)))) :: r2)
      /\ length r1 = length ["facebook"]
      /\ Uploader.postToAllPlatforms sample_world (["facebook"] ++ [])
           [sample_photo] "hello" facebook_settings
         = Returns (r1 ++ r2).
Proof.
  apply (incomplete_credentials_fail_without_a_call sample_world ["facebook"] "Telegram"
           [] sample_photo [] "hello" facebook_settings).
  - exact sample_world_settles.
  - reflexivity.
  - vm_compute. reflexivity.
Defined.

(** C4 as stated fails: with no TikTok and no Instagram credentials and a
    photo to post, the two slots are failures, but neither carries a
    "credentials not configured" message. *)
Lemma credentials_not_configured_counterexample :
  configured "tiktok" (∅ : gmap string string) = false
  /\ configured "instagram" (∅ : gmap string string) = false
  /\ Uploader.postToAllPlatforms sample_world ["tiktok"; "instagram"] [sample_photo] "" ∅
     = Returns [ mkResult false "tiktok" None None None None
                   (Some (JStr "TikTok only supports video uploads"));
                 mkResult false "instagram" None None None None
                   (Some (JStr "Instagram integration coming soon")) ]
  /\ String.index 0 "credentials not configured" "TikTok only supports video uploads" = None
  /\ String.index 0 "credentials not configured" "Instagram integration coming soon" = None.
Proof. repeat split; vm_compute; reflexivity. Qed.

(** C10. With an empty media list [postToAllPlatforms] rejects with the
    [TypeError] of reading [mimetype] of [files[0]], in every world and
    for every platform list: no adapter promise is created.  With a
    non-empty list it never rejects.  The media kind is [video] exactly
    when the MIME type of the first file starts with "video/", and
    [photo] for every other first file; that kind is what each adapter
    promise of the batch is created with. *)
Theorem empty_media_list_rejects w platforms caption userSettings :
  Uploader.postToAllPlatforms w platforms [] caption userSettings
  = Throws (Error "Cannot read properties of undefined (reading 'mimetype')")
  /\ (forall f rest e,
        Uploader.postToAllPlatforms w platforms (f :: rest) caption userSettings
        <> Throws e)
  /\ (forall f, Uploader.mediaTypeOf f
                = if String.prefix "video/" (mimetype f) then video else photo)
  /\ (forall f rest p,
        outcome Uploader.imported w (f :: rest) caption userSettings p
        = Uploader.settle
            (Uploader.postingPromise Uploader.imported w (f :: rest) caption
               (if String.prefix "video/" (mimetype f) then video else photo)
               userSettings p)).
Proof.
  repeat split.
  intros f rest e. unfold Uploader.postToAllPlatforms, Uploader.postToAllPlatformsWith.
  by destruct (Uploader.allSettled _ _).
Qed.

Example empty_media_list_rejects_sample :
  Uploader.postToAllPlatforms sample_world ["facebook"] [] "hello" facebook_settings
  = Throws (Error "Cannot read properties of undefined (reading 'mimetype')")
  /\ Uploader.mediaTypeOf (mkFile "/uploads/x.bin" "application/octet-stream" "x.bin" None)
     = photo
  /\ Uploader.mediaTypeOf sample_video = video.
Proof. repeat split. Qed.

(** ** Bounded polling *)

Lemma is_string_eq v s : Instagram.is_string v s = true -> v = JStr s.
Proof.
  destruct v; simpl; try discriminate. intros H. by apply String.eqb_eq in H as ->.
Qed.

Lemma waiting_rounds_S k containerId accessToken :
  waiting_rounds (S k) containerId accessToken
  = poll containerId accessToken :: Sleep 5000 :: waiting_rounds k containerId accessToken.
Proof. reflexivity. Qed.

(** The shape of every run of [waitForMediaReady]: [k] rounds of a poll
    and a five-second sleep, then either the attempts are used up, or one
    last poll decides. *)
Lemma waitForMediaReady_run w containerId accessToken maxAttempts log :
  exists k final res,
    Instagram.waitForMediaReady w containerId accessToken maxAttempts log
    = (res, log ++ waiting_rounds k containerId accessToken ++ final)
    /\ ((final = [] /\ k = maxAttempts
         /\ res = Throw (Error "Media processing timed out"))
        \/ (final = [poll containerId accessToken] /\ (k < maxAttempts)%nat
            /\ ~ reports_in_progress
                   (respond w (log ++ waiting_rounds k containerId accessToken)
                            (poll containerId accessToken))
            /\ ((res = Ok true
                 /\ reports_finished
                      (respond w (log ++ waiting_rounds k containerId accessToken)
                               (poll containerId accessToken)))
                \/ exists e, res = Throw e)))
    /\ (forall j, (j < k)%nat ->
          reports_in_progress
            (respond w (log ++ waiting_rounds j containerId accessToken)
                     (poll containerId accessToken))).
Proof.
  revert log. induction maxAttempts as [|n IH]; intros log.
  - exists 0%nat, [], (Throw (Error "Media processing timed out")).
    simpl. rewrite app_nil_r. split; [done|]. split; [by left|]. intros j Hj. lia.
  - cbn [Instagram.waitForMediaReady]. unfold bind at 1, perform at 1.
    fold (poll containerId accessToken).
    assert (Hstop : forall res,
      ~ reports_in_progress (respond w log (poll containerId accessToken)) ->
      (res = Ok true
       /\ reports_finished (respond w log (poll containerId accessToken))
       \/ exists e, res = Throw e) ->
      exists k final res',
        (res, log ++ [poll containerId accessToken])
        = (res', log ++ waiting_rounds k containerId accessToken ++ final)
        /\ ((final = [] /\ k = S n /\ res' = Throw (Error "Media processing timed out"))
            \/ (final = [poll containerId accessToken] /\ (k < S n)%nat
                /\ ~ reports_in_progress
                       (respond w (log ++ waiting_rounds k containerId accessToken)
                                (poll containerId accessToken))
                /\ ((res' = Ok true
                     /\ reports_finished
                          (respond w (log ++ waiting_rounds k containerId accessToken)
                                   (poll containerId accessToken)))
                    \/ exists e, res' = Throw e)))
        /\ (forall j, (j < k)%nat ->
              reports_in_progress
                (respond w (log ++ waiting_rounds j containerId accessToken)
                         (poll containerId accessToken)))).
    { intros res Hnot Hres. exists 0%nat, [poll containerId accessToken], res.
      simpl. rewrite app_nil_r. split; [done|]. split; [|intros j Hj; lia].
      right. split; [done|]. split; [lia|]. done. }
    destruct (respond w log (poll containerId accessToken)) as [data|e] eqn:Hresp.
    2:{ apply Hstop; [|right; eauto]. intros (d & c & Hd & _). discriminate. }
    unfold bind at 1, lift at 1.
    destruct (get data "status_code") as [statusCode|e] eqn:Hcode.
    2:{ apply Hstop; [|right; eauto]. intros (d & c & Hd & Hc & _). congruence. }
    destruct (Instagram.is_string statusCode "FINISHED") eqn:Hfin.
    { apply Hstop.
      - intros (d & c & Hd & Hc & Hf & _). congruence.
      - left. split; [done|]. exists data. split; [done|].
        by rewrite Hcode, (is_string_eq _ _ Hfin). }
    destruct (Instagram.is_string statusCode "ERROR") eqn:Herr.
    { unfold bind, lift, throw.
      assert (Hnot : ~ reports_in_progress (Ok data)).
      { intros (d & c & Hd & Hc & _ & He). congruence. }
      destruct (get data "status") as [status|e]; apply Hstop; eauto. }
    clear Hstop. unfold bind at 1, sleep at 1.
    destruct (IH ((log ++ [poll containerId accessToken]) ++ [Sleep 5000]))
      as (k & final & res & Hrun & Hend & Hprogress).
    exists (S k), final, res. rewrite Hrun, waiting_rounds_S.
    split; [by rewrite <- !app_assoc|]. split.
    + destruct Hend as [(-> & -> & ->) | (-> & Hk & Hnot & Hres)].
      * by left.
      * right. split; [done|]. split; [lia|]. rewrite <- !app_assoc in Hnot, Hres.
        split; [done|]. destruct Hres as [[-> Hfinished] | [e ->]]; [by left|right; eauto].
    + intros [|j] Hj.
      * simpl. rewrite app_nil_r, Hresp. by exists data, statusCode.
      * rewrite waiting_rounds_S. specialize (Hprogress j ltac:(lia)).
        by rewrite <- !app_assoc in Hprogress.
Qed.

Lemma waiting_rounds_no_publish k containerId accessToken :
  Forall (fun c => is_publish c = false) (waiting_rounds k containerId accessToken).
Proof.
  induction k as [|k IH]; [constructor|].
  rewrite waiting_rounds_S. by repeat constructor.
Qed.

(** A run of [waitForMediaReady] that does not return [true] ends in an
    exception, and no run publishes. *)
Lemma waitForMediaReady_outcome w containerId accessToken maxAttempts log :
  exists res trace,
    Instagram.waitForMediaReady w containerId accessToken maxAttempts log
    = (res, log ++ trace)
    /\ Forall (fun c => is_publish c = false) trace
    /\ (res = Ok true \/ exists e, res = Throw e).
Proof.
  destruct (waitForMediaReady_run w containerId accessToken maxAttempts log)
    as (k & final & res & Hrun & Hend & _).
  exists res, (waiting_rounds k containerId accessToken ++ final).
  split; [done|]. split.
  - apply Forall_app. split; [apply waiting_rounds_no_publish|].
    destruct Hend as [(-> & _) | (-> & _)]; by repeat constructor.
  - destruct Hend as [(_ & _ & ->) | (_ & _ & _ & [[-> _] | [e ->]])]; eauto.
Qed.

Lemma createItems_no_publish w config publicUrls log :
  exists res trace,
    Instagram.createItems w config publicUrls log = (res, log ++ trace)
    /\ Forall (fun c => is_publish c = false) trace.
Proof.
  revert log. induction publicUrls as [|url rest IH]; intros log.
  - exists (Ok []), []. simpl. unfold ret. by rewrite app_nil_r.
  - cbn [Instagram.createItems]. unfold bind at 1, perform at 1.
    match goal with |- context [respond w log ?c] =>
      set (create := c); destruct (respond w log create) as [item|e] end.
    2:{ exists (Throw e), [create]. split; [done|]. by repeat constructor. }
    unfold bind at 1, lift at 1. destruct (get item "id") as [itemId|e].
    2:{ exists (Throw e), [create]. split; [done|]. by repeat constructor. }
    destruct (IH (log ++ [create])) as (res & trace & Hrun & Hno).
    unfold bind, ret. rewrite Hrun.
    destruct res as [itemIds|e]; eexists _, (create :: trace);
      (split; [by rewrite <- app_assoc | by constructor]).
Qed.

(** A poll that reports ["ERROR"] ends the wait at once with a failure. *)
Lemma waitForMediaReady_error w containerId accessToken remaining log data :
  respond w log (poll containerId accessToken) = Ok data ->
  get data "status_code" = Ok (JStr "ERROR") ->
  Instagram.waitForMediaReady w containerId accessToken (S remaining) log
  = (Throw (Error ("Media processing failed: "
                   +:+ js_String (or_else (prop data "status") (JStr "Unknown error")))),
     log ++ [poll containerId accessToken]).
Proof.
  intros Hresp Hcode. cbn [Instagram.waitForMediaReady].
  unfold bind, perform, lift, throw. fold (poll containerId accessToken).
  rewrite Hresp, Hcode. simpl.
  unfold get in *. destruct (nullish data); [discriminate|]. reflexivity.
Qed.

(** The video post publishes only after a wait that returned [true], and
    then as its last call; otherwise it throws without publishing. *)
Lemma postVideo_publishes_when_ready w publicUrl caption config log :
  exists res trace,
    Instagram.postVideo w publicUrl caption config log = (res, log ++ trace)
    /\ ((Forall (fun c => is_publish c = false) trace /\ exists e, res = Throw e)
        \/ exists containerId log1 log2,
            Instagram.waitForMediaReady w containerId (ig_accessToken config)
              Instagram.default_maxAttempts log1 = (Ok true, log2)
            /\ log ++ trace = log2 ++ [IgPublish config containerId]).
Proof.
  unfold Instagram.postVideo. unfold bind at 1, perform at 1.
  match goal with |- context [respond w log ?c] =>
    set (create := c); destruct (respond w log create) as [container|e] end.
  2:{ exists (Throw e), [create]. split; [done|]. left. split; [by repeat constructor|eauto]. }
  unfold bind at 1, lift at 1. destruct (get container "id") as [containerId|e].
  2:{ exists (Throw e), [create]. split; [done|]. left. split; [by repeat constructor|eauto]. }
  destruct (waitForMediaReady_outcome w containerId (ig_accessToken config)
              Instagram.default_maxAttempts (log ++ [create]))
    as (res & trace & Hrun & Hno & Hres).
  unfold bind. rewrite Hrun. destruct Hres as [-> | [e ->]].
  - unfold Instagram.publishMedia, perform.
    eexists _, (create :: trace ++ [IgPublish config containerId]).
    split; [by rewrite <- !app_assoc|]. right.
    exists containerId, (log ++ [create]), ((log ++ [create]) ++ trace).
    split; [done|]. by rewrite <- !app_assoc.
  - exists (Throw e), (create :: trace). split; [by rewrite <- app_assoc|].
    left. split; [by constructor | eauto].
Qed.

Lemma postCarousel_publishes_when_ready w publicUrls caption config log :
  exists res trace,
    Instagram.postCarousel w publicUrls caption config log = (res, log ++ trace)
    /\ ((Forall (fun c => is_publish c = false) trace /\ exists e, res = Throw e)
        \/ exists containerId log1 log2,
            Instagram.waitForMediaReady w containerId (ig_accessToken config)
              Instagram.default_maxAttempts log1 = (Ok true, log2)
            /\ log ++ trace = log2 ++ [IgPublish config containerId]).
Proof.
  unfold Instagram.postCarousel. unfold bind at 1.
  destruct (createItems_no_publish w config publicUrls log) as (items & t0 & Hitems & Hno0).
  rewrite Hitems. destruct items as [itemIds|e].
  2:{ exists (Throw e), t0. split; [done|]. left. eauto. }
  unfold bind at 1, perform at 1.
  match goal with |- context [respond w (log ++ t0) ?c] =>
    set (create := c); destruct (respond w (log ++ t0) create) as [carousel|e] end.
  2:{ exists (Throw e), (t0 ++ [create]). split; [by rewrite app_assoc|]. left.
      split; [|eauto]. apply Forall_app. split; [done|by repeat constructor]. }
  unfold bind at 1, lift at 1. destruct (get carousel "id") as [carouselId|e].
  2:{ exists (Throw e), (t0 ++ [create]). split; [by rewrite app_assoc|]. left.
      split; [|eauto]. apply Forall_app. split; [done|by repeat constructor]. }
  destruct (waitForMediaReady_outcome w carouselId (ig_accessToken config)
              Instagram.default_maxAttempts ((log ++ t0) ++ [create]))
    as (res & trace & Hrun & Hno & Hres).
  unfold bind. rewrite Hrun. destruct Hres as [-> | [e ->]].
  - unfold Instagram.publishMedia, perform.
    eexists _, (t0 ++ create :: trace ++ [IgPublish config carouselId]).
    split; [by rewrite <- !app_assoc|]. right.
    exists carouselId, ((log ++ t0) ++ [create]), (((log ++ t0) ++ [create]) ++ trace).
    split; [done|]. by rewrite <- !app_assoc.
  - exists (Throw e), (t0 ++ create :: trace). split; [by rewrite <- !app_assoc|].
    left. split; [|eauto]. apply Forall_app. split; [done | by constructor].
Qed.

(** C9. [waitForMediaReady] ends for every behaviour of the upstream: it
    makes [k] rounds of one status poll followed by a sleep of 5000 ms and
    then at most one last poll, never more than [maxAttempts] polls in
    all.  It returns [true] only when its last poll reports "FINISHED";
    every other run ends in an exception: "Media processing timed out"
    once [maxAttempts] polls have found the container in progress (in
    particular when the upstream never reports a terminal state), and
    "Media processing failed: ..." at once when a poll reports "ERROR".
    The video and carousel posts publish the container only after a wait
    that returned [true]; otherwise they throw without a publish call. *)
Theorem waitForMediaReady_terminates_within_its_bound
    w containerId accessToken maxAttempts log :
  (exists k final res,
      Instagram.waitForMediaReady w containerId accessToken maxAttempts log
      = (res, log ++ waiting_rounds k containerId accessToken ++ final)
      /\ (final = [] \/ final = [poll containerId accessToken])
      /\ (k + length final <= maxAttempts)%nat
      /\ (res = Ok true \/ exists e, res = Throw e)
      /\ (res = Ok true ->
          final = [poll containerId accessToken]
          /\ reports_finished
               (respond w (log ++ waiting_rounds k containerId accessToken)
                        (poll containerId accessToken)))
      /\ (final = [] ->
          k = maxAttempts /\ res = Throw (Error "Media processing timed out"))
      /\ ((forall log', reports_in_progress (respond w log' (poll containerId accessToken))) ->
          k = maxAttempts /\ res = Throw (Error "Media processing timed out")))
  /\ (forall data,
        respond w log (poll containerId accessToken) = Ok data ->
        get data "status_code" = Ok (JStr "ERROR") ->
        Instagram.waitForMediaReady w containerId accessToken (S maxAttempts) log
        = (Throw (Error ("Media processing failed: "
                         +:+ js_String (or_else (prop data "status")
                                                (JStr "Unknown error")))),
           log ++ [poll containerId accessToken]))
  /\ (forall publicUrl caption config, exists res trace,
        Instagram.postVideo w publicUrl caption config log = (res, log ++ trace)
        /\ ((Forall (fun c => is_publish c = false) trace /\ exists e, res = Throw e)
            \/ exists container log1 log2,
                Instagram.waitForMediaReady w container (ig_accessToken config)
                  Instagram.default_maxAttempts log1 = (Ok true, log2)
                /\ log ++ trace = log2 ++ [IgPublish config container]))
  /\ (forall publicUrls caption config, exists res trace,
        Instagram.postCarousel w publicUrls caption config log = (res, log ++ trace)
        /\ ((Forall (fun c => is_publish c = false) trace /\ exists e, res = Throw e)
            \/ exists container log1 log2,
                Instagram.waitForMediaReady w container (ig_accessToken config)
                  Instagram.default_maxAttempts log1 = (Ok true, log2)
                /\ log ++ trace = log2 ++ [IgPublish config container])).
Proof.
  split; [|split; [|split]].
  - destruct (waitForMediaReady_run w containerId accessToken maxAttempts log)
      as (k & final & res & Hrun & Hend & Hprogress).
    exists k, final, res. split; [done|].
    destruct Hend as [(-> & -> & ->) | (-> & Hk & Hnot & Hres)].
    + repeat split; eauto; try discriminate. simpl. lia.
    + split; [by right|]. split; [simpl; lia|]. split; [|split; [|split]].
      * destruct Hres as [[-> _] | [e ->]]; eauto.
      * intros ->. destruct Hres as [[_ Hfin] | [e He]]; [done | discriminate].
      * discriminate.
      * intros Hnever. destruct Hnot. apply Hnever.
  - intros data. apply waitForMediaReady_error.
  - intros. apply postVideo_publishes_when_ready.
  - intros. apply postCarousel_publishes_when_ready.
Qed.

Example waitForMediaReady_stalled :
  Instagram.waitForMediaReady stalled_world (JStr "17") (Some "t") 3 []
  = (Throw (Error "Media processing timed out"),
     waiting_rounds 3 (JStr "17") (Some "t")).
Proof. reflexivity. Qed.

(** ** The due query *)

Lemma string_compare_cons c1 s1 c2 s2 :
  String.compare (String c1 s1) (String c2 s2)
  = match Ascii.compare c1 c2 with
    | Eq => String.compare s1 s2
    | other => other
    end.
Proof. simpl. by destruct (Ascii.compare c1 c2). Qed.

Lemma string_leb_trans a b c :
  String.leb a b = true -> String.leb b c = true -> String.leb a c = true.
Proof.
  unfold String.leb. revert b c.
  induction a as [|x a IH]; intros [|y b] [|z c]; simpl; try done.
  unfold Ascii.compare.
  destruct (N.compare_spec (N_of_ascii x) (N_of_ascii y)) as [Hxy|Hxy|Hxy];
    destruct (N.compare_spec (N_of_ascii y) (N_of_ascii z)) as [Hyz|Hyz|Hyz];
    destruct (N.compare_spec (N_of_ascii x) (N_of_ascii z)) as [Hxz|Hxz|Hxz];
    try done; try lia.
  apply IH.
Qed.

#[local] Instance by_scheduled_at_total : Total ScheduledPostModel.by_scheduled_at.
Proof. intros a b. apply String.leb_total. Qed.

#[local] Instance by_scheduled_at_trans : Transitive ScheduledPostModel.by_scheduled_at.
Proof. intros a b c. apply string_leb_trans. Qed.

Lemma getPending_Permutation now db :
  Permutation (ScheduledPostModel.getPending now db)
              (List.filter (ScheduledPostModel.due now) db).
Proof. apply merge_sort_Permutation. Qed.

Lemma elem_of_getPending now db row :
  row ∈ ScheduledPostModel.getPending now db
  <-> row ∈ db /\ status row = pending
      /\ ScheduledPostModel.text_le (scheduled_at row) now.
Proof.
  rewrite getPending_Permutation, !list_elem_of_In, filter_In.
  unfold ScheduledPostModel.due, ScheduledPostModel.text_le.
  rewrite andb_true_iff. split.
  - intros (Hin & Hp & Hle). split; [done|]. split; [|done]. by destruct (status row).
  - intros (Hin & -> & Hle). done.
Qed.

(** *** The text of an instant orders as the instant does *)

Lemma same_comparison_eq c1 c2 : same_comparison c1 c2 = true -> c1 = c2.
Proof. by destruct c1, c2. Qed.

Lemma pad2z_table :
  forallb (fun a =>
    Nat.eqb (String.length (pad2z (Z.of_nat a))) 2
    && forallb (fun b =>
         same_comparison (String.compare (pad2z (Z.of_nat a)) (pad2z (Z.of_nat b)))
                         (Nat.compare a b)) (seq 0 100)) (seq 0 100) = true.
Proof. vm_compute. reflexivity. Qed.

Lemma pad2z_length a : 0 <= a < 100 -> String.length (pad2z a) = 2%nat.
Proof.
  intros Ha. pose proof pad2z_table as Htable.
  rewrite forallb_forall in Htable.
  specialize (Htable (Z.to_nat a) ltac:(apply in_seq; lia)).
  rewrite Z2Nat.id in Htable by lia.
  apply andb_true_iff in Htable as [Hlen _]. by apply Nat.eqb_eq.
Qed.

Lemma pad2z_compare a b :
  0 <= a < 100 -> 0 <= b < 100 -> String.compare (pad2z a) (pad2z b) = (a ?= b).
Proof.
  intros Ha Hb. pose proof pad2z_table as Htable.
  rewrite forallb_forall in Htable.
  specialize (Htable (Z.to_nat a) ltac:(apply in_seq; lia)).
  rewrite Z2Nat.id in Htable by lia.
  apply andb_true_iff in Htable as [_ Hrow].
  rewrite forallb_forall in Hrow.
  specialize (Hrow (Z.to_nat b) ltac:(apply in_seq; lia)).
  rewrite Z2Nat.id in Hrow by lia.
  rewrite (same_comparison_eq _ _ Hrow).
  rewrite <- Z2Nat.inj_compare by lia. done.
Qed.

Lemma year_table :
  forallb (fun hi =>
    forallb (fun lo =>
      String.eqb (pretty (100 * Z.of_nat hi + Z.of_nat lo))
                 (pad2z (Z.of_nat hi) +:+ pad2z (Z.of_nat lo)))
      (seq 0 100)) (seq 10 90) = true.
Proof. vm_compute. reflexivity. Qed.

Lemma year_text y :
  1000 <= y <= 9999 -> pretty y = pad2z (y / 100) +:+ pad2z (y mod 100).
Proof.
  intros Hy. pose proof year_table as Htable.
  rewrite forallb_forall in Htable.
  specialize (Htable (Z.to_nat (y / 100))
                ltac:(apply in_seq; Z.to_euclidean_division_equations; lia)).
  rewrite forallb_forall in Htable.
  specialize (Htable (Z.to_nat (y mod 100))
                ltac:(apply in_seq; Z.to_euclidean_division_equations; lia)).
  rewrite !Z2Nat.id in Htable by (Z.to_euclidean_division_equations; lia).
  apply String.eqb_eq in Htable. rewrite <- Htable. f_equal.
  Z.to_euclidean_division_equations; lia.
Qed.

Lemma append_assoc a b c : (a +:+ b) +:+ c = a +:+ (b +:+ c).
Proof.
  induction a as [|x a IH]; [done|].
  change (String x ((a +:+ b) +:+ c) = String x (a +:+ (b +:+ c))). by rewrite IH.
Qed.

Lemma compare_block a1 a2 r1 r2 :
  String.length a1 = String.length a2 ->
  String.compare (a1 +:+ r1) (a2 +:+ r2) = lex (String.compare a1 a2) (String.compare r1 r2).
Proof.
  revert a2. induction a1 as [|c1 a1 IH]; intros [|c2 a2] Hlen; try done.
  change (String.compare (String c1 (a1 +:+ r1)) (String c2 (a2 +:+ r2))
          = lex (String.compare (String c1 a1) (String c2 a2)) (String.compare r1 r2)).
  rewrite !string_compare_cons. destruct (Ascii.compare c1 c2); try done.
  apply IH. simpl in Hlen. lia.
Qed.

Lemma compare_separator (sep r1 r2 : string) :
  String.compare (sep +:+ r1) (sep +:+ r2) = String.compare r1 r2.
Proof.
  rewrite compare_block by done.
  assert (String.compare sep sep = Eq) as ->; [|done].
  induction sep as [|c sep IH]; [done|].
  rewrite string_compare_cons. unfold Ascii.compare. by rewrite N.compare_refl.
Qed.

Lemma year_compare y1 y2 :
  1000 <= y1 <= 9999 -> 1000 <= y2 <= 9999 ->
  lex (y1 / 100 ?= y2 / 100) (y1 mod 100 ?= y2 mod 100) = (y1 ?= y2).
Proof.
  intros H1 H2. unfold lex.
  destruct (Z.compare_spec (y1 / 100) (y2 / 100)),
           (Z.compare_spec (y1 mod 100) (y2 mod 100)),
           (Z.compare_spec y1 y2); try done;
    exfalso; Z.to_euclidean_division_equations; lia.
Qed.

Lemma lex_assoc c1 c2 c3 : lex (lex c1 c2) c3 = lex c1 (lex c2 c3).
Proof. by destruct c1. Qed.

(** For four-digit years, the text order of two formatted instants is
    their order in time. *)
Lemma localDateStr_compare a b :
  well_formed a -> well_formed b ->
  String.compare (ScheduledRoute.localDateStr a) (ScheduledRoute.localDateStr b)
  = chronological a b.
Proof.
  intros (Hy1 & Hm1 & Hd1 & Hh1 & Hn1 & Hs1) (Hy2 & Hm2 & Hd2 & Hh2 & Hn2 & Hs2).
  unfold ScheduledRoute.localDateStr, chronological.
  rewrite (year_text (getFullYear a)), (year_text (getFullYear b)) by done.
  fold (pad2z (getMonth a + 1)) (pad2z (getMonth b + 1)).
  fold (pad2z (getDate a)) (pad2z (getDate b)) (pad2z (getHours a)) (pad2z (getHours b)).
  fold (pad2z (getMinutes a)) (pad2z (getMinutes b)).
  fold (pad2z (getSeconds a)) (pad2z (getSeconds b)).
  rewrite <- (year_compare (getFullYear a) (getFullYear b)) by done.
  rewrite <- (Z.add_compare_mono_l 1 (getMonth a) (getMonth b)).
  rewrite !(Z.add_comm 1).
  rewrite lex_assoc.
  rewrite !append_assoc.
  assert (Hlen : forall x y, 0 <= x < 100 -> 0 <= y < 100 ->
                   String.length (pad2z x) = String.length (pad2z y)).
  { intros x y Hx Hy. by rewrite !pad2z_length. }
  assert (0 <= getFullYear a / 100 < 100 /\ 0 <= getFullYear a mod 100 < 100
          /\ 0 <= getFullYear b / 100 < 100 /\ 0 <= getFullYear b mod 100 < 100)
    as (? & ? & ? & ?) by (Z.to_euclidean_division_equations; lia).
  do 2 (rewrite compare_block by (apply Hlen; lia)). rewrite compare_separator.
  rewrite compare_block by (apply Hlen; lia). rewrite compare_separator.
  rewrite compare_block by (apply Hlen; lia). rewrite compare_separator.
  rewrite compare_block by (apply Hlen; lia). rewrite compare_separator.
  rewrite compare_block by (apply Hlen; lia). rewrite compare_separator.
  rewrite !pad2z_compare by lia. reflexivity.
Qed.

Lemma text_le_chronological d clock :
  well_formed d -> well_formed clock ->
  ScheduledPostModel.text_le (ScheduledRoute.localDateStr d)
                             (ScheduledRoute.localDateStr clock)
  <-> chronological d clock <> Gt.
Proof.
  intros Hd Hclock. unfold ScheduledPostModel.text_le, String.leb.
  rewrite localDateStr_compare by done.
  by destruct (chronological d clock).
Qed.

Lemma chronological_flip a b : chronological a b = Lt -> chronological b a = Gt.
Proof.
  unfold chronological, lex.
  rewrite (Z.compare_antisym (getFullYear a)), (Z.compare_antisym (getMonth a)),
    (Z.compare_antisym (getDate a)), (Z.compare_antisym (getHours a)),
    (Z.compare_antisym (getMinutes a)), (Z.compare_antisym (getSeconds a)).
  repeat match goal with |- context [CompOpp ?c] => destruct c; simpl; try done end.
Qed.

(** C5. For every table and every reading [now] of the local clock,
    [getPending] returns exactly the rows (each as often as the table has
    it) whose status is 'pending' and whose [scheduled_at] is at or
    before [now], sorted ascending by [scheduled_at]; the comparison is
    the database's comparison of the two texts, which for timestamps in
    the [YYYY-MM-DD HH:MM:SS] format is the order of the instants.  A
    row in any other status is never returned, and a row scheduled after
    [now], be it by a single second, is left out. *)
Theorem getPending_returns_due_pending_rows_in_order now db :
  Permutation (ScheduledPostModel.getPending now db)
              (List.filter (fun row => ScheduledPostModel.is_pending (status row)
                                       && String.leb (scheduled_at row) now) db)
  /\ (forall row,
        row ∈ ScheduledPostModel.getPending now db
        <-> row ∈ db /\ status row = pending
            /\ ScheduledPostModel.text_le (scheduled_at row) now)
  /\ StronglySorted
       (fun a b => ScheduledPostModel.text_le (scheduled_at a) (scheduled_at b))
       (ScheduledPostModel.getPending now db)
  /\ (forall row, status row <> pending -> row ∉ ScheduledPostModel.getPending now db)
  /\ (forall clock d row,
        well_formed clock -> well_formed d ->
        now = ScheduledRoute.localDateStr clock ->
        scheduled_at row = ScheduledRoute.localDateStr d ->
        (row ∈ ScheduledPostModel.getPending now db
         <-> row ∈ db /\ status row = pending /\ chronological d clock <> Gt)
        /\ (chronological clock d = Lt -> row ∉ ScheduledPostModel.getPending now db)).
Proof.
  split; [apply getPending_Permutation|].
  split; [apply elem_of_getPending|].
  split; [apply (StronglySorted_merge_sort ScheduledPostModel.by_scheduled_at)|].
  split.
  - intros row Hstatus Hin. apply elem_of_getPending in Hin. tauto.
  - intros clock d row Hclock Hd -> Hat.
    rewrite elem_of_getPending, Hat, text_le_chronological by done.
    split; [done|]. intros Hlater (_ & _ & Hnot).
    apply Hnot. by apply chronological_flip.
Qed.

(** Noon sharp: the row due at noon is returned, the row due one second
    later and the row already processed are not; the earlier row comes
    first. *)
Example getPending_one_second_later :
  ScheduledPostModel.getPending "2025-06-01 12:00:00"
    [ mkPost "a" "u" ["facebook"] "" ["/f/a.jpg"] "2025-06-01 12:00:01" pending None;
      mkPost "b" "u" ["facebook"] "" ["/f/b.jpg"] "2025-06-01 12:00:00" pending None;
      mkPost "c" "u" ["facebook"] "" ["/f/c.jpg"] "2025-06-01 11:59:59" completed None;
      mkPost "d" "u" ["facebook"] "" ["/f/d.jpg"] "2025-05-31 23:59:59" pending None ]
  = [ mkPost "d" "u" ["facebook"] "" ["/f/d.jpg"] "2025-05-31 23:59:59" pending None;
      mkPost "b" "u" ["facebook"] "" ["/f/b.jpg"] "2025-06-01 12:00:00" pending None ].
Proof. vm_compute. reflexivity. Qed.

(** ** The scheduler *)

Lemma attempt_settles w post :
  every_promise_settles w -> Scheduler.attempt w post <> Pending.
Proof.
  intros Hsettle. unfold Scheduler.attempt.
  destruct (getAllForUser w (user_id post)) as [allSettings|e]; [|done].
  destruct (media_paths post) as [|filePath rest]; [done|].
  unfold Uploader.postToAllPlatforms.
  by rewrite postToAllPlatformsWith_entries.
Qed.

Lemma updateStatus_lookup id' s r db i :
  ScheduledPostModel.updateStatus id' s r db !! i
  = (fun row => if String.eqb (id row) id'
                then mkPost (id row) (user_id row) (platforms row) (caption row)
                            (media_paths row) (scheduled_at row) s r
                else row) <$> db !! i.
Proof. unfold ScheduledPostModel.updateStatus. apply list_lookup_fmap. Qed.

Lemma updateStatus_ids id' s r db :
  map id (ScheduledPostModel.updateStatus id' s r db) = map id db.
Proof.
  unfold ScheduledPostModel.updateStatus. rewrite map_map. apply map_ext.
  intros row. by destruct (String.eqb (id row) id').
Qed.

Lemma same_intent_refl row : same_intent row row.
Proof. by repeat split. Qed.

(** One call of [processScheduledPost]: the row is first marked
    'processing', then the outcome of the attempt is written over it. *)
Lemma processScheduledPost_run w post db :
  every_promise_settles w ->
  exists outcome T payload,
    Scheduler.processScheduledPost w post db
    = (Returns outcome,
       ScheduledPostModel.updateStatus (id post) T (Some payload)
         (ScheduledPostModel.updateStatus (id post) processing None db))
    /\ terminal T
    /\ (forall row', status row' = T -> result row' = Some payload ->
          settled_by w post row').
Proof.
  intros Hsettle. pose proof (attempt_settles w post Hsettle) as Hattempt.
  unfold Scheduler.processScheduledPost, settled_by.
  destruct (Scheduler.attempt w post) as [results|e|]; [| |done].
  - eexists _, _, _. split; [reflexivity|]. split; [|done].
    unfold terminal. destruct (forallb success results); auto.
  - eexists _, _, _. split; [reflexivity|]. split; [|done]. unfold terminal. auto.
Qed.

Lemma processEach_run w pendingPosts db :
  every_promise_settles w ->
  exists db',
    Scheduler.processEach w pendingPosts db = (Returns tt, db')
    /\ map id db' = map id db
    /\ forall i row, db !! i = Some row ->
         exists row', db' !! i = Some row' /\ same_intent row row'
           /\ (id row ∉ map id pendingPosts -> row' = row)
           /\ (id row ∈ map id pendingPosts ->
               exists post, post ∈ pendingPosts /\ id post = id row
                            /\ settled_by w post row').
Proof.
  intros Hsettle. revert db.
  induction pendingPosts as [|post rest IH]; intros db.
  - exists db. split; [done|]. split; [done|]. intros i row Hrow.
    exists row. split; [done|]. split; [apply same_intent_refl|].
    split; [done|]. intros Hin. by apply elem_of_nil in Hin.
  - cbn [Scheduler.processEach].
    destruct (processScheduledPost_run w post db Hsettle)
      as (outcome & T & payload & Hrun & HT & Hsettled).
    rewrite Hrun.
    destruct (IH (ScheduledPostModel.updateStatus (id post) T (Some payload)
                    (ScheduledPostModel.updateStatus (id post) processing None db)))
      as (db' & Heach & Hids & Hrows).
    exists db'. split; [done|]. split; [by rewrite Hids, !updateStatus_ids|].
    intros i row Hrow.
    destruct (Hrows i (if String.eqb (id row) (id post)
                       then mkPost (id row) (user_id row) (platforms row) (caption row)
                                   (media_paths row) (scheduled_at row) T (Some payload)
                       else row)) as (row' & Hrow' & Hsame & Hout & Hin).
    { rewrite !updateStatus_lookup, Hrow. simpl.
      destruct (String.eqb (id row) (id post)) eqn:Heq; simpl; by rewrite Heq. }
    exists row'. split; [done|].
    destruct (String.eqb_spec (id row) (id post)) as [Heq|Hne]; simpl in *.
    + split; [done|]. split.
      * intros Hnot. exfalso. apply Hnot. rewrite Heq. apply elem_of_cons. by left.
      * intros _. destruct (decide (id row ∈ map id rest)) as [Hrest|Hrest].
        -- destruct (Hin Hrest) as (p & Hp & Hid & Hs).
           exists p. split; [by apply elem_of_cons; right | done].
        -- exists post. split; [apply elem_of_cons; by left|]. split; [done|].
           rewrite (Hout Hrest). by apply Hsettled.
    + split; [done|]. split.
      * intros Hnot. apply Hout. intros Hrest. apply Hnot.
        apply elem_of_cons. by right.
      * intros [Hhead|Hrest]%elem_of_cons; [done|].
        destruct (Hin Hrest) as (p & Hp & Hid & Hs).
        exists p. split; [by apply elem_of_cons; right | done].
Qed.

Lemma unique_ids (db : list ScheduledPost) a b :
  NoDup (map id db) -> a ∈ db -> b ∈ db -> id a = id b -> a = b.
Proof.
  induction db as [|row db IH]; intros Hnodup Ha Hb Hid.
  - by apply elem_of_nil in Ha.
  - apply NoDup_cons in Hnodup as [Hnotin Hnodup].
    apply elem_of_cons in Ha as [->|Ha]; apply elem_of_cons in Hb as [->|Hb];
      [done | | | by apply IH].
    + destruct Hnotin. rewrite Hid. apply (list_elem_of_fmap_2 id), Hb.
    + destruct Hnotin. rewrite <- Hid. apply (list_elem_of_fmap_2 id), Ha.
Qed.

Lemma due_pending now row :
  ScheduledPostModel.due now row = true -> status row = pending.
Proof.
  unfold ScheduledPostModel.due. intros [Hp _]%andb_true_iff. by destruct (status row).
Qed.

Lemma settled_by_terminal w post row' : settled_by w post row' -> terminal (status row').
Proof.
  unfold settled_by, terminal.
  destruct (Scheduler.attempt w post) as [results|e|]; [| |done]; intros [-> _]; auto.
  destruct (forallb success results); auto.
Qed.

Lemma terminal_transition T : terminal T <-> transition processing T.
Proof.
  split.
  - intros [->|[->| ->]]; constructor.
  - unfold terminal. inversion 1; auto.
Qed.

Lemma forallb_false_Exists {A} (f : A -> bool) l :
  forallb f l = false <-> Exists (fun x => f x = false) l.
Proof.
  induction l as [|x l IH]; simpl.
  - split; [discriminate | by inversion 1].
  - rewrite andb_false_iff, Exists_cons, IH. done.
Qed.

Lemma forallb_true_Forall {A} (f : A -> bool) l :
  forallb f l = true <-> Forall (fun x => f x = true) l.
Proof.
  induction l as [|x l IH]; simpl.
  - split; [constructor | done].
  - rewrite andb_true_iff, Forall_cons, IH. done.
Qed.

(** One tick over a table with unique ids: the rows that are due carry
    the outcome of their own processing, the others are untouched. *)
Lemma runSchedulerTick_run w now db :
  every_promise_settles w -> NoDup (map id db) ->
  exists db',
    Scheduler.runSchedulerTick w now db = (Returns tt, db')
    /\ map id db' = map id db
    /\ forall i row, db !! i = Some row ->
         exists row', db' !! i = Some row' /\ same_intent row row'
           /\ (ScheduledPostModel.due now row = false -> row' = row)
           /\ (ScheduledPostModel.due now row = true -> settled_by w row row').
Proof.
  intros Hsettle Hnodup. unfold Scheduler.runSchedulerTick.
  destruct (processEach_run w (ScheduledPostModel.getPending now db) db Hsettle)
    as (db' & Hrun & Hids & Hrows).
  exists db'. rewrite Hrun. split; [done|]. split; [done|].
  intros i row Hrow. destruct (Hrows i row Hrow) as (row' & Hrow' & Hsame & Hout & Hin).
  assert (Hrowin : row ∈ db) by (apply list_elem_of_lookup; eauto).
  assert (Hiff : id row ∈ map id (ScheduledPostModel.getPending now db)
                 -> exists post, post ∈ ScheduledPostModel.getPending now db
                                 /\ id post = id row /\ post = row).
  { intros (post & Hid & Hpost)%list_elem_of_fmap. exists post.
    split; [done|]. split; [done|].
    apply elem_of_getPending in Hpost as (Hpostin & _).
    by apply (unique_ids db). }
  exists row'. split; [done|]. split; [done|]. split.
  - intros Hdue. apply Hout. intros Hidin.
    destruct (Hiff Hidin) as (post & Hpost & _ & ->).
    apply elem_of_getPending in Hpost as (_ & Hp & Hle).
    unfold ScheduledPostModel.due, ScheduledPostModel.text_le in *.
    rewrite Hp, Hle in Hdue. discriminate.
  - intros Hdue. destruct Hin as (post & Hpost & Hid & Hs).
    + apply (list_elem_of_fmap_2 id). apply elem_of_getPending.
      split; [done|]. split; [by eapply due_pending|].
      unfold ScheduledPostModel.due in Hdue. by apply andb_true_iff in Hdue as [_ ?].
    + assert (post = row) as ->; [|done].
      apply elem_of_getPending in Hpost as (Hpostin & _).
      by apply (unique_ids db).
Qed.

(** Ticks in sequence: a row that is not 'pending' is never touched
    again, and no row becomes 'pending'. *)
Lemma runTicks_run w times db :
  every_promise_settles w -> NoDup (map id db) ->
  exists db',
    Scheduler.runTicks w times db = (Returns tt, db')
    /\ forall i row, db !! i = Some row ->
         exists row', db' !! i = Some row' /\ same_intent row row'
           /\ (status row <> pending -> row' = row)
           /\ (status row' = pending -> row' = row).
Proof.
  intros Hsettle. revert db. induction times as [|now later IH]; intros db Hnodup.
  - exists db. split; [done|]. intros i row Hrow. exists row.
    split; [done|]. split; [apply same_intent_refl|]. done.
  - cbn [Scheduler.runTicks].
    destruct (runSchedulerTick_run w now db Hsettle Hnodup)
      as (db1 & Hrun & Hids & Hrows).
    rewrite Hrun. destruct (IH db1) as (db' & Hlater & Hrows'); [by rewrite Hids|].
    exists db'. split; [done|]. intros i row Hrow.
    destruct (Hrows i row Hrow) as (row1 & Hrow1 & Hsame1 & Hnotdue & Hdue).
    destruct (Hrows' i row1 Hrow1) as (row' & Hrow' & Hsame' & Hkeep & Hnopending).
    exists row'. split; [done|]. split.
    { destruct Hsame1 as (?&?&?&?&?&?), Hsame' as (?&?&?&?&?&?).
      repeat split; congruence. }
    destruct (ScheduledPostModel.due now row) eqn:Hd.
    + pose proof (settled_by_terminal _ _ _ (Hdue eq_refl)) as Hterm.
      pose proof (due_pending _ _ Hd) as Hp.
      assert (Hne : status row1 <> pending)
        by (destruct Hterm as [H|[H|H]]; rewrite H; discriminate).
      rewrite (Hkeep Hne). split; [done|]. intros Hpend. done.
    + rewrite (Hnotdue eq_refl) in *. split; done.
Qed.

(** *** Ticks that overlap *)

(** The statements after the dispatch write a terminal status and the
    outcome of the attempt over the row, on whatever table they find. *)
Lemma conclude_run w post :
  every_promise_settles w ->
  exists T payload,
    (forall db, Timer.conclude w post db
                = Some (ScheduledPostModel.updateStatus (id post) T (Some payload) db))
    /\ terminal T
    /\ (forall row', status row' = T -> result row' = Some payload ->
          settled_by w post row').
Proof.
  intros Hsettle. pose proof (attempt_settles w post Hsettle) as Hattempt.
  unfold Timer.conclude, settled_by, terminal.
  destruct (Scheduler.attempt w post) as [results|e|]; [| |done].
  - eexists _, _. split; [reflexivity|]. split; [|done].
    destruct (forallb success results); auto.
  - eexists _, _. split; [reflexivity|]. split; [auto|done].
Qed.

Lemma processScheduledPost_conclude w post db :
  snd (Scheduler.processScheduledPost w post db)
  = default (ScheduledPostModel.updateStatus (id post) processing None db)
      (Timer.conclude w post
         (ScheduledPostModel.updateStatus (id post) processing None db)).
Proof.
  unfold Scheduler.processScheduledPost, Timer.conclude.
  by destruct (Scheduler.attempt w post).
Qed.

Lemma never_back_to_pending_refl db : never_back_to_pending db db.
Proof.
  intros i row Hrow. exists row. split; [done|]. split; [apply same_intent_refl|done].
Qed.

Lemma never_back_to_pending_updateStatus db db' id' s r :
  s <> pending -> never_back_to_pending db db' ->
  never_back_to_pending db (ScheduledPostModel.updateStatus id' s r db').
Proof.
  intros Hs Hdb i row Hrow. destruct (Hdb i row Hrow) as (row' & Hrow' & Hsame & Hpending).
  rewrite updateStatus_lookup, Hrow'. simpl.
  destruct (String.eqb (id row') id'); [|by exists row'].
  eexists. split; [reflexivity|]. split; [exact Hsame|]. simpl. done.
Qed.

Lemma never_back_to_pending_conclude w post db db0 db' :
  never_back_to_pending db0 db -> Timer.conclude w post db = Some db' ->
  never_back_to_pending db0 db'.
Proof.
  unfold Timer.conclude. intros Hdb Hrun.
  destruct (Scheduler.attempt w post) as [results|e|]; [| |done];
    injection Hrun as <-; apply never_back_to_pending_updateStatus; try done.
  by destruct (forallb success results).
Qed.

Lemma never_back_to_pending_advance w pendingPosts : forall db0 db started,
  never_back_to_pending db0 db ->
  never_back_to_pending db0 (snd (fst (Timer.advance w pendingPosts db started))).
Proof.
  induction pendingPosts as [|post rest IH]; intros db0 db started' Hdb; [done|].
  cbn [Timer.advance].
  assert (never_back_to_pending db0
            (ScheduledPostModel.updateStatus (id post) processing None db)) as Hclaimed.
  { by apply never_back_to_pending_updateStatus. }
  destruct (Timer.waits w post); [done|].
  destruct (Timer.conclude w post _) as [db'|] eqn:Hconclude; [|done].
  apply IH. by eapply never_back_to_pending_conclude.
Qed.

Lemma never_back_to_pending_step w db0 s e :
  never_back_to_pending db0 (Timer.table s) ->
  never_back_to_pending db0 (Timer.table (Timer.step w s e)).
Proof.
  intros Hdb. destruct e as [now|k]; simpl.
  - pose proof (never_back_to_pending_advance w
                  (ScheduledPostModel.getPending now (Timer.table s)) db0 (Timer.table s)
                  (Timer.started s) Hdb) as Hadvance.
    by destruct (Timer.advance w _ _ _) as [[tick db] started'].
  - destruct (Timer.running s !! k) as [tick|]; [|done].
    destruct (Timer.conclude w (Timer.current tick) (Timer.table s)) as [db|] eqn:Hconclude;
      [|done].
    pose proof (never_back_to_pending_advance w (Timer.remaining tick) db0 db
                  (Timer.started s)
                  (never_back_to_pending_conclude _ _ _ _ _ Hdb Hconclude)) as Hadvance.
    by destruct (Timer.advance w _ _ _) as [[tick' db'] started'].
Qed.

Lemma never_back_to_pending_run w events : forall db0 s,
  never_back_to_pending db0 (Timer.table s) ->
  never_back_to_pending db0 (Timer.table (Timer.run w events s)).
Proof.
  unfold Timer.run.
  induction events as [|e events IH]; intros db0 s Hdb; [done|].
  simpl. apply IH. by apply never_back_to_pending_step.
Qed.

(** The row of an id after an update. *)
Lemma findById_updateStatus id' id'' s r db :
  ScheduledPostModel.findById id' (ScheduledPostModel.updateStatus id'' s r db)
  = (fun row => if String.eqb id' id''
                then mkPost (id row) (user_id row) (platforms row) (caption row)
                            (media_paths row) (scheduled_at row) s r
                else row) <$> ScheduledPostModel.findById id' db.
Proof.
  unfold ScheduledPostModel.findById, ScheduledPostModel.updateStatus.
  induction db as [|row db IH]; [done|]. cbn [map List.find].
  destruct (String.eqb_spec (id row) id'') as [Hrow|Hrow].
  - cbn [id]. destruct (String.eqb_spec (id row) id') as [Hid|Hid].
    + simpl. rewrite <- Hid, <- Hrow. by rewrite String.eqb_refl.
    + exact IH.
  - destruct (String.eqb_spec (id row) id') as [Hid|Hid]; [|exact IH].
    simpl. rewrite <- Hid. by rewrite (proj2 (String.eqb_neq _ _) Hrow).
Qed.

Lemma findById_elem db row :
  NoDup (map id db) -> row ∈ db -> ScheduledPostModel.findById (id row) db = Some row.
Proof.
  unfold ScheduledPostModel.findById.
  induction db as [|row0 db IH]; intros Hnodup Hrow; [by apply elem_of_nil in Hrow|].
  apply NoDup_cons in Hnodup as [Hnotin Hnodup]. simpl.
  apply elem_of_cons in Hrow as [->|Hrow]; [by rewrite String.eqb_refl|].
  destruct (String.eqb_spec (id row0) (id row)) as [Hid|Hid]; [|by apply IH].
  destruct Hnotin. rewrite Hid. by apply (list_elem_of_fmap_2 id).
Qed.

(** A row that is marked 'processing' is in no later query. *)
Lemma claimed_not_pending now id' db row :
  row ∈ ScheduledPostModel.getPending now
          (ScheduledPostModel.updateStatus id' processing None db) ->
  id row <> id'.
Proof.
  intros (Hrow & Hpending & _)%elem_of_getPending.
  unfold ScheduledPostModel.updateStatus in Hrow.
  apply (list_elem_of_fmap_1 _ db row) in Hrow as (row0 & -> & _).
  destruct (String.eqb_spec (id row0) id') as [Hid|Hid]; [done|done].
Qed.

Section Overlap.

#[local] Arguments ScheduledPostModel.updateStatus : simpl never.
#[local] Arguments ScheduledPostModel.getPending : simpl never.

(** Two ticks that overlap: the first awaits the dispatch of [p1] when
    the second starts and claims [p2]; the second finishes; the first
    then goes on with the [p2] of the list it read at its start. *)
Lemma overlapping_ticks_run w db now1 now2 p1 p2 :
  every_promise_settles w ->
  ScheduledPostModel.getPending now1 db = [p1; p2] ->
  ScheduledPostModel.getPending now2
    (ScheduledPostModel.updateStatus (id p1) processing None db) = [p2] ->
  Timer.waits w p1 = true -> Timer.waits w p2 = true ->
  exists T1 r1 T2 r2,
    terminal T1 /\ terminal T2
    /\ (forall row', status row' = T2 -> result row' = Some r2 -> settled_by w p2 row')
    /\ let claimed1 := ScheduledPostModel.updateStatus (id p1) processing None db in
       let claimed2 := ScheduledPostModel.updateStatus (id p2) processing None claimed1 in
       let done2 := ScheduledPostModel.updateStatus (id p2) T2 (Some r2) claimed2 in
       let done1 := ScheduledPostModel.updateStatus (id p1) T1 (Some r1) done2 in
       let again2 := ScheduledPostModel.updateStatus (id p2) processing None done1 in
       Timer.run w [Timer.Fires now1; Timer.Fires now2; Timer.Settles 1] (Timer.idle db)
       = Timer.mkLoop done2 [Timer.mkTick p1 [p2]] [id p1; id p2]
       /\ Timer.run w [Timer.Fires now1; Timer.Fires now2; Timer.Settles 1; Timer.Settles 0]
            (Timer.idle db)
          = Timer.mkLoop again2 [Timer.mkTick p2 []] [id p1; id p2; id p2]
       /\ Timer.run w [Timer.Fires now1; Timer.Fires now2; Timer.Settles 1; Timer.Settles 0;
                       Timer.Settles 0] (Timer.idle db)
          = Timer.mkLoop (ScheduledPostModel.updateStatus (id p2) T2 (Some r2) again2) []
              [id p1; id p2; id p2].
Proof.
  intros Hsettle Hfirst Hsecond Hw1 Hw2.
  destruct (conclude_run w p1 Hsettle) as (T1 & r1 & Hc1 & HT1 & _).
  destruct (conclude_run w p2 Hsettle) as (T2 & r2 & Hc2 & HT2 & Hr2).
  exists T1, r1, T2, r2. split; [done|]. split; [done|]. split; [done|].
  unfold Timer.run, Timer.idle. simpl.
  rewrite Hfirst. simpl. rewrite Hw1. simpl.
  rewrite Hsecond. simpl. rewrite Hw2. simpl.
  rewrite Hc2. simpl. split; [done|].
  rewrite Hc1. simpl. rewrite Hw2. simpl. split; [done|].
  rewrite Hc2. done.
Qed.

End Overlap.

(** C6, as the code has it.  In a world where every dispatch settles and
    over a table with unique ids:
    - [processScheduledPost] marks the row 'processing', and that is how
      the row stays when the dispatch never settles (in any world); when
      the dispatch has settled, it writes one of 'completed', 'partial',
      'failed' over the row: 'completed' exactly when the dispatcher returned
      and every result has [success = true], 'partial' exactly when it
      returned and some result has [success = false] (at least one
      success with at least one failure is such a case, and so is no
      success at all), and 'failed' exactly when the attempt threw before
      results existed; the row then holds the result list, respectively
      the error message;
    - while the dispatch of a claimed row is awaited, the row reads
      'processing' with no result, and no query for due rows returns it;
    - a tick processes exactly the rows that are due and leaves every
      other row as it is;
    - over ticks each of which has ended when the next one starts, a row
      that has left 'pending' is never written again;
    - however the ticks and the dispatches interleave, no row is ever
      put back to 'pending' and no intent is changed;
    - but a tick goes through the list it read when it started: when the
      timer fires while the first tick awaits the dispatch of [p1], the
      second tick claims and finishes [p2], and the first tick, resumed,
      then marks the finished [p2] 'processing' again, erases its result,
      and dispatches it a second time. *)
Theorem scheduled_intent_under_overlapping_ticks w db :
  every_promise_settles w -> NoDup (map id db) ->
  (forall w' post,
      Scheduler.attempt w' post = Pending ->
      Scheduler.processScheduledPost w' post db
      = (Pending, ScheduledPostModel.updateStatus (id post) processing None db))
  /\ (forall post, exists outcome T payload,
      Scheduler.processScheduledPost w post db
      = (Returns outcome,
         ScheduledPostModel.updateStatus (id post) T (Some payload)
           (ScheduledPostModel.updateStatus (id post) processing None db))
      /\ (forall db', Timer.conclude w post db'
                      = Some (ScheduledPostModel.updateStatus (id post) T (Some payload) db'))
      /\ transition pending processing /\ transition processing T
      /\ (T = completed <->
          exists results, Scheduler.attempt w post = Returns results
                          /\ Forall (fun r => success r = true) results)
      /\ (T = partial <->
          exists results, Scheduler.attempt w post = Returns results
                          /\ Exists (fun r => success r = false) results)
      /\ (T = failed <-> exists e, Scheduler.attempt w post = Throws e)
      /\ (forall results, Scheduler.attempt w post = Returns results ->
            payload = Results results /\ outcome = Scheduler.Posted results)
      /\ (forall e, Scheduler.attempt w post = Throws e ->
            payload = ErrorDescription (message e)
            /\ outcome = Scheduler.NotPosted (message e)))
  /\ (forall now post rest,
        ScheduledPostModel.getPending now db = post :: rest ->
        Timer.waits w post = true ->
        Timer.step w (Timer.idle db) (Timer.Fires now)
        = Timer.mkLoop (ScheduledPostModel.updateStatus (id post) processing None db)
                       [Timer.mkTick post rest] [id post]
        /\ ScheduledPostModel.findById (id post)
             (ScheduledPostModel.updateStatus (id post) processing None db)
           = Some (mkPost (id post) (user_id post) (platforms post) (caption post)
                          (media_paths post) (scheduled_at post) processing None)
        /\ forall now' row,
             row ∈ ScheduledPostModel.getPending now'
                     (ScheduledPostModel.updateStatus (id post) processing None db) ->
             id row <> id post)
  /\ (forall now, exists db',
        Scheduler.runSchedulerTick w now db = (Returns tt, db')
        /\ forall i row, db !! i = Some row ->
             exists row', db' !! i = Some row' /\ same_intent row row'
               /\ (ScheduledPostModel.due now row = false -> row' = row)
               /\ (ScheduledPostModel.due now row = true ->
                   status row = pending /\ transition processing (status row')
                   /\ settled_by w row row'))
  /\ (forall times, exists db',
        Scheduler.runTicks w times db = (Returns tt, db')
        /\ forall i row, db !! i = Some row ->
             exists row', db' !! i = Some row' /\ same_intent row row'
               /\ (status row <> pending -> row' = row)
               /\ (status row' = pending -> row' = row))
  /\ (forall events,
        never_back_to_pending db (Timer.table (Timer.run w events (Timer.idle db))))
  /\ (forall now1 now2 p1 p2,
        ScheduledPostModel.getPending now1 db = [p1; p2] ->
        ScheduledPostModel.getPending now2
          (ScheduledPostModel.updateStatus (id p1) processing None db) = [p2] ->
        Timer.waits w p1 = true -> Timer.waits w p2 = true ->
        let overlap := [Timer.Fires now1; Timer.Fires now2; Timer.Settles 1] in
        let finished := Timer.run w overlap (Timer.idle db) in
        let resumed := Timer.run w (overlap ++ [Timer.Settles 0]) (Timer.idle db) in
        let ended :=
          Timer.run w (overlap ++ [Timer.Settles 0; Timer.Settles 0]) (Timer.idle db) in
        exists row,
          ScheduledPostModel.findById (id p2) (Timer.table finished) = Some row
          /\ settled_by w p2 row /\ terminal (status row)
          /\ ~ transition (status row) processing
          /\ Timer.started finished = [id p1; id p2]
          /\ ScheduledPostModel.findById (id p2) (Timer.table resumed)
             = Some (mkPost (id p2) (user_id p2) (platforms p2) (caption p2)
                            (media_paths p2) (scheduled_at p2) processing None)
          /\ Timer.running resumed = [Timer.mkTick p2 []]
          /\ Timer.started resumed = [id p1; id p2; id p2]
          /\ ScheduledPostModel.findById (id p2) (Timer.table ended) = Some row
          /\ Timer.running ended = []).
Proof.
  intros Hsettle Hnodup. repeat apply conj.
  - intros w' post Hpending. unfold Scheduler.processScheduledPost. by rewrite Hpending.
  - intros post. pose proof (attempt_settles w post Hsettle) as Hattempt.
    unfold Scheduler.processScheduledPost, Timer.conclude.
    destruct (Scheduler.attempt w post) as [results|e|] eqn:Ha; [| |done].
    + eexists _, _, _. split; [reflexivity|]. split; [reflexivity|].
      split; [constructor|].
      destruct (forallb success results) eqn:Hall.
      * split; [constructor|]. split; [|split; [|split; [|split]]].
        -- split; [|done]. intros _. exists results. split; [done|].
           by apply forallb_true_Forall.
        -- split; [done|]. intros (rs & [= <-] & Hex).
           apply forallb_false_Exists in Hex. congruence.
        -- split; [done|]. by intros (e & ?).
        -- by intros rs [= <-].
        -- done.
      * split; [constructor|]. split; [|split; [|split; [|split]]].
        -- split; [done|]. intros (rs & [= <-] & Hfa).
           apply forallb_true_Forall in Hfa. congruence.
        -- split; [|done]. intros _. exists results. split; [done|].
           by apply forallb_false_Exists.
        -- split; [done|]. by intros (e & ?).
        -- by intros rs [= <-].
        -- done.
    + eexists _, _, _. split; [reflexivity|]. split; [reflexivity|].
      split; [constructor|].
      split; [constructor|]. split; [|split; [|split; [|split]]].
      * split; [done|]. by intros (rs & ? & _).
      * split; [done|]. by intros (rs & ? & _).
      * split; [|done]. eauto.
      * done.
      * by intros e' [= <-].
  - intros now post rest Hpending Hwaits. split; [|split].
    + unfold Timer.step, Timer.idle. cbn [Timer.table Timer.started Timer.running].
      rewrite Hpending. cbn [Timer.advance]. by rewrite Hwaits.
    + assert (post ∈ db) as Hpost.
      { apply (elem_of_getPending now). rewrite Hpending. apply list_elem_of_here. }
      rewrite findById_updateStatus, (findById_elem db post Hnodup Hpost).
      simpl. by rewrite String.eqb_refl.
    + intros now' row. apply claimed_not_pending.
  - intros now.
    destruct (runSchedulerTick_run w now db Hsettle Hnodup) as (db' & Hrun & _ & Hrows).
    exists db'. split; [done|]. intros i row Hrow.
    destruct (Hrows i row Hrow) as (row' & Hrow' & Hsame & Hnotdue & Hdue).
    exists row'. split; [done|]. split; [done|]. split; [done|].
    intros Hd. specialize (Hdue Hd). split; [by eapply due_pending|].
    split; [|done]. by eapply terminal_transition, settled_by_terminal.
  - intros times. by apply runTicks_run.
  - intros events. apply never_back_to_pending_run, never_back_to_pending_refl.
  - intros now1 now2 p1 p2 Hfirst Hsecond Hw1 Hw2.
    destruct (overlapping_ticks_run w db now1 now2 p1 p2 Hsettle Hfirst Hsecond Hw1 Hw2)
      as (T1 & r1 & T2 & r2 & HT1 & HT2 & Hr2 & Hfinished & Hresumed & Hended).
    cbn [app]. rewrite Hfinished, Hresumed, Hended.
    cbn [Timer.table Timer.running Timer.started].
    assert (p2 ∈ db) as Hp2.
    { apply (elem_of_getPending now1). rewrite Hfirst. set_solver. }
    assert (id p2 <> id p1) as Hne.
    { apply (claimed_not_pending now2 (id p1) db). rewrite Hsecond. set_solver. }
    pose proof (findById_elem db p2 Hnodup Hp2) as Hfind.
    exists (mkPost (id p2) (user_id p2) (platforms p2) (caption p2) (media_paths p2)
                   (scheduled_at p2) T2 (Some r2)).
    rewrite !findById_updateStatus, Hfind, String.eqb_refl,
      (proj2 (String.eqb_neq _ _) Hne). cbn.
    split; [done|]. split; [by apply Hr2|]. split; [done|].
    split; [|done]. intros Htransition. inversion Htransition; subst.
    destruct HT2 as [?|[?|?]]; congruence.
Qed.


Lemma sample_table_unique_ids : NoDup (map id sample_table).
Proof. compute_done. Qed.

Lemma scheduled_intent_under_overlapping_ticks_witness :
  exists row,
    ScheduledPostModel.findById "b"
      (Timer.table (Timer.run sample_world sample_overlap (Timer.idle sample_table)))
    = Some row
    /\ settled_by sample_world sample_later row /\ terminal (status row)
    /\ ~ transition (status row) processing
    /\ Timer.started (Timer.run sample_world sample_overlap (Timer.idle sample_table))
       = ["a"; "b"]
    /\ ScheduledPostModel.findById "b"
         (Timer.table (Timer.run sample_world (sample_overlap ++ [Timer.Settles 0])
                         (Timer.idle sample_table)))
       = Some (mkPost "b" "u1" ["facebook"] "later" ["/uploads/scheduled/u1/b.jpg"]
                      "2025-06-01 12:00:01" processing None)
    /\ Timer.running (Timer.run sample_world (sample_overlap ++ [Timer.Settles 0])
                        (Timer.idle sample_table))
       = [Timer.mkTick sample_later []]
    /\ Timer.started (Timer.run sample_world (sample_overlap ++ [Timer.Settles 0])
                        (Timer.idle sample_table))
       = ["a"; "b"; "b"]
    /\ ScheduledPostModel.findById "b"
         (Timer.table (Timer.run sample_world
                         (sample_overlap ++ [Timer.Settles 0; Timer.Settles 0])
                         (Timer.idle sample_table)))
       = Some row
    /\ Timer.running (Timer.run sample_world
                        (sample_overlap ++ [Timer.Settles 0; Timer.Settles 0])
                        (Timer.idle sample_table))
       = [].
Proof.
  apply (proj2 (proj2 (proj2 (proj2 (proj2 (proj2
           (scheduled_intent_under_overlapping_ticks sample_world sample_table
              sample_world_settles sample_table_unique_ids))))))
           "2025-06-01 12:00:30" "2025-06-01 12:01:30" sample_first sample_later).
  - vm_compute. reflexivity.
  - vm_compute. reflexivity.
  - vm_compute. reflexivity.
  - vm_compute. reflexivity.
Defined.

(** [processScheduledPost] writes without reading the stored status: on
    a row that is already 'completed' it writes 'processing' and a
    terminal status again. *)
Example processScheduledPost_writes_unconditionally :
  map (fun row => (id row, status row))
      (ScheduledPostModel.updateStatus "b" processing None
         (ScheduledPostModel.updateStatus "b" completed None sample_table))
  = [("a", pending); ("b", processing)]
  /\ map (fun row => (id row, status row))
         (snd (Scheduler.processScheduledPost sample_world
                 (mkPost "b" "u1" ["facebook"] "later" ["/uploads/scheduled/u1/b.jpg"]
                         "2025-06-01 12:00:01" pending None)
                 (ScheduledPostModel.updateStatus "b" completed None sample_table)))
     = [("a", pending); ("b", completed)].
Proof. split; vm_compute; reflexivity. Qed.

(** The sample table under two ticks that overlap.  The first tick, at
    12:00:30, reads "a" and "b" and awaits the dispatch of "a"; the
    timer fires at 12:01:30 and the second tick reads "b" alone, posts
    it and ends; the first tick, resumed, finishes "a" and posts "b"
    once more. *)
Example overlapping_ticks_on_the_sample_table :
  map (fun row => (id row, status row))
      (Timer.table (Timer.run sample_world sample_overlap (Timer.idle sample_table)))
  = [("a", processing); ("b", completed)]
  /\ map (fun row => (id row, status row, result row))
         (Timer.table (Timer.run sample_world (sample_overlap ++ [Timer.Settles 0])
                         (Timer.idle sample_table)))
     = [("a", partial,
         Some (Results
                 [mkResult true "facebook" (Some (JStr "17")) None None
                    (Some "Successfully posted to Facebook") None;
                  failure "telegram" (JStr "Telegram credentials not configured")]));
        ("b", processing, None)]
  /\ Timer.started (Timer.run sample_world (sample_overlap ++ [Timer.Settles 0])
                      (Timer.idle sample_table))
     = ["a"; "b"; "b"]
  /\ map (fun row => (id row, status row))
         (Timer.table (Timer.run sample_world
                         (sample_overlap ++ [Timer.Settles 0; Timer.Settles 0])
                         (Timer.idle sample_table)))
     = [("a", partial); ("b", completed)].
Proof. repeat split; vm_compute; reflexivity. Qed.

(** A dispatch none of whose promises settles: the call never returns
    and the row stays 'processing'. *)
Example processScheduledPost_never_settling :
  Scheduler.processScheduledPost (with_settle_order (fun _ => []) sample_world) sample_later
    sample_table
  = (Pending, ScheduledPostModel.updateStatus "b" processing None sample_table).
Proof. vm_compute. reflexivity. Qed.

(** The sample table through three ticks: "a" is due at the first and
    ends 'partial' (Telegram has no credentials); "b" is due at the
    second and ends 'completed'; the third tick changes nothing. *)
Example three_ticks :
  map (fun row => (id row, status row))
      (snd (Scheduler.runTicks sample_world
              ["2025-06-01 12:00:00"; "2025-06-01 12:01:00"; "2025-06-01 12:02:00"]
              sample_table))
  = [("a", partial); ("b", completed)]
  /\ snd (Scheduler.runTicks sample_world
            ["2025-06-01 12:00:00"; "2025-06-01 12:01:00"; "2025-06-01 12:02:00"]
            sample_table)
     = snd (Scheduler.runTicks sample_world
              ["2025-06-01 12:00:00"; "2025-06-01 12:01:00"] sample_table).
Proof. split; vm_compute; reflexivity. Qed.

(** ** The routes *)

Lemma removeFile_spec disk p :
  undeletable (ScheduledRoute.removeFile disk p) = undeletable disk
  /\ forall q, q ∈ present (ScheduledRoute.removeFile disk p)
               <-> q ∈ present disk /\ (q = p -> p ∈ undeletable disk).
Proof.
  unfold ScheduledRoute.removeFile, ScheduledRoute.existsSync, ScheduledRoute.unlinkSync.
  repeat case_bool_decide; simpl; (split; [done|]); intros q; set_solver.
Qed.

Lemma foldl_removeFile_spec paths disk :
  undeletable (foldl ScheduledRoute.removeFile disk paths) = undeletable disk
  /\ forall q, q ∈ present (foldl ScheduledRoute.removeFile disk paths)
               <-> q ∈ present disk /\ (q ∈ paths -> q ∈ undeletable disk).
Proof.
  revert disk. induction paths as [|p paths IH]; intros disk; simpl.
  - split; [done|]. intros q. set_solver.
  - destruct (IH (ScheduledRoute.removeFile disk p)) as [Hu Hp].
    destruct (removeFile_spec disk p) as [Hu1 Hp1].
    split; [congruence|]. intros q. rewrite Hp, Hp1, Hu1. set_solver.
Qed.

Lemma findById_delete id' db :
  ScheduledPostModel.findById id' (ScheduledPostModel.delete id' db) = None.
Proof.
  unfold ScheduledPostModel.findById, ScheduledPostModel.delete.
  induction db as [|row db IH]; simpl; [done|].
  destruct (String.eqb (id row) id') eqn:Heq; simpl; [done|]. by rewrite Heq.
Qed.

Lemma elem_of_delete id' db row :
  row ∈ ScheduledPostModel.delete id' db <-> row ∈ db /\ id row <> id'.
Proof.
  unfold ScheduledPostModel.delete. rewrite !list_elem_of_In, filter_In.
  destruct (String.eqb_spec (id row) id'); simpl; split; intros [? ?]; done.
Qed.

(** C7. A cancel request on an existing intent, made by a logged-in
    user.  When the user owns the intent and its status is 'pending', the
    answer is 200, the record is gone from the table (no other record
    is), and every media file of the intent is gone from the disk, apart
    from files the system refuses to remove (the handler logs those and
    goes on); no other file is touched.  When the status is anything but
    'pending', the table and the disk are left exactly as they were and
    the request is refused: for the owner with 400 and "Cannot cancel
    post with status: ..." naming the status, for anybody else with 403
    (the ownership test comes first). *)
Theorem cancel_deletes_pending_intents_only req userId disk db post :
  session_userId req = Some userId -> userId <> "" ->
  ScheduledPostModel.findById (params_id req) db = Some post ->
  exists res disk' db',
    ScheduledRoute.router_delete req disk db = (res, disk', db')
    /\ (user_id post = userId -> status post = pending ->
        http_status res = 200%nat /\ body_success res = true
        /\ ScheduledPostModel.findById (params_id req) db' = None
        /\ (forall row, row ∈ db' <-> row ∈ db /\ id row <> params_id req)
        /\ (forall p, p ∈ media_paths post -> p ∉ undeletable disk -> p ∉ present disk')
        /\ (forall p, p ∉ media_paths post -> (p ∈ present disk' <-> p ∈ present disk)))
    /\ (status post <> pending ->
        body_success res = false /\ disk' = disk /\ db' = db
        /\ (user_id post = userId ->
            http_status res = 400%nat
            /\ body_error res
               = Some ("Cannot cancel post with status: "
                       +:+ ScheduledRoute.status_text (status post))))
    /\ (user_id post <> userId ->
        http_status res = 403%nat /\ body_success res = false
        /\ disk' = disk /\ db' = db).
Proof.
  intros Hsession Huser Hfind.
  unfold ScheduledRoute.router_delete, ScheduledRoute.delete_handler.
  rewrite Hsession, (proj2 (String.eqb_neq userId "") Huser), Hfind.
  destruct (String.eqb_spec (user_id post) userId) as [Hown|Hother]; simpl.
  - destruct (foldl_removeFile_spec (media_paths post) disk) as [_ Hspec].
    destruct (status post) eqn:Hstatus; simpl;
      eexists _, _, _; (split; [reflexivity|]);
      (split; [|split]); try done; try (intros _; by repeat split).
    intros _ _. split; [done|]. split; [done|].
    split; [apply findById_delete|]. split; [intros row; apply elem_of_delete|].
    split.
    + intros p Hp Hperm Hpresent. apply Hspec in Hpresent as [_ Hkept].
      by apply Hperm, Hkept.
    + intros p Hp. rewrite Hspec. tauto.
  - eexists _, _, _. split; [reflexivity|]. repeat split; try done.
Qed.

Lemma cancel_deletes_pending_intents_only_witness :
  exists res disk' db',
    ScheduledRoute.router_delete cancel_a sample_disk sample_table = (res, disk', db')
    /\ (user_id (mkPost "a" "u1" ["facebook"; "telegram"] "hello"
                   ["/uploads/scheduled/u1/a.jpg"] "2025-06-01 12:00:00" pending None)
        = "u1" ->
        status (mkPost "a" "u1" ["facebook"; "telegram"] "hello"
                  ["/uploads/scheduled/u1/a.jpg"] "2025-06-01 12:00:00" pending None)
        = pending ->
        http_status res = 200%nat /\ body_success res = true
        /\ ScheduledPostModel.findById (params_id cancel_a) db' = None
        /\ (forall row, row ∈ db' <-> row ∈ sample_table /\ id row <> params_id cancel_a)
        /\ (forall p, p ∈ ["/uploads/scheduled/u1/a.jpg"] ->
                      p ∉ undeletable sample_disk -> p ∉ present disk')
        /\ (forall p, p ∉ ["/uploads/scheduled/u1/a.jpg"] ->
                      (p ∈ present disk' <-> p ∈ present sample_disk)))
    /\ (status (mkPost "a" "u1" ["facebook"; "telegram"] "hello"
                  ["/uploads/scheduled/u1/a.jpg"] "2025-06-01 12:00:00" pending None)
        <> pending ->
        body_success res = false /\ disk' = sample_disk /\ db' = sample_table
        /\ (user_id (mkPost "a" "u1" ["facebook"; "telegram"] "hello"
                       ["/uploads/scheduled/u1/a.jpg"] "2025-06-01 12:00:00" pending None)
            = "u1" ->
            http_status res = 400%nat
            /\ body_error res
               = Some ("Cannot cancel post with status: "
                       +:+ ScheduledRoute.status_text
                             (status (mkPost "a" "u1" ["facebook"; "telegram"] "hello"
                                        ["/uploads/scheduled/u1/a.jpg"]
                                        "2025-06-01 12:00:00" pending None)))))
    /\ (user_id (mkPost "a" "u1" ["facebook"; "telegram"] "hello"
                   ["/uploads/scheduled/u1/a.jpg"] "2025-06-01 12:00:00" pending None)
        <> "u1" ->
        http_status res = 403%nat /\ body_success res = false
        /\ disk' = sample_disk /\ db' = sample_table).
Proof.
  apply (cancel_deletes_pending_intents_only cancel_a "u1" sample_disk sample_table
           (mkPost "a" "u1" ["facebook"; "telegram"] "hello"
              ["/uploads/scheduled/u1/a.jpg"] "2025-06-01 12:00:00" pending None)).
  - reflexivity.
  - discriminate.
  - reflexivity.
Defined.

(** Scenario D: the owner cancels the pending intent "a" (record and file
    gone), then tries to cancel an intent that is being processed
    (refused, nothing changes). *)
Example cancel_scenario :
  ScheduledRoute.router_delete cancel_a sample_disk sample_table
  = (mkResponse 200 true None (Some "Scheduled post cancelled") None,
     mkDisk {[ "/uploads/scheduled/u1/b.jpg" ]} ∅,
     [ mkPost "b" "u1" ["facebook"] "later" ["/uploads/scheduled/u1/b.jpg"]
              "2025-06-01 12:00:01" pending None ])
  /\ ScheduledRoute.router_delete cancel_a sample_disk
       (ScheduledPostModel.updateStatus "a" processing None sample_table)
     = (mkResponse 400 false (Some "Cannot cancel post with status: processing") None None,
        sample_disk,
        ScheduledPostModel.updateStatus "a" processing None sample_table).
Proof.
  split; vm_compute; reflexivity.
Qed.

(** C8, as the code has it. A submission by a logged-in user whose
    [scheduledAt] does not parse, or is not after the current instant, is
    answered with 400 and leaves the table as it was: no record is
    created.  The files of the request, which the upload middleware has
    written to disk before the handler runs, are all still on disk when
    the request has been answered: this route removes none of them. *)
Theorem rejected_submission_keeps_no_record_but_its_files
    w now postId req userId disk db :
  session_userId req = Some userId -> userId <> "" ->
  match Date_parse w (default "" (body_scheduledAt req)) with
  | None => True
  | Some scheduledDate => scheduledDate <= now
  end ->
  exists res disk',
    ScheduledRoute.router_post w now postId req disk db = (res, disk', db)
    /\ http_status res = 400%nat /\ body_success res = false /\ body_post res = None
    /\ forall f, f ∈ req_files req -> path f ∈ present disk'.
Proof.
  intros Hsession Huser Hpast.
  unfold ScheduledRoute.router_post, ScheduledRoute.post_handler.
  rewrite Hsession, (proj2 (String.eqb_neq userId "") Huser).
  assert (Hkept : forall f, f ∈ req_files req ->
            path f ∈ present (ScheduledRoute.upload_array (req_files req) disk)).
  { intros f Hf. unfold ScheduledRoute.upload_array. simpl.
    apply elem_of_union. right. apply elem_of_list_to_set.
    by apply (list_elem_of_fmap_2 path). }
  destruct (length (req_files req) =? 0)%nat; [by eexists _, _|].
  destruct (ScheduledRoute.no_platforms (body_platforms req)); [by eexists _, _|].
  destruct (falsy (body_scheduledAt req)); [by eexists _, _|].
  destruct (Date_parse w (default "" (body_scheduledAt req))) as [scheduledDate|];
    [|by eexists _, _].
  rewrite (proj2 (Z.leb_le scheduledDate now) Hpast). by eexists _, _.
Qed.

Lemma rejected_submission_keeps_no_record_but_its_files_witness :
  exists res disk',
    ScheduledRoute.router_post late_world 2000 "id-1" late_submission (mkDisk ∅ ∅) []
    = (res, disk', [])
    /\ http_status res = 400%nat /\ body_success res = false /\ body_post res = None
    /\ forall f, f ∈ req_files late_submission -> path f ∈ present disk'.
Proof.
  apply (rejected_submission_keeps_no_record_but_its_files late_world 2000 "id-1"
           late_submission "u1" (mkDisk ∅ ∅) []).
  - reflexivity.
  - discriminate.
  - simpl. lia.
Defined.

(** Scenario C on the sample inputs: the submission for an instant that
    is past is answered with 400, the table stays empty, and the uploaded
    file is on disk afterwards.  The same submission for an instant that
    is still ahead is stored as a 'pending' intent. *)
Example late_submission_outcome :
  ScheduledRoute.router_post late_world 2000 "id-1" late_submission (mkDisk ∅ ∅) []
  = (mkResponse 400 false (Some "Scheduled time must be in the future") None None,
     mkDisk {[ "/uploads/scheduled/u1/1-x.jpg" ]} ∅,
     [])
  /\ ScheduledRoute.router_post late_world 500 "id-1" late_submission (mkDisk ∅ ∅) []
     = (mkResponse 201 true None (Some "Post scheduled successfully")
          (Some (mkPost "id-1" "u1" ["facebook"] "hello" ["/uploads/scheduled/u1/1-x.jpg"]
                        "2020-01-01 00:00:00" pending None)),
        mkDisk {[ "/uploads/scheduled/u1/1-x.jpg" ]} ∅,
        [ mkPost "id-1" "u1" ["facebook"] "hello" ["/uploads/scheduled/u1/1-x.jpg"]
                 "2020-01-01 00:00:00" pending None ]).
Proof. split; vm_compute; reflexivity. Qed.

(** * Further properties *)

(** ** Media validation *)

Lemma image_is_no_video m :
  MediaHelper.isImage m = true -> MediaHelper.isVideo m = false.
Proof.
  unfold MediaHelper.isImage, MediaHelper.isVideo.
  destruct m as [|c m]; cbn [String.prefix]; [done|].
  destruct (ascii_dec "i" c) as [<-|_]; [|done]. intros _.
  by destruct (ascii_dec "v" "i").
Qed.

Lemma includes_elem xs x : MediaFiles.includes xs x = true <-> x ∈ xs.
Proof.
  unfold MediaFiles.includes. rewrite existsb_exists, list_elem_of_In. split.
  - intros (y & Hy & ->%String.eqb_eq). done.
  - intros Hx. exists x. split; [done | apply String.eqb_refl].
Qed.

Lemma exceeds_false size limit :
  MediaFiles.exceeds size limit = false <-> forall n, size = Some n -> n <= limit.
Proof.
  unfold MediaFiles.exceeds. destruct size as [n|].
  - rewrite Z.ltb_ge. split; [by intros H m [= <-] | eauto].
  - split; [by intros _ n | done].
Qed.

Lemma fileErrors_nil config f :
  MediaFiles.fileErrors config f = [] <-> image_ok config f \/ video_ok config f.
Proof.
  unfold MediaFiles.fileErrors, image_ok, video_ok.
  rewrite <- !includes_elem, <- !exceeds_false.
  destruct (MediaHelper.isImage (mimetype f)) eqn:Hi.
  - rewrite (image_is_no_video _ Hi).
    destruct (MediaFiles.includes (allowedImageTypes config) _),
             (MediaFiles.exceeds _ (maxPhotoSize config)); simpl; naive_solver.
  - destruct (MediaHelper.isVideo (mimetype f)) eqn:Hv.
    + destruct (MediaFiles.includes (allowedVideoTypes config) _),
               (MediaFiles.exceeds _ (maxVideoSize config)); simpl; naive_solver.
    + naive_solver.
Qed.

Lemma concat_nil_Forall {A} (ls : list (list A)) :
  concat ls = [] <-> Forall (fun l => l = []) ls.
Proof.
  induction ls as [|l ls IH]; simpl; [by split; [constructor|]|].
  rewrite Forall_cons, <- IH. split.
  - intros H. by apply app_eq_nil in H.
  - by intros [-> ->].
Qed.

Lemma existsb_false_Forall {A} (f : A -> bool) l :
  existsb f l = false <-> Forall (fun x => f x = false) l.
Proof.
  induction l as [|x l IH]; simpl; [by split; [constructor|]|].
  rewrite orb_false_iff, Forall_cons, IH. done.
Qed.

Lemma validateMedia_nil_nonempty files config :
  MediaFiles.validateMedia files config = [] -> files <> [].
Proof. by destruct files. Qed.

(** X1. [validateMedia] returns no error exactly for a batch that is not
    empty and is either all photos, each of an allowed type and within
    the photo size limit, at most [maxPhotos] of them, or one single
    video of an allowed type within the video size limit. *)
Theorem validateMedia_accepts_exactly_homogeneous_batches files config :
  MediaFiles.validateMedia files config = []
  <-> files <> []
      /\ ((Forall (image_ok config) files /\ (length files <= maxPhotos config)%nat)
          \/ exists f, files = [f] /\ video_ok config f).
Proof.
  unfold MediaFiles.validateMedia.
  destruct files as [|f0 rest]; [split; [done | by intros [? _]]|].
  remember (f0 :: rest) as files eqn:Hfiles.
  assert ((length files =? 0)%nat = false) as -> by (by subst).
  assert (Hne : files <> []) by (by subst).
  destruct (existsb (fun f => MediaHelper.isImage (mimetype f)) files) eqn:Himg;
    destruct (existsb (fun f => MediaHelper.isVideo (mimetype f)) files) eqn:Hvid;
    cbn [andb].
  - (* mixed *)
    split; [done|]. intros [_ [[Hall _] | (f & Hf & Hv)]].
    + apply existsb_exists in Hvid as (g & Hg & Hgv).
      rewrite Forall_forall in Hall. destruct (Hall g) as (Hgi & _).
      { by apply list_elem_of_In. }
      rewrite (image_is_no_video _ Hgi) in Hgv. done.
    + apply existsb_exists in Himg as (g & Hg & Hgi). rewrite Hf in Hg.
      destruct Hg as [<-|[]]. destruct Hv as (Hv & _).
      rewrite (image_is_no_video _ Hgi) in Hv. done.
  - (* photos only *)
    rewrite app_nil_l. apply existsb_false_Forall in Hvid.
    split.
    + intros H. apply app_eq_nil in H as [Hmax Herrs]. split; [done|]. left. split.
      * apply concat_nil_Forall, Forall_fmap in Herrs.
        apply Forall_forall. intros g Hg.
        rewrite Forall_forall in Herrs, Hvid.
        specialize (Herrs g Hg). simpl in Herrs.
        apply fileErrors_nil in Herrs as [?|(Hv & _)]; [done|].
        rewrite (Hvid g Hg) in Hv. done.
      * destruct (maxPhotos config <? length files)%nat eqn:Hlt; [done|].
        by apply Nat.ltb_ge in Hlt.
    + intros [_ [[Hall Hlen] | (f & Hf & Hv & _)]].
      * apply Nat.ltb_ge in Hlen. rewrite Hlen. simpl.
        apply concat_nil_Forall, Forall_fmap.
        eapply Forall_impl; [exact Hall|]. intros g Hg. simpl.
        apply fileErrors_nil. by left.
      * rewrite Forall_forall in Hvid. rewrite (Hvid f) in Hv; [done|].
        rewrite Hf. by apply list_elem_of_singleton.
  - (* videos only *)
    apply existsb_false_Forall in Himg. split.
    + intros H. apply app_eq_nil in H as [_ H]. apply app_eq_nil in H as [Hone Herrs].
      split; [done|]. right. subst files.
      destruct rest as [|f1 rest']; [|done]. exists f0. split; [done|].
      apply concat_nil_Forall, Forall_fmap, Forall_cons in Herrs as [Herr _].
      simpl in Herr. apply fileErrors_nil in Herr as [(Hi & _)|?]; [|done].
      apply Forall_cons in Himg as [Hni _]. rewrite Hni in Hi. done.
    + intros [_ [[Hall _] | (f & Hf & Hv)]].
      * subst files. apply Forall_cons in Hall as [(Hi & _) _].
        apply Forall_cons in Himg as [Hni _]. rewrite Hni in Hi. done.
      * rewrite Hf. simpl. rewrite app_nil_r. apply fileErrors_nil. by right.
  - (* neither *)
    subst files.
    apply existsb_false_Forall, Forall_cons in Himg as [Hni _].
    apply existsb_false_Forall, Forall_cons in Hvid as [Hnv _].
    split.
    + intros H. simpl in H. unfold MediaFiles.fileErrors in H.
      rewrite Hni, Hnv in H. done.
    + intros [_ [[Hall _] | (f & Hf & Hv & _)]].
      * apply Forall_cons in Hall as [(Hi & _) _]. rewrite Hni in Hi. done.
      * injection Hf as -> _. rewrite Hnv in Hv. done.
Qed.

(** X2. A batch that [validateMedia] accepts has a first file whose media
    kind, as the dispatcher derives it, is the kind of every file of the
    batch, a video coming alone; and on such a batch [postToAllPlatforms]
    never rejects. *)
Theorem validated_batch_has_one_media_kind files config :
  MediaFiles.validateMedia files config = [] ->
  exists f rest,
    files = f :: rest
    /\ Forall (fun g => Uploader.mediaTypeOf g = Uploader.mediaTypeOf f) files
    /\ (Uploader.mediaTypeOf f = video -> rest = [])
    /\ forall w platforms caption userSettings e,
         Uploader.postToAllPlatforms w platforms files caption userSettings <> Throws e.
Proof.
  intros Hvalid. pose proof (validateMedia_nil_nonempty _ _ Hvalid) as Hne.
  destruct files as [|f rest]; [done|]. exists f, rest. split; [done|].
  assert (Hno : forall w platforms caption userSettings e,
             Uploader.postToAllPlatforms w platforms (f :: rest) caption userSettings
             <> Throws e).
  { intros w platforms caption userSettings e.
    unfold Uploader.postToAllPlatforms, Uploader.postToAllPlatformsWith.
    by destruct (Uploader.allSettled _ _). }
  unfold MediaFiles.validateMedia in Hvalid.
  remember (f :: rest) as files eqn:Hfiles.
  assert ((length files =? 0)%nat = false) as Hlen by (by subst).
  rewrite Hlen in Hvalid.
  destruct (existsb (fun f => MediaHelper.isVideo (mimetype f)) files) eqn:Hvid.
  - (* a video: it comes alone *)
    destruct (existsb (fun f => MediaHelper.isImage (mimetype f)) files); [done|].
    cbn [andb] in Hvalid. apply app_eq_nil in Hvalid as [_ Hvalid].
    apply app_eq_nil in Hvalid as [Hone _]. subst files.
    destruct rest as [|g rest]; [|done].
    split; [by repeat constructor|]. by split.
  - (* no video: every file is taken for a photo *)
    apply existsb_false_Forall in Hvid.
    assert (Hphoto : Forall (fun g => Uploader.mediaTypeOf g = photo) files).
    { eapply Forall_impl; [exact Hvid|]. intros g Hg.
      unfold Uploader.mediaTypeOf. by rewrite Hg. }
    subst files. pose proof (Forall_inv Hphoto) as Hf. simpl in Hf.
    split; [|split; [|done]].
    + eapply Forall_impl; [exact Hphoto|]. intros g Hg. simpl in *. congruence.
    + rewrite Hf. discriminate.
Qed.

Lemma validated_batch_has_one_media_kind_witness :
  exists f rest,
    [sample_photo; sample_photo] = f :: rest
    /\ Forall (fun g => Uploader.mediaTypeOf g = Uploader.mediaTypeOf f)
              [sample_photo; sample_photo]
    /\ (Uploader.mediaTypeOf f = video -> rest = [])
    /\ forall w platforms caption userSettings e,
         Uploader.postToAllPlatforms w platforms [sample_photo; sample_photo] caption
           userSettings <> Throws e.
Proof.
  apply (validated_batch_has_one_media_kind [sample_photo; sample_photo] uploadConfig).
  vm_compute. reflexivity.
Defined.

(** X3. A batch with a photo and a video gets the one answer "Cannot mix
    photos and videos in a single post", whatever else is wrong with its
    files: the count, type and size checks are not reached. *)
Theorem validateMedia_mixed_batch files config f g :
  f ∈ files -> g ∈ files ->
  MediaHelper.isImage (mimetype f) = true -> MediaHelper.isVideo (mimetype g) = true ->
  MediaFiles.validateMedia files config
  = ["Cannot mix photos and videos in a single post"].
Proof.
  intros Hf Hg Hi Hv. unfold MediaFiles.validateMedia.
  destruct files as [|f0 rest]; [by apply elem_of_nil in Hf|].
  remember (f0 :: rest) as files eqn:Hfiles.
  assert ((length files =? 0)%nat = false) as -> by (by subst).
  assert (existsb (fun f => MediaHelper.isImage (mimetype f)) files = true) as ->.
  { apply existsb_exists. exists f. split; [by apply list_elem_of_In | done]. }
  assert (existsb (fun f => MediaHelper.isVideo (mimetype f)) files = true) as ->.
  { apply existsb_exists. exists g. split; [by apply list_elem_of_In | done]. }
  reflexivity.
Qed.

Lemma validateMedia_mixed_batch_witness :
  MediaFiles.validateMedia
    [sample_video; mkFile "/uploads/big.bmp" "image/bmp" "big.bmp" (Some 99999999)]
    uploadConfig
  = ["Cannot mix photos and videos in a single post"].
Proof.
  apply (validateMedia_mixed_batch _ uploadConfig
           (mkFile "/uploads/big.bmp" "image/bmp" "big.bmp" (Some 99999999)) sample_video).
  - apply elem_of_cons. right. apply elem_of_cons. by left.
  - apply elem_of_cons. by left.
  - reflexivity.
  - reflexivity.
Defined.

(** ** Clean-up and the immediate route *)

Lemma cleanupFiles_foldl files disk :
  MediaFiles.cleanupFiles files disk
  = foldl ScheduledRoute.removeFile disk (map path files).
Proof.
  assert (Hfold : forall fs d,
    foldl (fun disk file =>
             if ScheduledRoute.existsSync (path file) disk
             then match ScheduledRoute.unlinkSync (path file) disk with
                  | Ok disk' => disk'
                  | Throw _ => disk
                  end
             else disk) d fs
    = foldl ScheduledRoute.removeFile d (map path fs)).
  { induction fs as [|g fs IH]; intros d; [done|]. simpl. apply IH. }
  unfold MediaFiles.cleanupFiles. destruct files as [|f rest]; [done|]. apply Hfold.
Qed.

(** X4. [cleanupFiles] removes from the disk every listed file, apart
    from those whose removal the system refuses, and no other file; it
    never throws and leaves what cannot be removed as it is; it is the
    removal loop of the cancel handler, run over the paths of the files;
    and running it a second time changes nothing. *)
Theorem cleanupFiles_removes_the_listed_files files disk :
  undeletable (MediaFiles.cleanupFiles files disk) = undeletable disk
  /\ (forall q, q ∈ present (MediaFiles.cleanupFiles files disk)
                <-> q ∈ present disk /\ (q ∈ map path files -> q ∈ undeletable disk))
  /\ MediaFiles.cleanupFiles files disk
     = foldl ScheduledRoute.removeFile disk (map path files)
  /\ MediaFiles.cleanupFiles files (MediaFiles.cleanupFiles files disk)
     = MediaFiles.cleanupFiles files disk.
Proof.
  rewrite !cleanupFiles_foldl.
  destruct (foldl_removeFile_spec (map path files) disk) as [Hu Hp].
  split; [done|]. split; [done|]. split; [done|].
  destruct (foldl_removeFile_spec (map path files)
              (foldl ScheduledRoute.removeFile disk (map path files))) as [Hu' Hp'].
  destruct (foldl ScheduledRoute.removeFile
              (foldl ScheduledRoute.removeFile disk (map path files)) (map path files))
    as [present2 undeletable2].
  destruct (foldl ScheduledRoute.removeFile disk (map path files))
    as [present1 undeletable1].
  simpl in *. subst undeletable2. f_equal.
  apply leibniz_equiv. intros q. rewrite Hp'. rewrite Hu. rewrite Hp. tauto.
Qed.

Lemma validateMedia_nonempty files config :
  (0 <? length (MediaFiles.validateMedia files config))%nat = false -> files <> [].
Proof.
  intros H. destruct (MediaFiles.validateMedia files config) eqn:Hv; [|done].
  by apply validateMedia_nil_nonempty in Hv.
Qed.

Lemma falsy_session userId : userId <> "" -> falsy (Some userId) = false.
Proof. intros H. simpl. by apply String.eqb_neq. Qed.

(** X5. Whatever a [POST /api/post] of a logged-in user, with a body
    that the upload middleware lets through, is answered with (a
    validation error, no platform, a settings failure, or the results of
    the dispatch), once the answer is given none of the files uploaded
    with the request is left on disk, apart from files the system refuses
    to remove; files that were on disk before under other paths are all
    still there. *)
Theorem immediate_post_leaves_no_upload_behind w trim req disk userId :
  session_userId req = Some userId -> userId <> "" -> every_promise_settles w ->
  multer_accepts (maxPhotos uploadConfig) (maxVideoSize uploadConfig) (req_files req) ->
  exists resp disk',
    PostRoute.router_post w trim req disk = (Returns resp, disk')
    /\ undeletable disk' = undeletable disk
    /\ forall q, q ∈ present disk'
                 <-> (q ∈ present disk \/ q ∈ map path (req_files req))
                     /\ (q ∈ map path (req_files req) -> q ∈ undeletable disk).
Proof.
  intros Hsession Huser Hsettle _.
  unfold PostRoute.router_post. rewrite Hsession, (falsy_session _ Huser).
  assert (Hclean :
    undeletable (MediaFiles.cleanupFiles (req_files req)
                   (ScheduledRoute.upload_array (req_files req) disk))
    = undeletable disk
    /\ forall q,
        q ∈ present (MediaFiles.cleanupFiles (req_files req)
                       (ScheduledRoute.upload_array (req_files req) disk))
        <-> (q ∈ present disk \/ q ∈ map path (req_files req))
            /\ (q ∈ map path (req_files req) -> q ∈ undeletable disk)).
  { rewrite cleanupFiles_foldl.
    destruct (foldl_removeFile_spec (map path (req_files req))
                (ScheduledRoute.upload_array (req_files req) disk)) as [Hu Hp].
    split; [done|]. intros q. rewrite Hp. simpl.
    rewrite elem_of_union, elem_of_list_to_set. done. }
  unfold PostRoute.handler.
  destruct (0 <? length (MediaFiles.validateMedia (req_files req) uploadConfig))%nat
    eqn:Hvalid; [by eexists _, _|].
  apply validateMedia_nonempty in Hvalid.
  destruct (length (PostRoute.parsePlatforms trim (body_platforms req)) =? 0)%nat;
    [by eexists _, _|].
  destruct (Settings.getSettings w (Some userId)) as [userSettings|e]; [|by eexists _, _].
  unfold Uploader.postToAllPlatforms.
  rewrite postToAllPlatformsWith_entries by done. by eexists _, _.
Qed.

Lemma immediate_post_leaves_no_upload_behind_witness :
  exists resp disk',
    PostRoute.router_post sample_world sample_trim late_submission sample_disk
    = (Returns resp, disk')
    /\ undeletable disk' = undeletable sample_disk
    /\ forall q, q ∈ present disk'
                 <-> (q ∈ present sample_disk \/ q ∈ map path (req_files late_submission))
                     /\ (q ∈ map path (req_files late_submission)
                         -> q ∈ undeletable sample_disk).
Proof.
  apply (immediate_post_leaves_no_upload_behind sample_world sample_trim late_submission
           sample_disk "u1").
  - reflexivity.
  - discriminate.
  - exact sample_world_settles.
  - split; [simpl; lia|]. repeat constructor. by intros n [= <-].
Defined.

Lemma existsb_true_Exists {A} (f : A -> bool) l :
  existsb f l = true <-> Exists (fun x => f x = true) l.
Proof.
  induction l as [|x l IH]; simpl.
  - split; [discriminate | by inversion 1].
  - rewrite orb_true_iff, Exists_cons, IH. done.
Qed.

(** X6. A request that passes validation, names at least one platform
    and finds the user's settings is answered with the result list of
    the dispatch, one entry per named platform: with status 200 exactly
    when some platform succeeded and 500 when none did, with [success]
    exactly when all succeeded and [partialSuccess] exactly when some but
    not all did.  The handler's [catch] is not reached by the dispatch. *)
Theorem immediate_post_reports_the_results w trim req disk userId userSettings :
  session_userId req = Some userId -> userId <> "" -> every_promise_settles w ->
  MediaFiles.validateMedia (req_files req) uploadConfig = [] ->
  PostRoute.parsePlatforms trim (body_platforms req) <> [] ->
  Settings.getSettings w (Some userId) = Ok userSettings ->
  exists results disk',
    Uploader.postToAllPlatforms w (PostRoute.parsePlatforms trim (body_platforms req))
      (req_files req) (default "" (body_caption req)) userSettings = Returns results
    /\ length results = length (PostRoute.parsePlatforms trim (body_platforms req))
    /\ PostRoute.router_post w trim req disk
       = (Returns (mkPostResponse
                     (if existsb success results then 200 else 500)
                     (forallb success results)
                     (Some (existsb success results && negb (forallb success results)))
                     [] None (Some results)), disk')
    /\ (existsb success results = true <-> Exists (fun r => success r = true) results)
    /\ (forallb success results = true <-> Forall (fun r => success r = true) results)
    /\ (existsb success results && negb (forallb success results) = true
        <-> Exists (fun r => success r = true) results
            /\ Exists (fun r => success r = false) results).
Proof.
  intros Hsession Huser Hsettle Hvalid Hplatforms Hsettings.
  assert (Hfiles : req_files req <> []).
  { by apply validateMedia_nil_nonempty in Hvalid. }
  unfold Uploader.postToAllPlatforms.
  rewrite postToAllPlatformsWith_entries by done.
  eexists _, _. split; [reflexivity|]. split; [apply length_map|]. split.
  - unfold PostRoute.router_post, PostRoute.handler.
    rewrite Hsession, (falsy_session _ Huser), Hvalid, Hsettings. simpl (0 <? _)%nat.
    cbv iota.
    destruct (PostRoute.parsePlatforms trim (body_platforms req)) as [|p ps] eqn:Hp;
      [done|].
    simpl (length (p :: ps) =? 0)%nat. cbv iota.
    unfold Uploader.postToAllPlatforms.
    rewrite postToAllPlatformsWith_entries by done. reflexivity.
  - split; [apply existsb_true_Exists|]. split; [apply forallb_true_Forall|].
    rewrite andb_true_iff, negb_true_iff, existsb_true_Exists, forallb_false_Exists.
    done.
Qed.

Lemma immediate_post_reports_the_results_witness :
  exists results disk',
    Uploader.postToAllPlatforms sample_world
      (PostRoute.parsePlatforms sample_trim (body_platforms late_submission))
      (req_files late_submission) (default "" (body_caption late_submission))
      (Settings.flatSettings
         [("facebook", [("page_id", "p1"); ("access_token", "t1")])])
    = Returns results
    /\ length results
       = length (PostRoute.parsePlatforms sample_trim (body_platforms late_submission))
    /\ PostRoute.router_post sample_world sample_trim late_submission sample_disk
       = (Returns (mkPostResponse
                     (if existsb success results then 200 else 500)
                     (forallb success results)
                     (Some (existsb success results && negb (forallb success results)))
                     [] None (Some results)), disk')
    /\ (existsb success results = true <-> Exists (fun r => success r = true) results)
    /\ (forallb success results = true <-> Forall (fun r => success r = true) results)
    /\ (existsb success results && negb (forallb success results) = true
        <-> Exists (fun r => success r = true) results
            /\ Exists (fun r => success r = false) results).
Proof.
  apply (immediate_post_reports_the_results sample_world sample_trim late_submission
           sample_disk "u1").
  - reflexivity.
  - discriminate.
  - exact sample_world_settles.
  - vm_compute. reflexivity.
  - discriminate.
  - reflexivity.
Defined.

Lemma split_commas_nonempty s : PostRoute.split_commas s <> [].
Proof.
  destruct s as [|c s]; simpl; [done|].
  destruct (Ascii.eqb c ","); [done|]. by destruct (PostRoute.split_commas s).
Qed.

(** X7. A [platforms] field that arrives as text always yields at least
    one platform name, so the answer "At least one platform must be
    selected" is never given for it.  In particular an empty text is
    dispatched as the one name [trim('')]: when no adapter goes by that
    name the request is answered with status 500 and the single result
    "Unknown platform: ...". *)
Theorem immediate_post_empty_platforms_text w trim req disk userId userSettings :
  session_userId req = Some userId -> userId <> "" -> every_promise_settles w ->
  MediaFiles.validateMedia (req_files req) uploadConfig = [] ->
  body_platforms req = Some (inl "") ->
  Settings.getSettings w (Some userId) = Ok userSettings ->
  isKnown w (trim "") = false ->
  (forall text, PostRoute.parsePlatforms trim (Some (inl text)) <> [])
  /\ exists disk',
      PostRoute.router_post w trim req disk
      = (Returns (mkPostResponse 500 false (Some false) [] None
                    (Some [mkResult false (trim "") None None None None
                             (Some (JStr ("Unknown platform: " +:+ trim "")))])),
         disk').
Proof.
  intros Hsession Huser Hsettle Hvalid Hplatforms Hsettings Hunknown. split.
  { intros text. simpl. pose proof (split_commas_nonempty text).
    by destruct (PostRoute.split_commas text). }
  assert (Hfiles : req_files req <> []).
  { by apply validateMedia_nil_nonempty in Hvalid. }
  unfold PostRoute.router_post, PostRoute.handler.
  rewrite Hsession, (falsy_session _ Huser), Hvalid, Hsettings, Hplatforms.
  simpl. unfold Uploader.postToAllPlatforms.
  rewrite postToAllPlatformsWith_entries by done. simpl.
  rewrite entry_unknown by done. by eexists.
Qed.

Lemma immediate_post_empty_platforms_text_witness :
  (forall text, PostRoute.parsePlatforms sample_trim (Some (inl text)) <> [])
  /\ exists disk',
      PostRoute.router_post sample_world sample_trim
        (mkRequest (Some "u1") "" (Some (inl "")) None None [sample_photo]) sample_disk
      = (Returns (mkPostResponse 500 false (Some false) [] None
                    (Some [mkResult false (sample_trim "") None None None None
                             (Some (JStr ("Unknown platform: " +:+ sample_trim "")))])),
         disk').
Proof.
  apply (immediate_post_empty_platforms_text sample_world sample_trim
           (mkRequest (Some "u1") "" (Some (inl "")) None None [sample_photo])
           sample_disk "u1"
           (Settings.flatSettings
              [("facebook", [("page_id", "p1"); ("access_token", "t1")])])).
  - reflexivity.
  - discriminate.
  - exact sample_world_settles.
  - vm_compute. reflexivity.
  - reflexivity.
  - reflexivity.
  - reflexivity.
Defined.

(** ** Settings *)

Ltac flat_key :=
  unfold Settings.flatSettings, Settings.platformFields;
  cbv [foldl fst snd String.append];
  repeat (rewrite lookup_insert_ne by discriminate);
  first [ rewrite lookup_insert_eq; reflexivity | apply lookup_empty ].

Lemma flatSettings_lookup settings platform fields field :
  (platform, fields) ∈ Settings.platformFields -> field ∈ fields ->
  Settings.flatSettings settings !! (platform +:+ "_" +:+ field)
  = Some (default "" (object_get field (default [] (object_get platform settings)))).
Proof.
  intros Hentry Hfield. unfold Settings.platformFields in Hentry.
  repeat (apply elem_of_cons in Hentry as [[= -> ->]|Hentry]);
    [..|by apply elem_of_nil in Hentry];
    repeat (apply elem_of_cons in Hfield as [->|Hfield]);
    try (by apply elem_of_nil in Hfield); flat_key.
Qed.

Lemma flatSettings_dom settings :
  dom (Settings.flatSettings settings) = list_to_set flatKeys.
Proof.
  unfold Settings.flatSettings, Settings.platformFields, flatKeys.
  cbv [foldl fst snd String.append concat map app].
  rewrite !dom_insert_L, dom_empty_L. set_solver.
Qed.

(** X8. The flat settings object always has exactly the eleven keys
    [`${platform}_${field}`] of the five known platforms, each bound to
    the stored value of that field, or to the empty text when the
    platform or the field is not stored; whatever else the store holds
    for the user does not show. *)
Theorem flatSettings_has_every_known_key settings :
  dom (Settings.flatSettings settings) = list_to_set flatKeys
  /\ (forall platform fields field,
        (platform, fields) ∈ Settings.platformFields -> field ∈ fields ->
        Settings.flatSettings settings !! (platform +:+ "_" +:+ field)
        = Some (default "" (object_get field
                              (default [] (object_get platform settings)))))
  /\ (forall key, key ∉ flatKeys -> Settings.flatSettings settings !! key = None)
  /\ Settings.flatSettings [] = list_to_map (map (fun key => (key, "")) flatKeys).
Proof.
  split; [apply flatSettings_dom|]. split; [apply flatSettings_lookup|]. split.
  - intros key Hkey. apply not_elem_of_dom. rewrite flatSettings_dom.
    by rewrite elem_of_list_to_set.
  - apply map_eq. intros key. vm_compute flatKeys. 
    unfold Settings.flatSettings, Settings.platformFields.
    cbv [foldl fst snd String.append map list_to_map foldr uncurry object_get default].
    done.
Qed.

Lemma matches_spec u p row :
  SettingsModel.matches u p row = true <-> settings_key row = (u, p).
Proof.
  unfold SettingsModel.matches, settings_key. rewrite andb_true_iff, !String.eqb_eq.
  split; [by intros [-> ->] | by intros [= -> ->]].
Qed.

Lemma existsb_matches u p table :
  existsb (SettingsModel.matches u p) table = true
  <-> (u, p) ∈ map settings_key table.
Proof.
  rewrite existsb_exists, list_elem_of_fmap. split.
  - intros (row & Hin & Hm%matches_spec). exists row. by rewrite list_elem_of_In.
  - intros (row & Hk & Hin). exists row. rewrite <- list_elem_of_In.
    split; [done|]. by apply matches_spec.
Qed.

Lemma object_get_app {V} k (l1 l2 : list (string * V)) :
  object_get k (l1 ++ l2)
  = match object_get k l2 with
    | Some v => Some v
    | None => object_get k l1
    end.
Proof.
  induction l1 as [|[k' v] l1 IH]; simpl.
  - by destruct (object_get k l2).
  - rewrite IH. by destruct (object_get k l2).
Qed.

Lemma getAllForUser_app u t1 t2 :
  SettingsModel.getAllForUser u (t1 ++ t2)
  = SettingsModel.getAllForUser u t1 ++ SettingsModel.getAllForUser u t2.
Proof. unfold SettingsModel.getAllForUser. by rewrite List.filter_app, map_app. Qed.

Lemma getAllForUser_cons u row table :
  SettingsModel.getAllForUser u (row :: table)
  = if String.eqb (row_user row) u
    then (row_platform row, settings_json row) :: SettingsModel.getAllForUser u table
    else SettingsModel.getAllForUser u table.
Proof.
  unfold SettingsModel.getAllForUser. simpl.
  by destruct (String.eqb (row_user row) u).
Qed.

(** With the uniqueness constraint, the object the list endpoint builds
    and the single-row query agree. *)
Lemma object_get_getAllForUser u p table :
  unique_settings table ->
  object_get p (SettingsModel.getAllForUser u table)
  = SettingsModel.getForPlatform u p table.
Proof.
  unfold unique_settings, SettingsModel.getForPlatform, SettingsModel.getAllForUser.
  induction table as [|row table IH]; intros Hnodup; [done|].
  apply NoDup_cons in Hnodup as [Hfresh Hnodup]. specialize (IH Hnodup).
  simpl. destruct (SettingsModel.matches u p row) eqn:Hm.
  - pose proof Hm as [Hu Hp]%andb_true_iff. rewrite Hu. simpl. rewrite IH.
    apply matches_spec in Hm. rewrite Hm in Hfresh.
    assert (List.find (SettingsModel.matches u p) table = None) as ->.
    { destruct (List.find _ table) as [r|] eqn:Hfind; [|done].
      apply find_some in Hfind as [Hin Hr]. destruct Hfresh.
      apply existsb_matches, existsb_exists. eauto. }
    simpl. apply String.eqb_eq in Hp. by rewrite Hp, String.eqb_refl.
  - destruct (String.eqb (row_user row) u) eqn:Hu; [|done].
    simpl. rewrite IH. destruct (List.find _ table); [done|]. simpl.
    unfold SettingsModel.matches in Hm. rewrite Hu in Hm. simpl in Hm.
    by rewrite String.eqb_sym, Hm.
Qed.




(** *** The [user_settings] table *)

Lemma find_matches_None u p table :
  List.find (SettingsModel.matches u p) table = None
  <-> existsb (SettingsModel.matches u p) table = false.
Proof.
  induction table as [|row table IH]; simpl; [done|].
  destruct (SettingsModel.matches u p row); simpl; [split; discriminate | done].
Qed.

Section Upsert.
Variables (users : list string) (u p : string) (obj : list (string * string)).

Lemma overwrite_key row : settings_key (SettingsModel.overwrite u p obj row) = settings_key row.
Proof. unfold SettingsModel.overwrite. by destruct (SettingsModel.matches u p row). Qed.

Lemma overwrite_id row : row_id (SettingsModel.overwrite u p obj row) = row_id row.
Proof. unfold SettingsModel.overwrite. by destruct (SettingsModel.matches u p row). Qed.

Lemma overwrite_user row : row_user (SettingsModel.overwrite u p obj row) = row_user row.
Proof. unfold SettingsModel.overwrite. by destruct (SettingsModel.matches u p row). Qed.

Lemma overwrite_platform row : row_platform (SettingsModel.overwrite u p obj row) = row_platform row.
Proof. unfold SettingsModel.overwrite. by destruct (SettingsModel.matches u p row). Qed.

Lemma overwrite_matches u' p' row :
  SettingsModel.matches u' p' (SettingsModel.overwrite u p obj row) = SettingsModel.matches u' p' row.
Proof. unfold SettingsModel.overwrite. by destruct (SettingsModel.matches u p row). Qed.

Lemma overwrite_other u' p' row :
  (u', p') <> (u, p) -> SettingsModel.matches u' p' row = true ->
  SettingsModel.overwrite u p obj row = row.
Proof.
  intros Hne Hm. unfold SettingsModel.overwrite.
  destruct (SettingsModel.matches u p row) eqn:Hm'; [|done].
  apply matches_spec in Hm, Hm'. congruence.
Qed.

Lemma overwrite_same row :
  SettingsModel.matches u p row = true -> settings_json (SettingsModel.overwrite u p obj row) = obj.
Proof. intros Hm. unfold SettingsModel.overwrite. by rewrite Hm. Qed.

Lemma getForPlatform_overwrite u' p' table :
  SettingsModel.getForPlatform u' p' (map (SettingsModel.overwrite u p obj) table)
  = if decide ((u', p') = (u, p))
    then (if existsb (SettingsModel.matches u p) table then Some obj else None)
    else SettingsModel.getForPlatform u' p' table.
Proof.
  unfold SettingsModel.getForPlatform.
  induction table as [|row table IH]; [by destruct (decide _)|].
  rewrite map_cons. cbn [List.find existsb]. rewrite overwrite_matches.
  destruct (SettingsModel.matches u' p' row) eqn:Hm.
  - destruct (decide _) as [[= -> ->]|Hne].
    + rewrite Hm. simpl. by rewrite overwrite_same.
    + by rewrite (overwrite_other u' p').
  - rewrite IH. destruct (decide _) as [[= -> ->]|Hne]; [|done].
    by rewrite Hm.
Qed.

Lemma getAllForUser_overwrite u' p' table :
  (u', p') <> (u, p) ->
  object_get p' (SettingsModel.getAllForUser u' (map (SettingsModel.overwrite u p obj) table))
  = object_get p' (SettingsModel.getAllForUser u' table).
Proof.
  intros Hne.
  induction table as [|row table IH]; [done|].
  rewrite map_cons, !getAllForUser_cons, overwrite_user, overwrite_platform.
  destruct (String.eqb (row_user row) u') eqn:Hu; [|exact IH].
  cbn [object_get]. rewrite IH.
  destruct (object_get p' (SettingsModel.getAllForUser u' table)); [done|].
  destruct (String.eqb p' (row_platform row)) eqn:Hp; [|done].
  rewrite (overwrite_other u' p'); [done..|].
  unfold SettingsModel.matches. by rewrite Hu, String.eqb_sym, Hp.
Qed.

Lemma getForPlatform_app u' p' t1 t2 :
  SettingsModel.getForPlatform u' p' (t1 ++ t2)
  = match SettingsModel.getForPlatform u' p' t1 with
    | Some o => Some o
    | None => SettingsModel.getForPlatform u' p' t2
    end.
Proof.
  unfold SettingsModel.getForPlatform.
  induction t1 as [|row t1 IH]; simpl; [done|].
  by destruct (SettingsModel.matches u' p' row).
Qed.

Lemma matches_false_ne u' p' row :
  (u', p') <> settings_key row -> SettingsModel.matches u' p' row = false.
Proof.
  intros Hne. destruct (SettingsModel.matches u' p' row) eqn:Hm; [|done].
  apply matches_spec in Hm. by destruct Hne.
Qed.

(** What a successful [upsert] leaves behind. *)
Lemma upsert_spec id' table table' :
  SettingsModel.upsert users id' u p obj table = Ok table' ->
  SettingsModel.getForPlatform u p table' = Some obj
  /\ (forall u' p', (u', p') <> (u, p) ->
        SettingsModel.getForPlatform u' p' table'
        = SettingsModel.getForPlatform u' p' table
        /\ object_get p' (SettingsModel.getAllForUser u' table')
           = object_get p' (SettingsModel.getAllForUser u' table))
  /\ (unique_settings table -> unique_settings table')
  /\ (unique_ids_settings table -> unique_ids_settings table')
  /\ (users_exist users table -> users_exist users table')
  /\ (forall i, i ∈ map row_id table' -> i ∈ map row_id table \/ i = id').
Proof.
  unfold SettingsModel.upsert.
  destruct (existsb (SettingsModel.matches u p) table) eqn:Hex.
  - intros [= ?]; subst table'. repeat split.
    + rewrite getForPlatform_overwrite, Hex. by rewrite decide_True.
    + rewrite getForPlatform_overwrite. by rewrite decide_False.
    + by apply getAllForUser_overwrite.
    + unfold unique_settings. rewrite map_map.
      by rewrite (map_ext _ _ overwrite_key).
    + unfold unique_ids_settings. rewrite map_map.
      by rewrite (map_ext _ _ overwrite_id).
    + unfold users_exist. rewrite Forall_map.
      intros Hall. eapply Forall_impl; [exact Hall|].
      intros row. by rewrite overwrite_user.
    + intros i. rewrite map_map, (map_ext _ _ overwrite_id). by left.
  - destruct (existsb (fun row => String.eqb (row_id row) id') table) eqn:Hid;
      [discriminate|].
    destruct (existsb (String.eqb u) users) eqn:Huser; [|discriminate].
    intros [= ?]; subst table'. repeat split.
    + rewrite getForPlatform_app.
      unfold SettingsModel.getForPlatform at 1.
      apply find_matches_None in Hex. rewrite Hex. simpl.
      unfold SettingsModel.getForPlatform, SettingsModel.matches. simpl.
      by rewrite !String.eqb_refl.
    + rewrite getForPlatform_app.
      destruct (SettingsModel.getForPlatform u' p' table); [done|].
      unfold SettingsModel.getForPlatform. simpl.
      by rewrite matches_false_ne.
    + rewrite getAllForUser_app, object_get_app.
      unfold SettingsModel.getAllForUser at 1. simpl.
      destruct (String.eqb u u') eqn:Hu; [|done]. simpl.
      destruct (String.eqb p' p) eqn:Hp; [|done].
      apply String.eqb_eq in Hu, Hp. congruence.
    + unfold unique_settings. rewrite map_app. simpl. intros Hnodup.
      apply NoDup_app. split; [done|]. split; [|apply NoDup_singleton].
      intros key Hin ->%list_elem_of_singleton.
      change ((u, p) ∈ map settings_key table) in Hin.
      apply existsb_matches in Hin. congruence.
    + unfold unique_ids_settings. rewrite map_app. simpl. intros Hnodup.
      apply NoDup_app. split; [done|]. split; [|apply NoDup_singleton].
      intros i Hin Hi. apply list_elem_of_singleton in Hi. simpl in Hi. subst i.
      apply list_elem_of_fmap in Hin as (row & Hrow & Hin).
      assert (existsb (fun row => String.eqb (row_id row) id') table = true)
        as Hcontra; [|congruence].
      apply existsb_exists. exists row. split; [by apply list_elem_of_In|].
      by apply String.eqb_eq.
    + unfold users_exist. intros Hall. apply Forall_app. split; [done|].
      apply Forall_singleton. simpl.
      apply existsb_exists in Huser as (u0 & Hin & ->%String.eqb_eq).
      by apply list_elem_of_In.
    + intros i. rewrite map_app, elem_of_app. simpl.
      rewrite list_elem_of_singleton. tauto.
Qed.

(** An [upsert] under a fresh id for a user that exists succeeds. *)
Lemma upsert_succeeds id' table :
  id' ∉ map row_id table -> u ∈ users ->
  exists table', SettingsModel.upsert users id' u p obj table = Ok table'.
Proof.
  intros Hfresh Huser. unfold SettingsModel.upsert.
  destruct (existsb (SettingsModel.matches u p) table); [eauto|].
  destruct (existsb (fun row => String.eqb (row_id row) id') table) eqn:Hid.
  { apply existsb_exists in Hid as (row & Hin & Hrow%String.eqb_eq).
    destruct Hfresh. apply list_elem_of_fmap. exists row.
    by rewrite list_elem_of_In. }
  destruct (existsb (String.eqb u) users) eqn:Hu; [simpl; eauto|].
  assert (existsb (String.eqb u) users = true) as Hcontra; [|congruence].
  apply existsb_exists. exists u. rewrite String.eqb_refl.
  by rewrite <- list_elem_of_In.
Qed.

End Upsert.

(** X10. [SettingsModel.upsert] followed by a read.  On a table that
    respects the uniqueness constraint, with a fresh id and a user that
    exists, the statement succeeds; then the single-row query and the
    object [getAllForUser] builds both give, for the same user and
    platform, the object just written; every other (user, platform) reads
    as before; and the three constraints of the table (unique pair,
    unique id, user exists) still hold. *)
Theorem upsert_then_read users id' userId platform settingsObj table :
  unique_settings table -> id' ∉ map row_id table -> userId ∈ users ->
  exists table',
    SettingsModel.upsert users id' userId platform settingsObj table = Ok table'
    /\ SettingsModel.getForPlatform userId platform table' = Some settingsObj
    /\ object_get platform (SettingsModel.getAllForUser userId table')
       = Some settingsObj
    /\ (forall u' p', (u', p') <> (userId, platform) ->
          SettingsModel.getForPlatform u' p' table'
          = SettingsModel.getForPlatform u' p' table
          /\ object_get p' (SettingsModel.getAllForUser u' table')
             = object_get p' (SettingsModel.getAllForUser u' table))
    /\ unique_settings table'
    /\ (unique_ids_settings table -> unique_ids_settings table')
    /\ (users_exist users table -> users_exist users table').
Proof.
  intros Hunique Hfresh Huser.
  destruct (upsert_succeeds users userId platform settingsObj id' table Hfresh Huser)
    as [table' Hup].
  exists table'. split; [done|].
  apply upsert_spec in Hup as (Hread & Hframe & Hkeep & Hids & Husers & _).
  specialize (Hkeep Hunique).
  by rewrite object_get_getAllForUser.
Qed.

Lemma upsert_then_read_witness :
  exists table',
    SettingsModel.upsert ["u1"; "u2"] "s3" "u2" "telegram" [("bot_token", "b9")]
      sample_settings_table = Ok table'
    /\ SettingsModel.getForPlatform "u2" "telegram" table' = Some [("bot_token", "b9")]
    /\ object_get "telegram" (SettingsModel.getAllForUser "u2" table')
       = Some [("bot_token", "b9")]
    /\ (forall u' p', (u', p') <> ("u2", "telegram") ->
          SettingsModel.getForPlatform u' p' table'
          = SettingsModel.getForPlatform u' p' sample_settings_table
          /\ object_get p' (SettingsModel.getAllForUser u' table')
             = object_get p' (SettingsModel.getAllForUser u' sample_settings_table))
    /\ unique_settings table'
    /\ (unique_ids_settings sample_settings_table -> unique_ids_settings table')
    /\ (users_exist ["u1"; "u2"] sample_settings_table
        -> users_exist ["u1"; "u2"] table').
Proof.
  apply (upsert_then_read ["u1"; "u2"] "s3" "u2" "telegram" [("bot_token", "b9")]
           sample_settings_table).
  - unfold unique_settings. compute_done.
  - compute_done.
  - compute_done.
Defined.

(** X22. [SettingsModel.delete] followed by a read: the pair has no row
    any more, in the single-row query and in the object [getAllForUser]
    builds; every other (user, platform) reads as before; the uniqueness
    constraint still holds; and deleting a pair that has no row changes
    nothing. *)
Theorem delete_then_read userId platform table :
  SettingsModel.getForPlatform userId platform
    (SettingsModel.delete userId platform table) = None
  /\ object_get platform
       (SettingsModel.getAllForUser userId (SettingsModel.delete userId platform table))
     = None
  /\ (forall u' p', (u', p') <> (userId, platform) ->
        SettingsModel.getForPlatform u' p' (SettingsModel.delete userId platform table)
        = SettingsModel.getForPlatform u' p' table
        /\ object_get p'
             (SettingsModel.getAllForUser u' (SettingsModel.delete userId platform table))
           = object_get p' (SettingsModel.getAllForUser u' table))
  /\ (unique_settings table ->
      unique_settings (SettingsModel.delete userId platform table))
  /\ (SettingsModel.getForPlatform userId platform table = None ->
      SettingsModel.delete userId platform table = table).
Proof.
  assert (forall row rest,
            SettingsModel.delete userId platform (row :: rest)
            = if SettingsModel.matches userId platform row
              then SettingsModel.delete userId platform rest
              else row :: SettingsModel.delete userId platform rest) as Hcons.
  { intros row rest. unfold SettingsModel.delete. simpl.
    by destruct (SettingsModel.matches userId platform row). }
  split; [|split; [|split; [|split]]].
  - unfold SettingsModel.getForPlatform.
    induction table as [|row table IH]; [done|]. rewrite Hcons.
    destruct (SettingsModel.matches userId platform row) eqn:Hm; [done|].
    simpl. by rewrite Hm.
  - induction table as [|row table IH]; [done|]. rewrite Hcons.
    destruct (SettingsModel.matches userId platform row) eqn:Hm; [done|].
    rewrite getAllForUser_cons.
    destruct (String.eqb (row_user row) userId) eqn:Hu; [|done].
    cbn [object_get]. rewrite IH.
    unfold SettingsModel.matches in Hm. rewrite Hu in Hm. simpl in Hm.
    by rewrite String.eqb_sym, Hm.
  - intros u' p' Hne. split.
    + unfold SettingsModel.getForPlatform.
      induction table as [|row table IH]; [done|]. rewrite Hcons.
      destruct (SettingsModel.matches userId platform row) eqn:Hm.
      * simpl. rewrite (matches_false_ne u' p' row); [done|].
        apply matches_spec in Hm. congruence.
      * simpl. by destruct (SettingsModel.matches u' p' row).
    + induction table as [|row table IH]; [done|]. rewrite Hcons.
      destruct (SettingsModel.matches userId platform row) eqn:Hm.
      * rewrite IH, getAllForUser_cons.
        destruct (String.eqb (row_user row) u') eqn:Hu; [|done].
        cbn [object_get].
        destruct (object_get p' (SettingsModel.getAllForUser u' table)); [done|].
        destruct (String.eqb p' (row_platform row)) eqn:Hp; [|done].
        apply matches_spec in Hm. apply String.eqb_eq in Hu, Hp.
        unfold settings_key in Hm. congruence.
      * rewrite !getAllForUser_cons.
        destruct (String.eqb (row_user row) u'); [|done].
        cbn [object_get]. by rewrite IH.
  - unfold unique_settings. intros Hnodup.
    induction table as [|row table IH]; [done|]. rewrite Hcons.
    cbn [map] in Hnodup. apply NoDup_cons in Hnodup as [Hfresh Hnodup].
    destruct (SettingsModel.matches userId platform row); [by apply IH|].
    cbn [map]. apply NoDup_cons. split; [|by apply IH].
    intros (row' & Hkey & Hin)%list_elem_of_fmap. destruct Hfresh.
    apply list_elem_of_fmap. exists row'. split; [done|].
    unfold SettingsModel.delete in Hin.
    by apply list_elem_of_In, filter_In in Hin as [Hin%list_elem_of_In _].
  - unfold SettingsModel.getForPlatform. intros Hnone.
    induction table as [|row table IH]; [done|]. rewrite Hcons.
    simpl in Hnone.
    destruct (SettingsModel.matches userId platform row); [done|].
    by rewrite IH.
Qed.

(** *** Saving and loading the settings *)

Lemma object_get_supplied newSettings platform fields field :
  object_get field (Settings.supplied newSettings platform fields)
  = if decide (field ∈ fields) then newSettings !! (platform +:+ "_" +:+ field)
    else None.
Proof.
  unfold Settings.supplied.
  induction fields as [|f fields IH].
  - simpl. destruct (decide (field ∈ [])) as [Hin|]; [by apply elem_of_nil in Hin | done].
  - cbn [omap list_omap].
    destruct (newSettings !! (platform +:+ "_" +:+ f)) as [v|] eqn:Hv.
    + cbn [object_get]. rewrite IH.
      destruct (decide (field ∈ fields)) as [Hin|Hnin].
      * rewrite decide_True by (by right).
        destruct (newSettings !! (platform +:+ "_" +:+ field)) eqn:Hfield; [done|].
        destruct (String.eqb field f) eqn:Heq; [|done].
        apply String.eqb_eq in Heq. congruence.
      * destruct (String.eqb field f) eqn:Heq.
        -- apply String.eqb_eq in Heq. subst f.
           rewrite decide_True by (by left). done.
        -- rewrite decide_False; [done|].
           intros [->|Hin]%elem_of_cons; [|done].
           by rewrite String.eqb_refl in Heq.
    + rewrite IH.
      destruct (decide (field ∈ fields)) as [Hin|Hnin].
      * by rewrite decide_True by (by right).
      * destruct (decide (field ∈ f :: fields)) as [[->|Hin]%elem_of_cons|]; done.
Qed.

Section SaveEach.
Variables (users : list string) (uuid : string -> string) (userId : string)
  (newSettings : gmap string string).
Hypothesis user_exists : userId ∈ users.

Lemma saveEach_spec entries : forall table,
  NoDup (map (fun entry => uuid (fst entry)) entries) ->
  (forall entry, entry ∈ entries -> uuid (fst entry) ∉ map row_id table) ->
  unique_settings table ->
  exists table',
    Settings.saveEach users uuid userId newSettings entries table = (Ok tt, table')
    /\ unique_settings table'
    /\ (unique_ids_settings table -> unique_ids_settings table')
    /\ (users_exist users table -> users_exist users table')
    /\ (forall i, i ∈ map row_id table' ->
          i ∈ map row_id table \/ exists entry, entry ∈ entries /\ i = uuid (fst entry))
    /\ (forall platform fields, (platform, fields) ∈ entries ->
          Settings.hasValue (Settings.supplied newSettings platform fields) = true ->
          SettingsModel.getForPlatform userId platform table'
          = Some (Settings.supplied newSettings platform fields))
    /\ (forall u' p',
          (u' = userId -> forall fields, (p', fields) ∈ entries ->
             Settings.hasValue (Settings.supplied newSettings p' fields) = false) ->
          SettingsModel.getForPlatform u' p' table'
          = SettingsModel.getForPlatform u' p' table).
Proof.
  induction entries as [|[p fields] rest IH]; intros table Hnodup Hfresh Hunique.
  { exists table. split; [done|]. split; [done|]. split; [done|]. split; [done|].
    split; [by left|]. split; [|done].
    intros platform fields Hin. by apply elem_of_nil in Hin. }
  cbn [map fst] in Hnodup. apply NoDup_cons in Hnodup as [Hp Hnodup].
  assert (forall fields0, (p, fields0) ∉ rest) as Hp'.
  { intros fields0 Hin. destruct Hp. apply list_elem_of_fmap.
    by exists (p, fields0). }
  cbn [Settings.saveEach].
  destruct (Settings.hasValue (Settings.supplied newSettings p fields)) eqn:Hvalue.
  - destruct (upsert_succeeds users userId p (Settings.supplied newSettings p fields)
                (uuid p) table) as [table1 Hup]; [|done|].
    { apply (Hfresh (p, fields)). by left. }
    rewrite Hup.
    apply upsert_spec in Hup as (Hread1 & Hframe1 & Hkeep1 & Hids1 & Husers1 & Hidset1).
    destruct (IH table1) as (table' & Hrun & Hunique' & Hids' & Husers' & Hidset' & Ha & Hb);
      [done| |by apply Hkeep1|].
    { intros entry Hentry Hin. apply Hidset1 in Hin as [Hin|Hin].
      - apply (Hfresh entry); [by right | done].
      - destruct Hp. apply list_elem_of_fmap. by exists entry. }
    exists table'. split; [done|]. split; [done|].
    split; [by intros; apply Hids', Hids1|].
    split; [by intros; apply Husers', Husers1|].
    split; [|split].
    + intros i Hi. apply Hidset' in Hi as [Hi|(entry & Hentry & ->)].
      * apply Hidset1 in Hi as [Hi| ->]; [by left|].
        right. exists (p, fields). split; [by left | done].
      * right. exists entry. split; [by right | done].
    + intros platform fields' [[= -> ->]|Hin]%elem_of_cons Hv.
      * rewrite Hb; [done|]. intros _ fields0 Hin. by destruct (Hp' fields0).
      * by apply Ha.
    + intros u' p' Hskip. rewrite Hb.
      * apply Hframe1. intros [= -> ->].
        specialize (Hskip eq_refl fields). rewrite Hvalue in Hskip.
        by discriminate Hskip; left.
      * intros Hu fields0 Hin. apply (Hskip Hu). by right.
  - destruct (IH table) as (table' & Hrun & Hunique' & Hids' & Husers' & Hidset' & Ha & Hb);
      [done| |done|].
    { intros entry Hentry. apply Hfresh. by right. }
    exists table'. split; [done|]. split; [done|]. split; [done|]. split; [done|].
    split; [|split].
    + intros i Hi. apply Hidset' in Hi as [Hi|(entry & Hentry & ->)]; [by left|].
      right. exists entry. split; [by right | done].
    + intros platform fields' [[= -> ->]|Hin]%elem_of_cons Hv; [congruence|].
      by apply Ha.
    + intros u' p' Hskip. apply Hb.
      intros Hu fields0 Hin. apply (Hskip Hu). by right.
Qed.

End SaveEach.

(** X11. [POST /api/settings] followed by [GET /api/settings].  On a
    table that respects the uniqueness constraint, for a user that exists
    and fresh, distinct ids, the save answers 200 and keeps the three
    constraints of the table.  The flat settings read afterwards hold, for
    each platform of which the body has a non-empty value, exactly the
    body's values of its fields ('' for a field the body leaves out), the
    whole stored object being replaced; a platform of which the body has
    no non-empty value keeps what was stored, so a saved value cannot be
    cleared by saving blanks.  No other user's settings change. *)
Theorem saved_settings_are_read_back users uuid userId newSettings table :
  unique_settings table -> userId ∈ users ->
  NoDup (map uuid (map fst Settings.platformFields)) ->
  (forall platform, platform ∈ map fst Settings.platformFields ->
     uuid platform ∉ map row_id table) ->
  exists table',
    Settings.save_handler users uuid userId newSettings table
    = (mkResponse 200 true None (Some "Settings saved successfully") None, table')
    /\ unique_settings table'
    /\ (unique_ids_settings table -> unique_ids_settings table')
    /\ (users_exist users table -> users_exist users table')
    /\ (forall platform fields field,
          (platform, fields) ∈ Settings.platformFields -> field ∈ fields ->
          Settings.flatSettings (SettingsModel.getAllForUser userId table')
            !! (platform +:+ "_" +:+ field)
          = if Settings.hasValue (Settings.supplied newSettings platform fields)
            then Some (default "" (newSettings !! (platform +:+ "_" +:+ field)))
            else Settings.flatSettings (SettingsModel.getAllForUser userId table)
                   !! (platform +:+ "_" +:+ field))
    /\ (forall u' p', u' <> userId ->
          SettingsModel.getForPlatform u' p' table'
          = SettingsModel.getForPlatform u' p' table).
Proof.
  intros Hunique Huser Hnodup Hfresh.
  destruct (saveEach_spec users uuid userId newSettings Huser
              Settings.platformFields table)
    as (table' & Hrun & Hunique' & Hids' & Husers' & _ & Ha & Hb).
  { by rewrite map_map in Hnodup. }
  { intros entry Hentry. apply Hfresh. apply list_elem_of_fmap. by exists entry. }
  { done. }
  exists table'. unfold Settings.save_handler. rewrite Hrun.
  split; [done|]. split; [done|]. split; [done|]. split; [done|]. split.
  - intros platform fields field Hentry Hfield.
    rewrite !(flatSettings_lookup _ platform fields field Hentry Hfield).
    rewrite !object_get_getAllForUser by done.
    destruct (Settings.hasValue (Settings.supplied newSettings platform fields))
      eqn:Hvalue.
    + rewrite (Ha platform fields Hentry Hvalue). simpl.
      by rewrite object_get_supplied, decide_True.
    + rewrite Hb; [done|]. intros _ fields0 Hentry0.
      assert (fields0 = fields) as ->; [|done].
      clear -Hentry Hentry0. unfold Settings.platformFields in *.
      repeat (apply elem_of_cons in Hentry as [Hentry|Hentry];
              [injection Hentry as -> ->|]);
        try (by apply elem_of_nil in Hentry);
        repeat (apply elem_of_cons in Hentry0 as [Hentry0|Hentry0];
                [by injection Hentry0|]);
        by apply elem_of_nil in Hentry0.
  - intros u' p' Hne. apply Hb. intros Hu. by destruct Hne.
Qed.

Lemma saved_settings_are_read_back_witness :
  exists table',
    Settings.save_handler ["u1"; "u2"] sample_uuid "u2" sample_form sample_settings_table
    = (mkResponse 200 true None (Some "Settings saved successfully") None, table')
    /\ unique_settings table'
    /\ (unique_ids_settings sample_settings_table -> unique_ids_settings table')
    /\ (users_exist ["u1"; "u2"] sample_settings_table
        -> users_exist ["u1"; "u2"] table')
    /\ (forall platform fields field,
          (platform, fields) ∈ Settings.platformFields -> field ∈ fields ->
          Settings.flatSettings (SettingsModel.getAllForUser "u2" table')
            !! (platform +:+ "_" +:+ field)
          = if Settings.hasValue (Settings.supplied sample_form platform fields)
            then Some (default "" (sample_form !! (platform +:+ "_" +:+ field)))
            else Settings.flatSettings
                   (SettingsModel.getAllForUser "u2" sample_settings_table)
                   !! (platform +:+ "_" +:+ field))
    /\ (forall u' p', u' <> "u2" ->
          SettingsModel.getForPlatform u' p' table'
          = SettingsModel.getForPlatform u' p' sample_settings_table).
Proof.
  apply (saved_settings_are_read_back ["u1"; "u2"] sample_uuid "u2" sample_form
           sample_settings_table).
  - unfold unique_settings. compute_done.
  - compute_done.
  - compute_done.
  - intros platform Hin. revert platform Hin. apply Forall_forall. compute_done.
Defined.

(** *** Blank and missing credentials *)

Lemma same_credentials_read s1 s2 key :
  same_credentials s1 s2 -> key ∈ flatKeys ->
  s1 !! key = s2 !! key \/ (falsy (s1 !! key) = true /\ falsy (s2 !! key) = true).
Proof.
  intros Hsame Hkey. specialize (Hsame key Hkey).
  destruct (s1 !! key) as [a|], (s2 !! key) as [b|]; simpl in *; subst; auto.
Qed.

Lemma postToFacebook_same_credentials w files caption mediaType s1 s2 log :
  same_credentials s1 s2 ->
  Facebook.postToFacebook w files caption mediaType s1 log
  = Facebook.postToFacebook w files caption mediaType s2 log.
Proof.
  intros Hsame. unfold Facebook.postToFacebook, try_catch. cbv zeta.
  cbn [pageId fb_accessToken].
  destruct (same_credentials_read s1 s2 "facebook_page_id" Hsame) as [E1|[F1 G1]];
    [unfold flatKeys; compute_done | |];
    (destruct (same_credentials_read s1 s2 "facebook_access_token" Hsame)
      as [E2|[F2 G2]]; [unfold flatKeys; compute_done | |]).
  - by rewrite E1, E2.
  - by rewrite E1, F2, G2, !orb_true_r.
  - by rewrite F1, G1.
  - by rewrite F1, G1.
Qed.

Lemma postToTelegram_same_credentials w files caption mediaType s1 s2 log :
  same_credentials s1 s2 ->
  Telegram.postToTelegram w files caption mediaType s1 log
  = Telegram.postToTelegram w files caption mediaType s2 log.
Proof.
  intros Hsame. unfold Telegram.postToTelegram, try_catch. cbv zeta.
  cbn [botToken chatId].
  destruct (same_credentials_read s1 s2 "telegram_bot_token" Hsame) as [E1|[F1 G1]];
    [unfold flatKeys; compute_done | |];
    (destruct (same_credentials_read s1 s2 "telegram_chat_id" Hsame)
      as [E2|[F2 G2]]; [unfold flatKeys; compute_done | |]).
  - by rewrite E1, E2.
  - by rewrite E1, F2, G2, !orb_true_r.
  - by rewrite F1, G1.
  - by rewrite F1, G1.
Qed.

Lemma bind_ext {A B} (m : IO A) (k1 k2 : A -> IO B) log :
  (forall a log', k1 a log' = k2 a log') -> bind m k1 log = bind m k2 log.
Proof. intros Hk. unfold bind. destruct (m log) as [[a|e] log']; [apply Hk | done]. Qed.

Lemma bind_ext_l {A B} (m1 m2 : IO A) (k : A -> IO B) log :
  m1 log = m2 log -> bind m1 k log = bind m2 k log.
Proof. intros Hm. unfold bind. by rewrite Hm. Qed.

Lemma try_catch_ext {A} (body1 body2 : IO A) handler log :
  body1 log = body2 log -> try_catch body1 handler log = try_catch body2 handler log.
Proof. intros Hbody. unfold try_catch. by rewrite Hbody. Qed.

Lemma postToTikTok_same_credentials w files caption mediaType s1 s2 log :
  same_credentials s1 s2 ->
  TikTok.postToTikTok w files caption mediaType s1 log
  = TikTok.postToTikTok w files caption mediaType s2 log.
Proof.
  intros Hsame. unfold TikTok.postToTikTok.
  destruct mediaType; [|done]. cbv zeta.
  apply try_catch_ext, bind_ext. intros f log1. apply bind_ext_l.
  unfold TikTok.postVideo. cbn [tk_accessToken openId].
  destruct (same_credentials_read s1 s2 "tiktok_access_token" Hsame) as [E1|[F1 G1]];
    [unfold flatKeys; compute_done | |];
    (destruct (same_credentials_read s1 s2 "tiktok_open_id" Hsame)
      as [E2|[F2 G2]]; [unfold flatKeys; compute_done | |]).
  - by rewrite E1, E2.
  - by rewrite E1, F2, G2, !orb_true_r.
  - by rewrite F1, G1.
  - by rewrite F1, G1.
Qed.

Lemma postingPromise_same_credentials w files caption mediaType s1 s2 platform log :
  same_credentials s1 s2 ->
  Uploader.postingPromise Uploader.imported w files caption mediaType s1 platform log
  = Uploader.postingPromise Uploader.imported w files caption mediaType s2 platform log.
Proof.
  intros Hsame. unfold Uploader.postingPromise. cbn [Uploader.imported
    Uploader.postToFacebook Uploader.postToTelegram Uploader.postToTikTok].
  repeat match goal with
    | |- context [if ?c then _ else _] => destruct c
    end;
    auto using postToFacebook_same_credentials, postToTelegram_same_credentials,
      postToTikTok_same_credentials.
Qed.

(** Promises that settle alike fill the slots alike. *)
Lemma fill_ext {A} (ps1 ps2 : list (IO A)) :
  (forall i, Uploader.settle <$> ps1 !! i = Uploader.settle <$> ps2 !! i) ->
  forall order values, Uploader.fill ps1 values order = Uploader.fill ps2 values order.
Proof.
  intros Hsame. unfold Uploader.fill.
  induction order as [|i order IH]; intros values; [done|].
  simpl. specialize (Hsame i).
  destruct (ps1 !! i) as [p1|], (ps2 !! i) as [p2|]; simpl in Hsame;
    try discriminate; [|done].
  injection Hsame as ->. apply IH.
Qed.

(** X12. The dispatcher reads the credentials only up to blanks: two
    settings objects in which every key of the flat format is blank or
    missing in both, or has the same value in both, give the same outcome
    of [postToAllPlatforms], for every world, request and media list. *)
Theorem dispatch_ignores_blank_or_missing w platforms files caption s1 s2 :
  same_credentials s1 s2 ->
  Uploader.postToAllPlatforms w platforms files caption s1
  = Uploader.postToAllPlatforms w platforms files caption s2.
Proof.
  intros Hsame. unfold Uploader.postToAllPlatforms, Uploader.postToAllPlatformsWith.
  destruct files as [|f files']; [done|]. cbv zeta.
  set (files := f :: files').
  unfold Uploader.allSettled. rewrite !length_map.
  rewrite (fill_ext
    (map (Uploader.postingPromise Uploader.imported w files caption
            (Uploader.mediaTypeOf f) s1) platforms)
    (map (Uploader.postingPromise Uploader.imported w files caption
            (Uploader.mediaTypeOf f) s2) platforms)); [done|].
  intros i. rewrite !list_lookup_fmap.
  destruct (platforms !! i) as [platform|]; [|done]. simpl.
  unfold Uploader.settle.
  by rewrite (postingPromise_same_credentials w files caption _ s1 s2 platform []).
Qed.

Lemma dispatch_ignores_blank_or_missing_witness :
  Uploader.postToAllPlatforms sample_world ["facebook"; "telegram"] [sample_photo] "hi"
    facebook_settings
  = Uploader.postToAllPlatforms sample_world ["facebook"; "telegram"] [sample_photo] "hi"
      (<["telegram_chat_id" := EmptyString]> facebook_settings).
Proof.
  apply (dispatch_ignores_blank_or_missing sample_world ["facebook"; "telegram"]
           [sample_photo] "hi" facebook_settings
           (<["telegram_chat_id" := EmptyString]> facebook_settings)).
  unfold same_credentials. apply Forall_forall. compute_done.
Defined.

(** *** The scheduler's flattening *)

Lemma foldl_insert_lookup (l : list (string * string)) (m : gmap string string) key :
  foldl (fun m kv => <[fst kv := snd kv]> m) m l !! key
  = match object_get key l with
    | Some v => Some v
    | None => m !! key
    end.
Proof.
  revert m. induction l as [|[k v] l IH]; intros m; [done|].
  cbn [foldl object_get fst snd]. rewrite IH.
  destruct (object_get key l); [done|].
  destruct (String.eqb key k) eqn:Hk.
  - apply String.eqb_eq in Hk as ->. by rewrite lookup_insert_eq.
  - rewrite lookup_insert_ne; [done|]. intros ->. by rewrite String.eqb_refl in Hk.
Qed.

Lemma flatten_assignments allSettings :
  Scheduler.flatten allSettings
  = foldl (fun m kv => <[fst kv := snd kv]> m) ∅ (flat_assignments allSettings).
Proof.
  unfold Scheduler.flatten, flat_assignments. generalize (∅ : gmap string string).
  induction allSettings as [|[p obj] rest IH]; intros m; [done|].
  cbn [foldl map concat fst snd]. rewrite foldl_app, IH. f_equal.
  clear. revert m. induction obj as [|[f v] obj IH]; intros m; [done|].
  cbn [foldl map fst snd]. apply IH.
Qed.

Lemma append_prefix_eqb p x y : String.eqb (p +:+ x) (p +:+ y) = String.eqb x y.
Proof.
  induction p as [|a p IH]; [done|].
  change (String a p +:+ x) with (String a (p +:+ x)).
  change (String a p +:+ y) with (String a (p +:+ y)).
  cbn [String.eqb]. by rewrite Ascii.eqb_refl.
Qed.

(** No key of the flat format belongs to two platforms. *)
Lemma key_platform_inj p p' f f' :
  p ∈ map fst Settings.platformFields -> p' ∈ map fst Settings.platformFields ->
  p +:+ "_" +:+ f = p' +:+ "_" +:+ f' -> p = p'.
Proof.
  cbn [map fst Settings.platformFields]. intros Hp Hp' Hkey.
  repeat (apply elem_of_cons in Hp as [->|Hp]);
    try (by apply elem_of_nil in Hp);
    repeat (apply elem_of_cons in Hp' as [->|Hp']);
    try (by apply elem_of_nil in Hp');
    cbv [String.append] in Hkey; first [reflexivity | discriminate Hkey].
Qed.

Lemma object_get_prefixed p pe f (obj : list (string * string)) :
  p ∈ map fst Settings.platformFields -> pe ∈ map fst Settings.platformFields ->
  object_get (p +:+ "_" +:+ f)
    (map (fun field => (pe +:+ "_" +:+ fst field, snd field)) obj)
  = if String.eqb p pe then object_get f obj else None.
Proof.
  intros Hp Hpe. induction obj as [|[f' v] obj IH]; [by destruct (String.eqb p pe)|].
  cbn [map object_get fst snd]. rewrite IH.
  destruct (String.eqb p pe) eqn:Heq.
  - apply String.eqb_eq in Heq as ->. by rewrite !append_prefix_eqb.
  - destruct (String.eqb (p +:+ "_" +:+ f) (pe +:+ "_" +:+ f')) eqn:Hkey; [|done].
    apply String.eqb_eq, key_platform_inj in Hkey; [|done..].
    subst. by rewrite String.eqb_refl in Heq.
Qed.

Lemma object_get_None {V} k (l : list (string * V)) :
  k ∉ map fst l -> object_get k l = None.
Proof.
  induction l as [|[k' v] l IH]; [done|].
  cbn [map fst]. intros Hk. apply not_elem_of_cons in Hk as [Hne Hk].
  cbn [object_get]. rewrite IH by done.
  destruct (String.eqb k k') eqn:Heq; [|done].
  by apply String.eqb_eq in Heq.
Qed.

Lemma object_get_flat_assignments allSettings p f :
  NoDup (map fst allSettings) -> stored_platforms_known allSettings ->
  p ∈ map fst Settings.platformFields ->
  object_get (p +:+ "_" +:+ f) (flat_assignments allSettings)
  = object_get f (default [] (object_get p allSettings)).
Proof.
  intros Hnodup Hknown Hp. unfold flat_assignments.
  induction allSettings as [|[pe obj] rest IH]; [done|].
  cbn [map fst] in Hnodup. apply NoDup_cons in Hnodup as [Hfresh Hnodup].
  apply Forall_cons in Hknown as [Hpe Hknown]. cbn [fst] in Hpe.
  specialize (IH Hnodup Hknown).
  cbn [map concat fst snd]. rewrite object_get_app, IH.
  rewrite object_get_prefixed by done. cbn [object_get].
  destruct (String.eqb p pe) eqn:Heq.
  - apply String.eqb_eq in Heq as ->.
    rewrite (object_get_None pe rest Hfresh). simpl.
    by destruct (object_get f obj).
  - destruct (object_get p rest) as [o|]; simpl; [|done].
    by destruct (object_get f o).
Qed.

Lemma flatKeys_elem key :
  key ∈ flatKeys ->
  exists platform fields field,
    (platform, fields) ∈ Settings.platformFields /\ field ∈ fields
    /\ key = platform +:+ "_" +:+ field.
Proof.
  unfold flatKeys. intros Hkey.
  apply list_elem_of_In, in_concat in Hkey as (keys & Hkeys & Hkey).
  apply list_elem_of_In in Hkeys, Hkey.
  apply list_elem_of_fmap in Hkeys as ([platform fields] & -> & Hentry).
  apply list_elem_of_fmap in Hkey as (field & -> & Hfield).
  eauto 6.
Qed.

(** X13. The two flattenings agree.  For settings as the table stores
    them (one object per platform, under the platform names of the
    settings route), the object the scheduler builds and the object
    [getSettings] builds for an immediate post hold, under every key of
    the flat format, the same value, or a blank in one and nothing in the
    other; the scheduler's object has the stored value under each such
    key, and nothing for a field that is not stored. *)
Theorem scheduler_flattening_agrees_with_getSettings allSettings :
  NoDup (map fst allSettings) -> stored_platforms_known allSettings ->
  same_credentials (Scheduler.flatten allSettings) (Settings.flatSettings allSettings)
  /\ (forall platform fields field,
        (platform, fields) ∈ Settings.platformFields -> field ∈ fields ->
        Scheduler.flatten allSettings !! (platform +:+ "_" +:+ field)
        = object_get field (default [] (object_get platform allSettings))).
Proof.
  intros Hnodup Hknown.
  assert (forall platform fields field,
            (platform, fields) ∈ Settings.platformFields -> field ∈ fields ->
            Scheduler.flatten allSettings !! (platform +:+ "_" +:+ field)
            = object_get field (default [] (object_get platform allSettings)))
    as Hread.
  { intros platform fields field Hentry Hfield.
    rewrite flatten_assignments, foldl_insert_lookup.
    rewrite object_get_flat_assignments; [|done..|].
    - by destruct (object_get field _).
    - apply list_elem_of_fmap. by exists (platform, fields). }
  split; [|done].
  intros key (platform & fields & field & Hentry & Hfield & ->)%flatKeys_elem.
  rewrite (Hread platform fields field Hentry Hfield).
  rewrite (flatSettings_lookup _ platform fields field Hentry Hfield).
  by destruct (object_get field _).
Qed.

Lemma scheduler_flattening_agrees_with_getSettings_witness :
  same_credentials
    (Scheduler.flatten (SettingsModel.getAllForUser "u2" sample_settings_table))
    (Settings.flatSettings (SettingsModel.getAllForUser "u2" sample_settings_table))
  /\ (forall platform fields field,
        (platform, fields) ∈ Settings.platformFields -> field ∈ fields ->
        Scheduler.flatten (SettingsModel.getAllForUser "u2" sample_settings_table)
          !! (platform +:+ "_" +:+ field)
        = object_get field
            (default [] (object_get platform
                           (SettingsModel.getAllForUser "u2" sample_settings_table)))).
Proof.
  apply (scheduler_flattening_agrees_with_getSettings
           (SettingsModel.getAllForUser "u2" sample_settings_table)).
  - compute_done.
  - unfold stored_platforms_known. compute_done.
Defined.

(** *** An accepted submission *)

Lemma findById_app_fresh postId db row :
  existsb (fun r => String.eqb (id r) postId) db = false -> id row = postId ->
  ScheduledPostModel.findById postId (db ++ [row]) = Some row.
Proof.
  intros Hfresh Hid. unfold ScheduledPostModel.findById.
  induction db as [|r db IH]; simpl.
  - by rewrite Hid, String.eqb_refl.
  - simpl in Hfresh. apply orb_false_iff in Hfresh as [Hr Hfresh].
    rewrite Hr. by apply IH.
Qed.

(** The two ways [POST /api/scheduled] ends: with the table as it was,
    or with 201 after the [INSERT]. *)
Lemma router_post_inv w now postId req disk db res disk' db' :
  ScheduledRoute.router_post w now postId req disk db = (res, disk', db') ->
  (http_status res <> 201%nat /\ db' = db)
  \/ (exists userId scheduledDate platformList,
        session_userId req = Some userId /\ userId <> ""
        /\ req_files req <> []
        /\ Date_parse w (default "" (body_scheduledAt req)) = Some scheduledDate
        /\ now < scheduledDate
        /\ match body_platforms req with
           | Some (inl text) => JSON_parse w text = Ok platformList
           | Some (inr list) => platformList = list
           | None => False
           end
        /\ existsb (fun row => String.eqb (id row) postId) db = false
        /\ db' = db ++ [mkPost postId userId platformList (default "" (body_caption req))
                          (map path (req_files req))
                          (ScheduledRoute.localDateStr (local_fields w scheduledDate))
                          pending None]
        /\ disk' = ScheduledRoute.upload_array (req_files req) disk
        /\ res = mkResponse 201 true None (Some "Post scheduled successfully")
                   (ScheduledPostModel.findById postId db')).
Proof.
  unfold ScheduledRoute.router_post, ScheduledRoute.post_handler.
  destruct (session_userId req) as [userId|] eqn:Hsession;
    [|by intros [= <- <- <-]; left].
  destruct (String.eqb userId "") eqn:Huser; [by intros [= <- <- <-]; left|].
  apply String.eqb_neq in Huser.
  destruct (req_files req) as [|f files] eqn:Hfiles; [by intros [= <- <- <-]; left|].
  cbn [length Nat.eqb].
  destruct (ScheduledRoute.no_platforms (body_platforms req)) eqn:Hplatforms;
    [by intros [= <- <- <-]; left|].
  destruct (falsy (body_scheduledAt req)); [by intros [= <- <- <-]; left|].
  destruct (Date_parse w (default "" (body_scheduledAt req))) as [scheduledDate|];
    [|by intros [= <- <- <-]; left].
  destruct (scheduledDate <=? now) eqn:Hfuture; [by intros [= <- <- <-]; left|].
  apply Z.leb_gt in Hfuture.
  remember (match body_platforms req with
            | Some (inl text) => JSON_parse w text
            | Some (inr list) => Ok list
            | None => Ok []
            end) as parsed eqn:Hparsed.
  destruct parsed as [platformList|e]; [|by intros [= <- <- <-]; left].
  unfold ScheduledPostModel.create.
  destruct (existsb (fun row => String.eqb (id row) postId) db) eqn:Hfresh;
    [by intros [= <- <- <-]; left|].
  intros [= <- <- <-]. right. exists userId, scheduledDate, platformList.
  split; [done|]. split; [done|]. split; [done|]. split; [done|]. split; [done|].
  split; [|done].
  destruct (body_platforms req) as [[text|list]|]; [done| |done].
  by injection Hparsed.
Qed.



Lemma delete_app_fresh postId db row :
  postId ∉ map id db -> id row = postId ->
  ScheduledPostModel.delete postId (db ++ [row]) = db.
Proof.
  intros Hfresh Hid. unfold ScheduledPostModel.delete.
  rewrite List.filter_app. simpl. rewrite Hid, String.eqb_refl. simpl.
  rewrite app_nil_r. induction db as [|r db IH]; [done|]. simpl.
  cbn [map] in Hfresh. apply not_elem_of_cons in Hfresh as [Hne Hfresh].
  destruct (String.eqb (id r) postId) eqn:Heq.
  - apply String.eqb_eq in Heq. by destruct Hne.
  - simpl. by rewrite IH.
Qed.

Lemma storage_upload_array userDir files : forall disk,
  undeletable (ScheduledStorage.upload_array userDir files disk) = undeletable disk
  /\ forall q, q ∈ present (ScheduledStorage.upload_array userDir files disk)
               <-> q ∈ present disk \/ (files <> [] /\ q = userDir)
                   \/ q ∈ map path files.
Proof.
  unfold ScheduledStorage.upload_array.
  induction files as [|f files IH]; intros disk.
  - split; [done|]. intros q. simpl. split; [by left|].
    intros [Hq|[[Hne _]|Hq]]; [done|done|]. by apply elem_of_nil in Hq.
  - cbn [foldl]. destruct (IH (ScheduledStorage.store userDir disk f)) as [Hu Hp].
    assert (undeletable (ScheduledStorage.store userDir disk f) = undeletable disk
            /\ forall q, q ∈ present (ScheduledStorage.store userDir disk f)
                         <-> q ∈ present disk \/ q = userDir \/ q = path f) as [Hu1 Hp1].
    { unfold ScheduledStorage.store, ScheduledStorage.destination,
        ScheduledStorage.mkdirSync, ScheduledRoute.existsSync.
      case_bool_decide; simpl; (split; [done|]); intros q; set_solver. }
    split; [congruence|]. intros q. rewrite Hp, Hp1. cbn [map].
    rewrite elem_of_cons. naive_solver.
Qed.

Lemma router_post_storage w userDir now postId req disk db :
  ScheduledStorage.router_post w userDir now postId req disk db
  = (fst (fst (ScheduledRoute.router_post w now postId req disk db)),
     match session_userId req with
     | Some userId =>
         if String.eqb userId "" then disk
         else ScheduledStorage.upload_array (userDir userId) (req_files req) disk
     | None => disk
     end,
     snd (ScheduledRoute.router_post w now postId req disk db)).
Proof.
  unfold ScheduledStorage.router_post, ScheduledRoute.router_post.
  destruct (session_userId req) as [userId|]; [|done].
  destruct (String.eqb userId ""); [done|].
  by destruct (ScheduledRoute.post_handler w now postId req userId db).
Qed.

(** X21. Scheduling and then cancelling leaves the folder of the user
    behind, and nothing else.  When a submission that the upload
    middleware let through was accepted and its uploads went to fresh
    paths, none of which the system refuses to remove, the cancel request
    of the same user for the new id is answered with 200 and leaves the
    table exactly as it was before the submission; the disk is as it was
    before the submission with the upload folder of the user on it: the
    storage creates that folder with the first upload of the user, and
    the cancellation removes the files only. *)
Theorem schedule_then_cancel_leaves_the_upload_folder
    w userDir now postId req userId disk db res disk1 db1 :
  multer_accepts 10 (100 * 1024 * 1024) (req_files req) ->
  session_userId req = Some userId ->
  ScheduledStorage.router_post w userDir now postId req disk db = (res, disk1, db1) ->
  http_status res = 201%nat ->
  (forall f, f ∈ req_files req ->
     (path f ∉ present disk) /\ (path f ∉ undeletable disk)
     /\ (path f <> userDir userId)) ->
  (forall f, f ∈ req_files req -> path f ∈ present disk1)
  /\ userDir userId ∈ present disk1
  /\ ScheduledRoute.router_delete
       (mkRequest (Some userId) postId None None None []) disk1 db1
     = (mkResponse 200 true None (Some "Scheduled post cancelled") None,
        mkDisk (present disk ∪ {[userDir userId]}) (undeletable disk), db)
  /\ (userDir userId ∈ present disk ->
      mkDisk (present disk ∪ {[userDir userId]}) (undeletable disk) = disk)
  /\ (userDir userId ∉ present disk ->
      mkDisk (present disk ∪ {[userDir userId]}) (undeletable disk) <> disk).
Proof.
  intros _ Hsession Hpost Haccepted Hfresh.
  rewrite router_post_storage, Hsession in Hpost.
  destruct (ScheduledRoute.router_post w now postId req disk db) as [[res0 disk0] db0]
    eqn:Hroute.
  cbn [fst snd] in Hpost. injection Hpost as -> Hdisk1 ->.
  apply router_post_inv in Hroute
    as [[Hrefused _]
       |(userId' & scheduledDate & platformList & Hsession' & Huser & Hfiles & _ & _ & _
         & Hid & -> & _ & _)]; [done|].
  rewrite Hsession in Hsession'. injection Hsession' as <-.
  rewrite (proj2 (String.eqb_neq userId "") Huser) in Hdisk1. subst disk1.
  destruct (storage_upload_array (userDir userId) (req_files req) disk) as [Hu1 Hp1].
  split; [|split; [|split; [|split]]].
  - intros f Hf. apply Hp1. right. right. by apply (list_elem_of_fmap_2 path).
  - apply Hp1. right. left. by split.
  - set (row := mkPost postId userId platformList (default "" (body_caption req))
                  (map path (req_files req))
                  (ScheduledRoute.localDateStr (local_fields w scheduledDate))
                  pending None).
    assert (ScheduledPostModel.findById postId (db ++ [row]) = Some row) as Hfind
      by (by apply findById_app_fresh).
    assert (postId ∉ map id db) as Hnotin.
    { intros (r & Hr & Hin)%list_elem_of_fmap.
      assert (existsb (fun row => String.eqb (id row) postId) db = true) as Hcontra;
        [|congruence].
      apply existsb_exists. exists r. split; [by apply list_elem_of_In|].
      by apply String.eqb_eq. }
    unfold ScheduledRoute.router_delete, ScheduledRoute.delete_handler.
    cbn [session_userId params_id].
    rewrite (proj2 (String.eqb_neq userId "") Huser), Hfind.
    cbn [user_id status media_paths row]. rewrite String.eqb_refl.
    cbn [negb ScheduledPostModel.is_pending].
    rewrite delete_app_fresh by done.
    f_equal. f_equal.
    destruct (foldl_removeFile_spec (map path (req_files req))
                (ScheduledStorage.upload_array (userDir userId) (req_files req) disk))
      as [Hu Hp].
    destruct (foldl ScheduledRoute.removeFile _ _) as [present' undeletable'].
    simpl in Hu, Hp. rewrite Hu1 in Hu. subst undeletable'.
    f_equal. apply leibniz_equiv. intros q. rewrite Hp, Hp1, Hu1.
    rewrite elem_of_union, elem_of_singleton. split.
    + intros [[Hq|[[_ Hq]|Hq]] Hkeep]; [by left|by right|]. exfalso.
      apply list_elem_of_fmap in Hq as (f & -> & Hf).
      destruct (Hfresh f Hf) as (_ & Hno & _). apply Hno, Hkeep.
      apply list_elem_of_fmap. by exists f.
    + intros [Hq| ->].
      * split; [by left|]. intros (f & -> & Hf)%list_elem_of_fmap.
        by destruct (Hfresh f Hf) as (Hno & _).
      * split; [right; left; by split|]. intros (f & Hq & Hf)%list_elem_of_fmap.
        destruct (Hfresh f Hf) as (_ & _ & Hne). by destruct Hne.
  - intros Hdir. destruct disk as [present0 undeletable0]. simpl in *.
    f_equal. apply leibniz_equiv. set_solver.
  - intros Hdir Heq. apply Hdir. rewrite <- Heq. simpl. set_solver.
Qed.

Lemma schedule_then_cancel_leaves_the_upload_folder_witness :
  (forall f, f ∈ req_files late_submission ->
     path f ∈ present (snd (fst (ScheduledStorage.router_post late_world sample_userDir 0
                                   "c" late_submission sample_disk sample_table))))
  /\ sample_userDir "u1"
     ∈ present (snd (fst (ScheduledStorage.router_post late_world sample_userDir 0
                            "c" late_submission sample_disk sample_table)))
  /\ ScheduledRoute.router_delete
       (mkRequest (Some "u1") "c" None None None [])
       (snd (fst (ScheduledStorage.router_post late_world sample_userDir 0 "c"
                    late_submission sample_disk sample_table)))
       (snd (ScheduledStorage.router_post late_world sample_userDir 0 "c"
               late_submission sample_disk sample_table))
     = (mkResponse 200 true None (Some "Scheduled post cancelled") None,
        mkDisk (present sample_disk ∪ {[sample_userDir "u1"]}) (undeletable sample_disk),
        sample_table)
  /\ (sample_userDir "u1" ∈ present sample_disk ->
      mkDisk (present sample_disk ∪ {[sample_userDir "u1"]}) (undeletable sample_disk)
      = sample_disk)
  /\ (sample_userDir "u1" ∉ present sample_disk ->
      mkDisk (present sample_disk ∪ {[sample_userDir "u1"]}) (undeletable sample_disk)
      <> sample_disk).
Proof.
  apply (schedule_then_cancel_leaves_the_upload_folder late_world sample_userDir 0 "c"
           late_submission "u1" sample_disk sample_table
           (fst (fst (ScheduledStorage.router_post late_world sample_userDir 0 "c"
                        late_submission sample_disk sample_table)))).
  - split; [simpl; lia|]. repeat constructor. by intros n [= <-].
  - reflexivity.
  - reflexivity.
  - reflexivity.
  - intros f Hf. revert f Hf. apply Forall_forall. unfold late_submission, sample_disk.
    cbn [req_files present undeletable]. repeat constructor; try set_solver.
    all: vm_compute; discriminate.
Defined.

(** The first upload of a user: the folder is not on the sample disk
    before, and it is there after the cancellation. *)
Example first_upload_leaves_the_folder :
  (sample_userDir "u1" ∉ present sample_disk)
  /\ sample_userDir "u1"
     ∈ present
         (snd (fst (ScheduledRoute.router_delete
                      (mkRequest (Some "u1") "c" None None None [])
                      (snd (fst (ScheduledStorage.router_post late_world sample_userDir 0
                                   "c" late_submission sample_disk sample_table)))
                      (snd (ScheduledStorage.router_post late_world sample_userDir 0 "c"
                              late_submission sample_disk sample_table))))).
Proof. split; compute_done. Qed.

(** *** A tick after a tick *)

Lemma getPending_nil now db :
  (forall row, row ∈ db -> ScheduledPostModel.due now row = false) ->
  ScheduledPostModel.getPending now db = [].
Proof.
  intros Hnone. unfold ScheduledPostModel.getPending.
  assert (List.filter (ScheduledPostModel.due now) db = []) as ->; [|done].
  induction db as [|row db IH]; [done|]. simpl.
  rewrite (Hnone row) by (by left). apply IH. intros row' Hrow'.
  apply Hnone. by right.
Qed.

(** X15. A tick is idempotent at its clock reading.  When every promise
    settles and the ids are unique, a tick returns and leaves no row that
    is due at its time; the same tick run again on the table it left
    selects nothing and changes nothing, and so does any tick on a table
    without a due row. *)
Theorem a_second_tick_changes_nothing w now db :
  every_promise_settles w -> NoDup (map id db) ->
  exists db',
    Scheduler.runSchedulerTick w now db = (Returns tt, db')
    /\ ScheduledPostModel.getPending now db' = []
    /\ Scheduler.runSchedulerTick w now db' = (Returns tt, db')
    /\ (ScheduledPostModel.getPending now db = [] -> db' = db).
Proof.
  intros Hsettle Hnodup.
  destruct (runSchedulerTick_run w now db Hsettle Hnodup) as (db' & Hrun & Hids & Hrows).
  exists db'. split; [done|].
  assert (ScheduledPostModel.getPending now db' = []) as Hnone.
  { apply getPending_nil. intros row' (i & Hi)%list_elem_of_lookup_1.
    assert (is_Some (db !! i)) as [row Hrow].
    { apply lookup_lt_is_Some. rewrite <- (length_map id), <- Hids, length_map.
      by apply lookup_lt_Some in Hi. }
    destruct (Hrows i row Hrow) as (row'' & Hi' & Hsame & Hkeep & Hdone).
    assert (row'' = row') as -> by congruence.
    destruct (ScheduledPostModel.due now row) eqn:Hdue.
    - pose proof (settled_by_terminal _ _ _ (Hdone eq_refl)) as Hterminal.
      unfold ScheduledPostModel.due, terminal in *.
      destruct (status row'); naive_solver.
    - by rewrite (Hkeep eq_refl). }
  split; [done|]. split.
  - unfold Scheduler.runSchedulerTick. by rewrite Hnone.
  - intros Hnothing. unfold Scheduler.runSchedulerTick in Hrun.
    rewrite Hnothing in Hrun. simpl in Hrun. congruence.
Qed.

Lemma a_second_tick_changes_nothing_witness :
  exists db',
    Scheduler.runSchedulerTick sample_world "2025-06-01 12:00:00" sample_table
    = (Returns tt, db')
    /\ ScheduledPostModel.getPending "2025-06-01 12:00:00" db' = []
    /\ Scheduler.runSchedulerTick sample_world "2025-06-01 12:00:00" db'
       = (Returns tt, db')
    /\ (ScheduledPostModel.getPending "2025-06-01 12:00:00" sample_table = []
        -> db' = sample_table).
Proof.
  apply (a_second_tick_changes_nothing sample_world "2025-06-01 12:00:00" sample_table).
  - exact sample_world_settles.
  - compute_done.
Defined.

(** *** The calls of the adapters *)

(** X16. An album on Facebook is posted in two phases.  Whatever the
    uploads answer, [postMultiplePhotos] sends one unpublished upload per
    photo, in the order of the files.  The feed post is sent after them,
    once, with the ids of the uploads in that order, exactly when every
    upload gave an id, and its answer is the result; when an upload
    fails, what is thrown is the failure of an upload that failed, and
    no feed post is sent. *)
Theorem facebook_album_posts_after_every_upload w files caption config log :
  (exists mediaIds,
     length mediaIds = length files
     /\ (forall i f, files !! i = Some f ->
           exists id', mediaIds !! i = Some id'
                       /\ upload_outcome w config log (take i files) f = Ok id')
     /\ Facebook.postMultiplePhotos w files caption config log
        = (respond w (log ++ map (fun f => FbUploadUnpublished config (path f)) files)
             (FbPostFeed config caption mediaIds),
           log ++ map (fun f => FbUploadUnpublished config (path f)) files
               ++ [FbPostFeed config caption mediaIds]))
  \/ (exists i f e,
        files !! i = Some f
        /\ upload_outcome w config log (take i files) f = Throw e
        /\ Facebook.postMultiplePhotos w files caption config log
           = (Throw e, log ++ map (fun f => FbUploadUnpublished config (path f)) files)).
Proof.
  destruct (Promise_all_uploads w config files log) as [Hcalls Hvalues].
  rewrite postMultiplePhotos_run.
  destruct (Facebook.Promise_all _ log) as [[mediaIds|e] log1];
    simpl in Hcalls, Hvalues; subst log1.
  - left. exists mediaIds. destruct Hvalues as [Hlen Hids].
    split; [exact Hlen|]. split; [exact Hids|]. by rewrite app_assoc.
  - right. destruct Hvalues as (i & f & Hf & Hout & _).
    exists i, f, e. split; [exact Hf|]. split; [exact Hout | reflexivity].
Qed.

Ltac close_run log :=
  lazymatch goal with
  | |- exists r calls, (Ok ?r0, ?L) = _ /\ _ =>
      let cs := calls_since log L in
      exists r0, cs; split;
      [rewrite <- ?app_assoc; simpl; rewrite ?app_nil_r; reflexivity | simpl]
  end.

(** X17. The TikTok adapter uploads only after a clean initialisation.
    For a video, [postToTikTok] always resolves with a result; its calls
    are an initial part of the sequence: file size, initialisation, file
    read, chunk upload; a successful result has made all four; and a
    chunk is uploaded only when the initialisation answered without an
    error code, to the upload URL of that answer. *)
Theorem tiktok_uploads_only_after_a_clean_init w f rest caption userSettings log :
  exists r calls,
    TikTok.postToTikTok w (f :: rest) caption video userSettings log
    = (Ok r, log ++ calls)
    /\ platform r = "tiktok"
    /\ (exists fileSize uploadUrl,
          calls `prefix_of`
            [FsStat (path f);
             TkInitUpload (mkTikTokConfig (userSettings !! "tiktok_access_token")
                                          (userSettings !! "tiktok_open_id")) fileSize;
             FsReadFile (path f);
             TkUploadChunk uploadUrl (path f) fileSize])
    /\ (success r = true -> length calls = 4%nat)
    /\ (forall uploadUrl filePath fileSize,
          TkUploadChunk uploadUrl filePath fileSize ∈ calls ->
          exists initResponse err data,
            respond w (log ++ [FsStat (path f)])
              (TkInitUpload (mkTikTokConfig (userSettings !! "tiktok_access_token")
                                            (userSettings !! "tiktok_open_id")) fileSize)
            = Ok initResponse
            /\ get initResponse "error" = Ok err
            /\ truthy (get_opt err "code") = false
            /\ get initResponse "data" = Ok data
            /\ get data "upload_url" = Ok uploadUrl).
Proof.
  unfold TikTok.postToTikTok, TikTok.postVideo, TikTok.initializeUpload,
    TikTok.uploadVideoChunk, try_catch, bind, lift, first_file, perform, ret, throw.
  cbn [tk_accessToken openId].
  repeat case_match; subst_but log; close_run log.
  all: split; [reflexivity|].
  all: split; [eexists _, _; first
    [ by apply prefix_nil
    | by eexists
    | apply prefix_cons; first [by apply prefix_nil | apply prefix_cons;
        first [by apply prefix_nil | apply prefix_cons; by apply prefix_nil]] ] |].
  all: split; [first [done | discriminate]|].
  all: intros uploadUrl filePath fileSize Hin.
  all: repeat (apply elem_of_cons in Hin as [Hin|Hin]; [try discriminate Hin|]);
    try (by apply elem_of_nil in Hin).
  all: simplify_eq; eauto 10.
  Unshelve. all: exact JNull.
Qed.

(** X18. Without [PUBLIC_URL] the Instagram adapter sends nothing.  For
    a media list that is not empty, [postToInstagram] then resolves with
    a failed result for 'instagram' and makes no call at all; the error
    is the missing-credentials message when a credential is blank or
    missing, and the message of [getPublicUrl] for the first file
    otherwise. *)
Theorem instagram_sends_nothing_without_a_public_url
    w f rest caption mediaType userSettings log :
  falsy (PUBLIC_URL w) = true ->
  exists r e,
    Instagram.postToInstagram w (f :: rest) caption mediaType userSettings log
    = (Ok r, log)
    /\ success r = false /\ platform r = "instagram"
    /\ error r = Some (JStr (message e))
    /\ (if falsy (userSettings !! "instagram_account_id")
           || falsy (userSettings !! "instagram_access_token")
        then e = Error "Instagram credentials not configured"
        else Instagram.getPublicUrl w (path f) = Throw e).
Proof.
  intros Hurl.
  assert (exists e, Instagram.getPublicUrl w (path f) = Throw e
                    /\ errorMessage e = JStr (message e)) as (e & He & Hmsg).
  { unfold Instagram.getPublicUrl. rewrite Hurl. eexists. split; reflexivity. }
  unfold Instagram.postToInstagram, try_catch. cbn [accountId ig_accessToken].
  destruct (falsy (userSettings !! "instagram_account_id")
            || falsy (userSettings !! "instagram_access_token")).
  { by eexists _, _. }
  exists (failure "instagram" (JStr (message e))), e.
  split; [|done].
  destruct mediaType.
  - unfold bind, lift, first_file, ret. rewrite He. by rewrite Hmsg.
  - destruct (length (f :: rest) =? 1)%nat.
    + unfold bind, lift, first_file, ret. rewrite He. by rewrite Hmsg.
    + unfold bind, lift, ret. cbn [Instagram.getPublicUrls]. rewrite He.
      by rewrite Hmsg.
Qed.

Lemma instagram_sends_nothing_without_a_public_url_witness :
  exists r e,
    Instagram.postToInstagram late_world [sample_photo] "hi" photo
      (<["instagram_account_id" := "a1"]> (<["instagram_access_token" := "t1"]> ∅)) []
    = (Ok r, [])
    /\ success r = false /\ platform r = "instagram"
    /\ error r = Some (JStr (message e))
    /\ (if falsy ((<["instagram_account_id" := "a1"]>
                     (<["instagram_access_token" := "t1"]> ∅) : gmap string string)
                  !! "instagram_account_id")
           || falsy ((<["instagram_account_id" := "a1"]>
                        (<["instagram_access_token" := "t1"]> ∅) : gmap string string)
                     !! "instagram_access_token")
        then e = Error "Instagram credentials not configured"
        else Instagram.getPublicUrl late_world (path sample_photo) = Throw e).
Proof.
  apply (instagram_sends_nothing_without_a_public_url late_world sample_photo []
           "hi" photo
           (<["instagram_account_id" := "a1"]> (<["instagram_access_token" := "t1"]> ∅))
           []).
  reflexivity.
Defined.

(** *** The media kind of a scheduled file *)

Lemma bool_iff_decide (b : bool) (P : Prop) `{Decision P} :
  b = bool_decide P -> (b = true <-> P).
Proof. intros ->. apply bool_decide_eq_true. Qed.

(** X19. The kind of a scheduled file follows its extension.  The type
    [getMimeType] gives a path is a video type exactly for the lower-case
    extensions .mp4, .mov, .avi and .webm, an image type exactly for
    .jpg, .jpeg, .png, .gif and .webp, and 'application/octet-stream',
    neither of them, for every other extension; so the dispatcher takes
    a scheduled post for a video exactly when its first path has one of
    the four video extensions, and for photos otherwise. *)
Theorem scheduled_media_kind_follows_the_extension w filePath :
  (MediaHelper.isVideo (Scheduler.getMimeType w filePath) = true
   <-> toLowerCase w (extname w filePath) ∈ [".mp4"; ".mov"; ".avi"; ".webm"])
  /\ (MediaHelper.isImage (Scheduler.getMimeType w filePath) = true
      <-> toLowerCase w (extname w filePath) ∈ [".jpg"; ".jpeg"; ".png"; ".gif"; ".webp"])
  /\ (toLowerCase w (extname w filePath) ∉ map fst Scheduler.mimeTypes ->
      Scheduler.getMimeType w filePath = "application/octet-stream")
  /\ Uploader.mediaTypeOf
       (mkFile filePath (Scheduler.getMimeType w filePath) (basename w filePath) None)
     = (if bool_decide (toLowerCase w (extname w filePath)
                        ∈ [".mp4"; ".mov"; ".avi"; ".webm"])
        then video else photo).
Proof.
  unfold Uploader.mediaTypeOf, Scheduler.getMimeType. cbn [mimetype].
  generalize (toLowerCase w (extname w filePath)). intros ext.
  unfold Scheduler.mimeTypes. cbn [Scheduler.table_lookup].
  repeat match goal with
    | |- context [String.eqb ext ?l] =>
        let H := fresh "Hext" in
        destruct (String.eqb ext l) eqn:H;
        [apply String.eqb_eq in H; subst ext | apply String.eqb_neq in H]
    end.
  1-9: (split; [refine (bool_iff_decide _ _ _); compute_done|];
        split; [refine (bool_iff_decide _ _ _); compute_done|];
        split; [intros Hnone; destruct Hnone; compute_done | compute_done]).
  assert (forall exts : list string,
            Forall (fun e => e ∈ map fst Scheduler.mimeTypes) exts -> ext ∉ exts)
    as Hother.
  { intros exts Hexts Hin. rewrite Forall_forall in Hexts.
    specialize (Hexts ext Hin). unfold Scheduler.mimeTypes in Hexts.
    cbn [map fst] in Hexts.
    repeat (apply elem_of_cons in Hexts as [Hexts|Hexts]; [done|]).
    by apply elem_of_nil in Hexts. }
  cbn [default].
  split; [|split; [|split]].
  - split; [discriminate|]. intros Hin.
    by apply (Hother [".mp4"; ".mov"; ".avi"; ".webm"]) in Hin; [|compute_done].
  - split; [discriminate|]. intros Hin.
    by apply (Hother [".jpg"; ".jpeg"; ".png"; ".gif"; ".webp"]) in Hin; [|compute_done].
  - done.
  - rewrite bool_decide_eq_false_2; [done|]. apply Hother. compute_done.
Qed.

(** *** No success without an accepted delivery *)

Ltac accepted_call log :=
  lazymatch goal with
  | Hanswer : respond ?w ?L ?c = Ok ?payload |- exists calls c' payload', (?L ++ [?c])%list = _ /\ _ =>
      let cs := calls_since log L in
      exists cs, c, payload; split; [|split; [|reflexivity]];
      [ rewrite <- ?app_assoc; simpl; rewrite ?app_nil_r; reflexivity
      | rewrite <- Hanswer; f_equal; rewrite <- ?app_assoc; simpl;
        rewrite ?app_nil_r; reflexivity ]
  end.

Lemma postToTelegram_success w files caption mediaType userSettings log r log' :
  Telegram.postToTelegram w files caption mediaType userSettings log = (Ok r, log') ->
  success r = true ->
  exists calls c payload,
    log' = log ++ calls ++ [c] /\ respond w (log ++ calls) c = Ok payload
    /\ delivers c = true.
Proof.
  unfold Telegram.postToTelegram, Telegram.postVideo, Telegram.postSinglePhoto,
    Telegram.postMultiplePhotos, try_catch, bind, lift, first_file, perform, ret, throw.
  intros Hrun Hsuccess. revert Hrun.
  repeat case_match; subst_but log; intros Hrun; subst_but log;
    try discriminate Hsuccess; accepted_call log.
Qed.

Lemma postToTikTok_success w files caption mediaType userSettings log r log' :
  TikTok.postToTikTok w files caption mediaType userSettings log = (Ok r, log') ->
  success r = true ->
  exists calls c payload,
    log' = log ++ calls ++ [c] /\ respond w (log ++ calls) c = Ok payload
    /\ delivers c = true.
Proof.
  unfold TikTok.postToTikTok, TikTok.postVideo, TikTok.initializeUpload,
    TikTok.uploadVideoChunk, try_catch, bind, lift, first_file, perform, ret, throw.
  intros Hrun Hsuccess. revert Hrun.
  repeat case_match; subst_but log; intros Hrun; subst_but log;
    try discriminate Hsuccess; accepted_call log.
Qed.

Lemma postToFacebook_success w files caption mediaType userSettings log r log' :
  Facebook.postToFacebook w files caption mediaType userSettings log = (Ok r, log') ->
  success r = true ->
  exists calls c payload,
    log' = log ++ calls ++ [c] /\ respond w (log ++ calls) c = Ok payload
    /\ delivers c = true.
Proof.
  unfold Facebook.postToFacebook, Facebook.postVideo, Facebook.postSinglePhoto,
    try_catch, bind, lift, first_file, perform, ret, throw.
  intros Hrun Hsuccess. revert Hrun.
  repeat case_match; subst_but log; intros Hrun; subst_but log;
    try discriminate Hsuccess; try accepted_call log.
  all: match goal with
       | Hpost : Facebook.postMultiplePhotos _ _ _ ?config ?log0 = (Ok ?data, ?log1) |- _ =>
           rewrite postMultiplePhotos_run in Hpost;
           pose proof (proj1 (Promise_all_uploads w config files log0)) as Hcalls;
           destruct (Facebook.Promise_all _ log0) as [[mediaIds|e] log2];
           [|discriminate Hpost];
           simpl in Hcalls; subst log2; injection Hpost as Hanswer Hlog;
           eexists _, _, data; split; [by rewrite <- Hlog, app_assoc|]; by split
       end.
Qed.

Lemma fill_slot {A} (promises : list (IO A)) order :
  forall (values : list (option (Uploader.Settled A))) i v,
    Uploader.fill promises values order !! i = Some (Some v) ->
    values !! i = Some (Some v)
    \/ exists p, promises !! i = Some p /\ v = Uploader.settle p.
Proof.
  unfold Uploader.fill.
  induction order as [|j order IH]; intros values i v Hslot; [by left|].
  simpl in Hslot. apply IH in Hslot as [Hslot|Hslot]; [|by right].
  destruct (promises !! j) as [p|] eqn:Hp; [|by left].
  destruct (decide (i = j)) as [->|Hne].
  - right. exists p. split; [done|].
    apply list_lookup_insert_Some in Hslot as [(_ & Hv & _)|[Hne _]]; [|done].
    by injection Hv.
  - left. by rewrite list_lookup_insert_ne in Hslot.
Qed.

Lemma allSettled_slot {A} (promises : list (IO A)) order postResults i s :
  Uploader.allSettled order promises = Some postResults ->
  postResults !! i = Some s ->
  exists p, promises !! i = Some p /\ s = Uploader.settle p.
Proof.
  unfold Uploader.allSettled. intros Hall Hs.
  apply mapM_Some in Hall.
  destruct (Forall2_lookup_r _ _ _ _ _ Hall Hs) as (slot & Hslot & ->).
  apply fill_slot in Hslot as [Hinit|Hp]; [|done].
  apply lookup_replicate in Hinit as [Hinit _]. discriminate Hinit.
Qed.

(** X20. No success without an accepted delivery.  Whenever the
    dispatcher returns, an entry of its list that reports success belongs
    to a request for Facebook, Telegram or TikTok, carries that name, and
    the task of that platform ended with a delivering call (a post, a
    message or the chunk upload) that the platform answered without
    error.  The stubs and unknown names never report success. *)
Theorem success_needs_an_accepted_delivery
    w platforms files caption userSettings results i r :
  Uploader.postToAllPlatforms w platforms files caption userSettings = Returns results ->
  results !! i = Some r -> success r = true ->
  exists requested f calls c payload,
    platforms !! i = Some requested
    /\ head files = Some f
    /\ toLowerCase w requested ∈ ["facebook"; "telegram"; "tiktok"]
    /\ platform r = toLowerCase w requested
    /\ Uploader.calls_of
         (Uploader.postingPromise Uploader.imported w files caption
            (Uploader.mediaTypeOf f) userSettings requested)
       = calls ++ [c]
    /\ respond w calls c = Ok payload
    /\ delivers c = true.
Proof.
  unfold Uploader.postToAllPlatforms, Uploader.postToAllPlatformsWith.
  destruct files as [|f files']; [done|]. cbv zeta.
  set (files := f :: files').
  destruct (Uploader.allSettled _ _) as [postResults|] eqn:Hall; [|done].
  intros [= <-] Hr Hsuccess.
  apply list_lookup_imap_Some in Hr as (s & Hs & ->).
  destruct (allSettled_slot _ _ _ _ _ Hall Hs) as (p & Hp & ->).
  apply list_lookup_fmap_Some in Hp as (requested & -> & Hrequested).
  exists requested, f.
  unfold Uploader.collect, Uploader.settle, Uploader.calls_of in *.
  destruct (Uploader.postingPromise Uploader.imported w files caption
              (Uploader.mediaTypeOf f) userSettings requested [])
    as [[r|e] log'] eqn:Hrun; simpl in Hsuccess |- *; [|by unfold failure in Hsuccess].
  unfold Uploader.postingPromise in Hrun.
  cbn [Uploader.imported Uploader.postToFacebook Uploader.postToTelegram
         Uploader.postToTikTok] in Hrun.
  destruct (String.eqb (toLowerCase w requested) "facebook") eqn:Hfb.
  { apply String.eqb_eq in Hfb. rewrite Hfb.
    destruct (postToFacebook_resolves w files caption (Uploader.mediaTypeOf f)
                userSettings []) as (r' & log'' & Hrun' & Hname).
    destruct (postToFacebook_success _ _ _ _ _ _ _ _ Hrun Hsuccess)
      as (calls & c & payload & -> & Hanswer & Hdelivers).
    exists calls, c, payload. rewrite Hrun in Hrun'. injection Hrun' as <- _.
    repeat split; try done. compute_done. }
  destruct (String.eqb (toLowerCase w requested) "telegram") eqn:Htg.
  { apply String.eqb_eq in Htg. rewrite Htg.
    destruct (postToTelegram_resolves w files caption (Uploader.mediaTypeOf f)
                userSettings []) as (r' & log'' & Hrun' & Hname).
    destruct (postToTelegram_success _ _ _ _ _ _ _ _ Hrun Hsuccess)
      as (calls & c & payload & -> & Hanswer & Hdelivers).
    exists calls, c, payload. rewrite Hrun in Hrun'. injection Hrun' as <- _.
    repeat split; try done. compute_done. }
  destruct (String.eqb (toLowerCase w requested) "tiktok") eqn:Htk.
  { apply String.eqb_eq in Htk. rewrite Htk.
    destruct (postToTikTok_resolves w files caption (Uploader.mediaTypeOf f)
                userSettings []) as (r' & log'' & Hrun' & Hname).
    destruct (postToTikTok_success _ _ _ _ _ _ _ _ Hrun Hsuccess)
      as (calls & c & payload & -> & Hanswer & Hdelivers).
    exists calls, c, payload. rewrite Hrun in Hrun'. injection Hrun' as <- _.
    repeat split; try done. compute_done. }
  unfold ret in Hrun.
  repeat case_match; injection Hrun as <- _; by unfold failure in Hsuccess.
Qed.

Lemma success_needs_an_accepted_delivery_witness :
  exists requested f calls c payload,
    ["youtube"; "Facebook"] !! 1%nat = Some requested
    /\ head [sample_photo] = Some f
    /\ toLowerCase sample_world requested ∈ ["facebook"; "telegram"; "tiktok"]
    /\ platform (mkResult true "facebook" (Some (JStr "17")) None None
                   (Some "Successfully posted to Facebook") None)
       = toLowerCase sample_world requested
    /\ Uploader.calls_of
         (Uploader.postingPromise Uploader.imported sample_world [sample_photo] "hi"
            (Uploader.mediaTypeOf f) facebook_settings requested)
       = calls ++ [c]
    /\ respond sample_world calls c = Ok payload
    /\ delivers c = true.
Proof.
  apply (success_needs_an_accepted_delivery sample_world ["youtube"; "Facebook"]
           [sample_photo] "hi" facebook_settings
           [failure "youtube" (JStr "YouTube integration coming soon");
            mkResult true "facebook" (Some (JStr "17")) None None
              (Some "Successfully posted to Facebook") None]
           1%nat).
  - vm_compute. reflexivity.
  - reflexivity.
  - reflexivity.
Defined.

(** ** Accounts *)

Lemma find_app_None {A} (f : A -> bool) l x :
  List.find f l = None -> List.find f (l ++ [x]) = if f x then Some x else None.
Proof.
  induction l as [|y l IH]; simpl; [done|]. by destruct (f y).
Qed.

Lemma find_None_existsb {A} (f : A -> bool) l :
  List.find f l = None <-> existsb f l = false.
Proof.
  induction l as [|y l IH]; simpl; [done|].
  destruct (f y); simpl; [split; discriminate | done].
Qed.

Lemma existsb_eqb_elem {A} (key : A -> string) k l :
  existsb (fun x => String.eqb (key x) k) l = false <-> k ∉ map key l.
Proof.
  induction l as [|y l IH]; simpl.
  - split; [intros _ Hin; by apply elem_of_nil in Hin | done].
  - rewrite orb_false_iff, IH, not_elem_of_cons, String.eqb_neq. naive_solver.
Qed.

Lemma findByEmail_unique users user :
  NoDup (map usr_email users) -> user ∈ users ->
  UserModel.findByEmail (usr_email user) users = Some user.
Proof.
  unfold UserModel.findByEmail.
  induction users as [|u users IH]; intros Hnodup Hin; [by apply elem_of_nil in Hin|].
  cbn [map] in Hnodup. apply NoDup_cons in Hnodup as [Hfresh Hnodup]. simpl.
  apply elem_of_cons in Hin as [->|Hin]; [by rewrite String.eqb_refl|].
  destruct (String.eqb (usr_email u) (usr_email user)) eqn:Heq; [|by apply IH].
  apply String.eqb_eq in Heq. destruct Hfresh. rewrite Heq.
  by apply (list_elem_of_fmap_2 usr_email).
Qed.

(** The two ways [POST /api/auth/register] ends. *)
Lemma register_inv w emailRegex_test passwordHash userId body session users
    res session' users' :
  AuthRoute.register w emailRegex_test passwordHash userId body session users
  = (res, session', users') ->
  (auth_status res <> 201%nat /\ auth_success res = false /\ auth_user res = None
   /\ session' = session /\ users' = users)
  \/ (exists email password,
        cred_email body = Some email /\ cred_password body = Some password
        /\ email <> "" /\ emailRegex_test email = true
        /\ (6 <= String.length password)%nat
        /\ (toLowerCase w email ∉ map usr_email users)
        /\ (userId ∉ map usr_id users)
        /\ users' = users ++ [mkUser userId (toLowerCase w email) passwordHash]
        /\ session' = mkSession (Some userId) (Some (toLowerCase w email))
        /\ res = mkAuthResponse 201 true None (Some "Account created successfully")
                   (Some (userId, toLowerCase w email))).
Proof.
  unfold AuthRoute.register.
  destruct (falsy (cred_email body) || falsy (cred_password body)) eqn:Hblank;
    [by intros [= <- <- <-]; left|].
  apply orb_false_iff in Hblank as [Hemail Hpassword].
  destruct (cred_email body) as [email|]; [|done].
  destruct (cred_password body) as [password|]; [|done].
  cbv [default from_option Datatypes.id].
  destruct (emailRegex_test email) eqn:Hformat; cbn [negb]; cbv iota;
    [|by intros [= <- <- <-]; left].
  destruct (String.length password <? 6)%nat eqn:Hshort;
    [by intros [= <- <- <-]; left|].
  apply Nat.ltb_ge in Hshort.
  destruct (UserModel.findByEmail (toLowerCase w email) users) eqn:Hfound;
    [by intros [= <- <- <-]; left|].
  unfold UserModel.create.
  destruct (existsb (fun u => String.eqb (usr_id u) userId) users) eqn:Hid;
    [by intros [= <- <- <-]; left|].
  apply find_None_existsb in Hfound. rewrite Hfound.
  intros [= <- <- <-]. right. exists email, password.
  split; [done|]. split; [done|].
  split; [simpl in Hemail; by apply String.eqb_neq in Hemail|].
  split; [done|]. split; [done|].
  split; [by apply (existsb_eqb_elem usr_email)|].
  split; [by apply (existsb_eqb_elem usr_id)|]. done.
Qed.

(** X23. Registration keeps the [users] table well formed and stores
    the address in lower case.  On a table with unique ids and unique
    addresses, [POST /api/auth/register] either answers 201, having
    appended one user under the fresh id with the lower-cased address
    and the hash, for an address that passes the format test, a password
    of at least six characters and an address that no user has in lower
    case; or it answers something else and leaves the table and the
    session as they were.  Either way ids and addresses stay unique, and
    an address that a user already has, in whatever case it is typed, is
    never registered again. *)
Theorem register_keeps_the_users_table_well_formed
    w emailRegex_test passwordHash userId body session users :
  users_well_formed users ->
  exists res session' users',
    AuthRoute.register w emailRegex_test passwordHash userId body session users
    = (res, session', users')
    /\ users_well_formed users'
    /\ ((auth_status res <> 201%nat /\ auth_success res = false
         /\ session' = session /\ users' = users)
        \/ (exists email password,
              cred_email body = Some email /\ cred_password body = Some password
              /\ emailRegex_test email = true /\ (6 <= String.length password)%nat
              /\ users' = users ++ [mkUser userId (toLowerCase w email) passwordHash]
              /\ session' = mkSession (Some userId) (Some (toLowerCase w email))
              /\ auth_status res = 201%nat
              /\ auth_user res = Some (userId, toLowerCase w email)))
    /\ (forall email user,
          cred_email body = Some email -> user ∈ users ->
          usr_email user = toLowerCase w email ->
          users' = users /\ auth_status res <> 201%nat).
Proof.
  intros [Hids Hemails].
  destruct (AuthRoute.register w emailRegex_test passwordHash userId body session users)
    as [[res session'] users'] eqn:Hrun.
  exists res, session', users'. split; [done|].
  apply register_inv in Hrun
    as [(Hrefused & Hfailed & _ & -> & ->)
       |(email & password & Hemail & Hpassword & _ & Hformat & Hlong & Hnew & Hfresh
         & -> & -> & ->)].
  - split; [done|]. split; [by left|]. done.
  - split; [|split].
    + unfold users_well_formed. rewrite !map_app. simpl. split.
      * apply NoDup_app. split; [done|]. split; [|apply NoDup_singleton].
        by intros i Hi ->%list_elem_of_singleton.
      * apply NoDup_app. split; [done|]. split; [|apply NoDup_singleton].
        by intros e He ->%list_elem_of_singleton.
    + right. by exists email, password.
    + intros email' user Hemail' Huser Hsame. exfalso.
      rewrite Hemail in Hemail'. injection Hemail' as <-.
      apply Hnew. rewrite <- Hsame. by apply (list_elem_of_fmap_2 usr_email).
Qed.

Lemma register_keeps_the_users_table_well_formed_witness :
  exists res session' users',
    AuthRoute.register sample_world (fun _ => true) "#secret2" "u2"
      (mkCredentials (Some "Bob@Example.org") (Some "secret2"))
      (mkSession None None) sample_users
    = (res, session', users')
    /\ users_well_formed users'
    /\ ((auth_status res <> 201%nat /\ auth_success res = false
         /\ session' = mkSession None None /\ users' = sample_users)
        \/ (exists email password,
              cred_email (mkCredentials (Some "Bob@Example.org") (Some "secret2"))
              = Some email
              /\ cred_password (mkCredentials (Some "Bob@Example.org") (Some "secret2"))
                 = Some password
              /\ (fun _ : string => true) email = true
              /\ (6 <= String.length password)%nat
              /\ users' = sample_users
                          ++ [mkUser "u2" (toLowerCase sample_world email) "#secret2"]
              /\ session' = mkSession (Some "u2") (Some (toLowerCase sample_world email))
              /\ auth_status res = 201%nat
              /\ auth_user res = Some ("u2", toLowerCase sample_world email)))
    /\ (forall email user,
          cred_email (mkCredentials (Some "Bob@Example.org") (Some "secret2"))
          = Some email ->
          user ∈ sample_users ->
          usr_email user = toLowerCase sample_world email ->
          users' = sample_users /\ auth_status res <> 201%nat).
Proof.
  apply (register_keeps_the_users_table_well_formed sample_world (fun _ => true)
           "#secret2" "u2" (mkCredentials (Some "Bob@Example.org") (Some "secret2"))
           (mkSession None None) sample_users).
  split; compute_done.
Defined.

(** X24. A registered user can log in.  After a registration that was
    answered with 201, when [bcrypt.compare] accepts the password
    against the hash made of it, a login with the same password and the
    address in any case is answered with 200 and opens a session for the
    new id and the lower-cased address; the session the registration
    itself left passes [requireAuth], and [GET /api/auth/me] answers it
    with the new user. *)
Theorem registered_user_can_log_in
    w emailRegex_test compare passwordHash userId body session users
    res session' users' :
  AuthRoute.register w emailRegex_test passwordHash userId body session users
  = (res, session', users') ->
  auth_status res = 201%nat -> userId <> "" ->
  (forall password, cred_password body = Some password ->
                    compare password passwordHash = true) ->
  exists email password,
    cred_email body = Some email /\ cred_password body = Some password
    /\ (forall typed session0,
          typed <> "" -> toLowerCase w typed = toLowerCase w email ->
          AuthRoute.login w compare (mkCredentials (Some typed) (Some password))
            session0 users'
          = (mkAuthResponse 200 true None (Some "Logged in successfully")
               (Some (userId, toLowerCase w email)),
             mkSession (Some userId) (Some (toLowerCase w email))))
    /\ session' = mkSession (Some userId) (Some (toLowerCase w email))
    /\ AuthRoute.requireAuth session' = true
    /\ AuthRoute.getCurrentUserId session' = Some userId
    /\ AuthRoute.me session' users'
       = mkAuthResponse 200 true None None (Some (userId, toLowerCase w email)).
Proof.
  intros Hrun Hcreated Huser Hcompare.
  apply register_inv in Hrun
    as [(Hrefused & _)
       |(email & password & Hemail & Hpassword & _ & _ & Hlong & Hnew & Hfresh
         & -> & -> & _)]; [done|].
  exists email, password. split; [done|]. split; [done|].
  assert (String.eqb userId "" = false) as Hid by (by apply String.eqb_neq).
  assert (password <> "") as Hnonempty by (intros ->; simpl in Hlong; lia).
  split; [|split; [done|split; [|split]]].
  - intros typed session0 Htyped Hsame. unfold AuthRoute.login.
    cbn [cred_email cred_password falsy default from_option Datatypes.id].
    rewrite (proj2 (String.eqb_neq typed "") Htyped).
    rewrite (proj2 (String.eqb_neq password "") Hnonempty). cbn [orb].
    unfold UserModel.findByEmail. rewrite Hsame.
    rewrite find_app_None
      by (by apply find_None_existsb, (existsb_eqb_elem usr_email)).
    cbn [usr_email]. rewrite String.eqb_refl. cbn [usr_email usr_id password_hash].
    by rewrite (Hcompare password Hpassword).
  - unfold AuthRoute.requireAuth. cbn [sess_userId falsy]. by rewrite Hid.
  - unfold AuthRoute.getCurrentUserId. cbn [sess_userId falsy]. by rewrite Hid.
  - unfold AuthRoute.me. cbn [sess_userId falsy default from_option Datatypes.id]. rewrite Hid.
    unfold UserModel.findById.
    rewrite find_app_None by (by apply find_None_existsb, (existsb_eqb_elem usr_id)).
    cbn [usr_id]. by rewrite String.eqb_refl.
Qed.

Lemma registered_user_can_log_in_witness :
  exists email password,
    cred_email (mkCredentials (Some "Bob@Example.org") (Some "secret2")) = Some email
    /\ cred_password (mkCredentials (Some "Bob@Example.org") (Some "secret2"))
       = Some password
    /\ (forall typed session0,
          typed <> "" -> toLowerCase sample_world typed = toLowerCase sample_world email ->
          AuthRoute.login sample_world sample_compare
            (mkCredentials (Some typed) (Some password)) session0
            (sample_users ++ [mkUser "u2" "bob@example.org" "#secret2"])
          = (mkAuthResponse 200 true None (Some "Logged in successfully")
               (Some ("u2", toLowerCase sample_world email)),
             mkSession (Some "u2") (Some (toLowerCase sample_world email))))
    /\ mkSession (Some "u2") (Some "bob@example.org")
       = mkSession (Some "u2") (Some (toLowerCase sample_world email))
    /\ AuthRoute.requireAuth (mkSession (Some "u2") (Some "bob@example.org")) = true
    /\ AuthRoute.getCurrentUserId (mkSession (Some "u2") (Some "bob@example.org"))
       = Some "u2"
    /\ AuthRoute.me (mkSession (Some "u2") (Some "bob@example.org"))
         (sample_users ++ [mkUser "u2" "bob@example.org" "#secret2"])
       = mkAuthResponse 200 true None None (Some ("u2", toLowerCase sample_world email)).
Proof.
  apply (registered_user_can_log_in sample_world (fun _ => true) sample_compare
           "#secret2" "u2" (mkCredentials (Some "Bob@Example.org") (Some "secret2"))
           (mkSession None None) sample_users
           (mkAuthResponse 201 true None (Some "Account created successfully")
              (Some ("u2", "bob@example.org")))).
  - vm_compute. reflexivity.
  - reflexivity.
  - discriminate.
  - intros password [= <-]. reflexivity.
Defined.

(** X25. A login succeeds exactly for the right password of an existing
    address, and its failures look alike.  On a table with unique
    addresses, with an address and a password that are not blank,
    [POST /api/auth/login] answers 200 exactly when a user has the
    lower-cased address and [bcrypt.compare] accepts the password against
    that user's hash, and then opens the session of that user; in every
    other case the answer is the one 401 'Invalid email or password',
    the same for an unknown address and for a wrong password, and the
    session stays as it was. *)
Theorem login_succeeds_exactly_for_the_right_password
    w compare email password session users :
  NoDup (map usr_email users) -> email <> "" -> password <> "" ->
  (exists user,
     user ∈ users /\ usr_email user = toLowerCase w email
     /\ compare password (password_hash user) = true
     /\ AuthRoute.login w compare (mkCredentials (Some email) (Some password))
          session users
        = (mkAuthResponse 200 true None (Some "Logged in successfully")
             (Some (usr_id user, usr_email user)),
           mkSession (Some (usr_id user)) (Some (usr_email user))))
  \/ ((forall user, user ∈ users -> usr_email user = toLowerCase w email ->
         compare password (password_hash user) = false)
      /\ AuthRoute.login w compare (mkCredentials (Some email) (Some password))
           session users
         = (AuthRoute.refuse 401 "Invalid email or password", session)).
Proof.
  intros Hemails Hemail Hpassword. unfold AuthRoute.login.
  cbn [cred_email cred_password falsy default from_option Datatypes.id].
  rewrite (proj2 (String.eqb_neq email "") Hemail).
  rewrite (proj2 (String.eqb_neq password "") Hpassword). cbn [orb].
  destruct (UserModel.findByEmail (toLowerCase w email) users) as [user|] eqn:Hfound.
  - pose proof Hfound as Hfound'. unfold UserModel.findByEmail in Hfound'.
    apply find_some in Hfound' as [Hin Hsame%String.eqb_eq].
    apply list_elem_of_In in Hin.
    destruct (compare password (password_hash user)) eqn:Hcompare; cbn [negb].
    + left. by exists user.
    + right. split; [|done]. intros user' Hin' Hsame'.
      assert (user' = user) as ->; [|done].
      pose proof (findByEmail_unique users user' Hemails Hin') as Hunique.
      rewrite Hsame', Hfound in Hunique. by injection Hunique.
  - right. split; [|done]. intros user Hin Hsame. exfalso.
    pose proof (findByEmail_unique users user Hemails Hin) as Hunique.
    rewrite Hsame, Hfound in Hunique. done.
Qed.

Lemma login_succeeds_exactly_for_the_right_password_witness :
  (exists user,
     user ∈ sample_users /\ usr_email user = toLowerCase sample_world "Ann@example.org"
     /\ sample_compare "secret1" (password_hash user) = true
     /\ AuthRoute.login sample_world sample_compare
          (mkCredentials (Some "Ann@example.org") (Some "secret1"))
          (mkSession None None) sample_users
        = (mkAuthResponse 200 true None (Some "Logged in successfully")
             (Some (usr_id user, usr_email user)),
           mkSession (Some (usr_id user)) (Some (usr_email user))))
  \/ ((forall user, user ∈ sample_users ->
         usr_email user = toLowerCase sample_world "Ann@example.org" ->
         sample_compare "secret1" (password_hash user) = false)
      /\ AuthRoute.login sample_world sample_compare
           (mkCredentials (Some "Ann@example.org") (Some "secret1"))
           (mkSession None None) sample_users
         = (AuthRoute.refuse 401 "Invalid email or password", mkSession None None)).
Proof.
  apply (login_succeeds_exactly_for_the_right_password sample_world sample_compare
           "Ann@example.org" "secret1" (mkSession None None) sample_users).
  - compute_done.
  - discriminate.
  - discriminate.
Defined.
